(** * A shallow embedding of the chess rules engine and its search opponent

    The development follows the TypeScript sources: the data model of
    [types/chess], the class [ChessEngine] (move generation, legality
    filter, move execution, status resolution, notation) and the class
    [ChessAI] (candidate generation, move ordering, alpha-beta search).

    Conventions.
    - Coordinates are JavaScript numbers that only ever hold integers;
      they are modelled by [Z].
    - A board is an array of rows, each an array of optional pieces; it
      is a [list (list (option Piece))], [None] standing for [null].
    - The engine object owns one mutable [GameState]; every method is
      modelled as a function of that state which returns the new state
      next to its result whenever the method writes to it.
    - Indexing a row that does not exist raises a [TypeError] in
      JavaScript; the writing methods return an [option] next to the
      state, [None] standing for that exception.
    - A board has its eight rows: the scanning loops index rows 0 to 7
      without a guard.
    - The fields [id] and [timestamp] of a move record (wall-clock time
      and random characters, read by no method) are left out; the
      random number the [id] takes is counted where the search counts
      its draws. *)

From Stdlib Require Import ZArith QArith Qround List Bool String Ascii Lia.
From Stdlib Require Import Permutation Sorted.
Import ListNotations.
Open Scope Z_scope.

Set Implicit Arguments.

(** ** Data model *)

Inductive PieceType := pawn | rook | knight | bishop | queen | king.
Inductive PieceColor := white | black.
Inductive GameStatus := active | check | checkmate | stalemate | draw.
Inductive Difficulty := easy | medium | hard | expert.

Record Position := mkPosition { row : Z; col : Z }.

Record Piece := mkPiece {
  piece_id : string;
  piece_type : PieceType;
  piece_color : PieceColor;
  piece_position : Position;
  piece_hasMoved : bool
}.

Record Move := mkMove {
  move_piece : Piece;
  move_from : Position;
  move_to : Position;
  move_capturedPiece : option Piece;
  move_notation : string;
  move_isCheck : bool;
  move_isCheckmate : bool;
  move_isEnPassant : bool;
  move_isCastling : bool
}.

Record ValidMove := mkValidMove {
  vm_to : Position;
  vm_isCapture : bool;
  vm_isEnPassant : bool;
  vm_isCastling : bool;
  vm_promotionOptions : option (list PieceType)
}.

Inductive SpecialMove := castling | enPassant | promotion.

Record MoveValidation := mkMoveValidation {
  mv_isValid : bool;
  mv_reason : option string;
  mv_specialMove : option SpecialMove
}.

Definition Board := list (list (option Piece)).

Record GameState := mkGameState {
  board : Board;
  currentPlayer : PieceColor;
  status : GameStatus;
  moves : list Move;
  capturedWhite : list Piece;
  capturedBlack : list Piece
}.

(** ** Decidable equalities *)

Definition PieceType_eqb (a b : PieceType) : bool :=
  match a, b with
  | pawn, pawn | rook, rook | knight, knight
  | bishop, bishop | queen, queen | king, king => true
  | _, _ => false
  end.

Definition PieceColor_eqb (a b : PieceColor) : bool :=
  match a, b with
  | white, white | black, black => true
  | _, _ => false
  end.

Definition GameStatus_eqb (a b : GameStatus) : bool :=
  match a, b with
  | active, active | check, check | checkmate, checkmate
  | stalemate, stalemate | draw, draw => true
  | _, _ => false
  end.

Definition Position_eqb (p q : Position) : bool :=
  (row p =? row q) && (col p =? col q).

Definition opposite (c : PieceColor) : PieceColor :=
  match c with white => black | black => white end.

(** ** Arrays *)

(** [arr[i]] for reading: [None] when the index is not an element. *)
Definition arrayGet {A} (l : list A) (i : Z) : option A :=
  if i <? 0 then None else nth_error l (Z.to_nat i).

Fixpoint arraySetNat {A} (fill : A) (l : list A) (n : nat) (v : A) : list A :=
  match n, l with
  | O, [] => [v]
  | O, _ :: t => v :: t
  | S k, [] => fill :: arraySetNat fill [] k v
  | S k, x :: t => x :: arraySetNat fill t k v
  end.

(** [arr[i] = v]: an index past the end extends the array (the holes
    read back as [undefined], here [fill]); a negative index creates a
    property that is no element of the array, so the list is unchanged. *)
Definition arraySet {A} (fill : A) (l : list A) (i : Z) (v : A) : list A :=
  if i <? 0 then l else arraySetNat fill l (Z.to_nat i) v.

(** [board[r][c]] read directly, as the scanning loops do for
    [0 <= r, c < 8]. *)
Definition boardGet (b : Board) (r c : Z) : option Piece :=
  match arrayGet b r with
  | Some line =>
      match arrayGet line c with
      | Some cell => cell
      | None => None
      end
  | None => None
  end.

(** [board[r][c] = v]: [None] is the [TypeError] raised when row [r]
    does not exist. *)
Definition boardSet (b : Board) (r c : Z) (v : option Piece) : option Board :=
  match arrayGet b r with
  | Some line => Some (arraySet [] b r (arraySet None line c v))
  | None => None
  end.

(** ** Bounds and lookup *)

Definition isValidPosition (p : Position) : bool :=
  (0 <=? row p) && (row p <? 8) && (0 <=? col p) && (col p <? 8).

Definition getPieceAt (gs : GameState) (p : Position) : option Piece :=
  if isValidPosition p then boardGet (board gs) (row p) (col p) else None.

Definition indices8 : list Z := [0; 1; 2; 3; 4; 5; 6; 7].

Definition allSquares : list Position :=
  flat_map (fun r => map (fun c => mkPosition r c) indices8) indices8.

Definition getAllPieces (gs : GameState) (c : PieceColor) : list Piece :=
  flat_map
    (fun sq =>
       match boardGet (board gs) (row sq) (col sq) with
       | Some p => if PieceColor_eqb (piece_color p) c then [p] else []
       | None => []
       end)
    allSquares.

Fixpoint findFirst {A} (f : A -> bool) (l : list A) : option A :=
  match l with
  | [] => None
  | x :: t => if f x then Some x else findFirst f t
  end.

Definition findKing (gs : GameState) (c : PieceColor) : option Piece :=
  findFirst
    (fun p => PieceType_eqb (piece_type p) king)
    (getAllPieces gs c).

(** ** Move generator (pseudo-legal moves) *)

Definition plainMove (to : Position) (capture : bool) : ValidMove :=
  mkValidMove to capture false false None.

Definition promotionChoices : list PieceType := [queen; rook; bishop; knight].

Definition direction (c : PieceColor) : Z :=
  match c with white => -1 | black => 1 end.
Definition startRow (c : PieceColor) : Z :=
  match c with white => 6 | black => 1 end.
Definition promotionRow (c : PieceColor) : Z :=
  match c with white => 0 | black => 7 end.

Definition isSome {A} (o : option A) : bool :=
  match o with Some _ => true | None => false end.

(** [moves[moves.length - 1]], guarded by the emptiness test. *)
Definition lastMove (gs : GameState) : option Move :=
  match rev (moves gs) with
  | [] => None
  | m :: _ => Some m
  end.

Definition canEnPassant (gs : GameState) (p : Piece) (targetPos : Position) : bool :=
  match lastMove gs with
  | None => false
  | Some lm =>
      PieceType_eqb (piece_type (move_piece lm)) pawn
      && (Z.abs (row (move_from lm) - row (move_to lm)) =? 2)
      && (row (move_to lm) =? row (piece_position p))
      && (col (move_to lm) =? col targetPos)
  end.

Definition promotionFor (p : Piece) : option (list PieceType) :=
  if row (piece_position p) + direction (piece_color p) =? promotionRow (piece_color p)
  then Some promotionChoices else None.

Definition pawnForward (gs : GameState) (p : Piece) : list ValidMove :=
  let r := row (piece_position p) in
  let c := col (piece_position p) in
  let d := direction (piece_color p) in
  let one := mkPosition (r + d) c in
  let two := mkPosition (r + 2 * d) c in
  if isValidPosition one && negb (isSome (getPieceAt gs one)) then
    mkValidMove one false false false (promotionFor p)
    :: (if (r =? startRow (piece_color p))
           && isValidPosition two && negb (isSome (getPieceAt gs two))
        then [plainMove two false] else [])
  else [].

Definition pawnDiagonal (gs : GameState) (p : Piece) (deltaCol : Z) : list ValidMove :=
  let r := row (piece_position p) in
  let c := col (piece_position p) in
  let targetPos := mkPosition (r + direction (piece_color p)) (c + deltaCol) in
  if isValidPosition targetPos then
    (match getPieceAt gs targetPos with
     | Some t =>
         if negb (PieceColor_eqb (piece_color t) (piece_color p))
         then [mkValidMove targetPos true false false (promotionFor p)]
         else []
     | None => []
     end)
    ++ (if canEnPassant gs p targetPos
        then [mkValidMove targetPos true true false None] else [])
  else [].

Definition getPawnMoves (gs : GameState) (p : Piece) : list ValidMove :=
  pawnForward gs p ++ flat_map (pawnDiagonal gs p) [-1; 1].

(** The [while] loop of [getLinearMoves]; [fuel] bounds its iterations
    (eight suffice on an 8x8 board, see [linearFrom_fuel]). *)
Fixpoint linearFrom (fuel : nat) (gs : GameState) (p : Piece)
         (dr dc : Z) (cur : Position) : list ValidMove :=
  match fuel with
  | O => []
  | S k =>
      if isValidPosition cur then
        match getPieceAt gs cur with
        | None =>
            plainMove cur false
            :: linearFrom k gs p dr dc (mkPosition (row cur + dr) (col cur + dc))
        | Some t =>
            if negb (PieceColor_eqb (piece_color t) (piece_color p))
            then [plainMove cur true] else []
        end
      else []
  end.

Definition getLinearMoves (gs : GameState) (p : Piece) (d : Z * Z) : list ValidMove :=
  linearFrom 8 gs p (fst d) (snd d)
    (mkPosition (row (piece_position p) + fst d) (col (piece_position p) + snd d)).

Definition rookDirections : list (Z * Z) := [(0, 1); (0, -1); (1, 0); (-1, 0)].
Definition bishopDirections : list (Z * Z) := [(1, 1); (1, -1); (-1, 1); (-1, -1)].

Definition getRookMoves (gs : GameState) (p : Piece) : list ValidMove :=
  flat_map (getLinearMoves gs p) rookDirections.

Definition getBishopMoves (gs : GameState) (p : Piece) : list ValidMove :=
  flat_map (getLinearMoves gs p) bishopDirections.

Definition getQueenMoves (gs : GameState) (p : Piece) : list ValidMove :=
  getRookMoves gs p ++ getBishopMoves gs p.

Definition knightOffsets : list (Z * Z) :=
  [(2, 1); (2, -1); (-2, 1); (-2, -1); (1, 2); (1, -2); (-1, 2); (-1, -2)].

Definition offsetBy (p : Position) (d : Z * Z) : Position :=
  mkPosition (row p + fst d) (col p + snd d).

(** A destination that is on the board and empty or held by the enemy. *)
Definition stepMove (gs : GameState) (p : Piece) (targetPos : Position) : list ValidMove :=
  if isValidPosition targetPos then
    match getPieceAt gs targetPos with
    | None => [plainMove targetPos false]
    | Some t =>
        if negb (PieceColor_eqb (piece_color t) (piece_color p))
        then [plainMove targetPos true] else []
    end
  else [].

Definition getKnightMoves (gs : GameState) (p : Piece) : list ValidMove :=
  flat_map (fun d => stepMove gs p (offsetBy (piece_position p) d)) knightOffsets.

Definition kingOffsets : list (Z * Z) :=
  [(-1, -1); (-1, 0); (-1, 1); (0, -1); (0, 1); (1, -1); (1, 0); (1, 1)].

(** ** Attack detection (raw moves) *)

Definition getRawPawnMoves (p : Piece) : list ValidMove :=
  flat_map
    (fun deltaCol =>
       let targetPos :=
         mkPosition (row (piece_position p) + direction (piece_color p))
                    (col (piece_position p) + deltaCol) in
       if isValidPosition targetPos then [plainMove targetPos true] else [])
    [-1; 1].

Definition getRawKingMoves (p : Piece) : list ValidMove :=
  flat_map
    (fun d =>
       let targetPos := offsetBy (piece_position p) d in
       if isValidPosition targetPos then [plainMove targetPos false] else [])
    kingOffsets.

Definition getRawMoves (gs : GameState) (p : Piece) : list ValidMove :=
  match piece_type p with
  | pawn => getRawPawnMoves p
  | rook => getRookMoves gs p
  | knight => getKnightMoves gs p
  | bishop => getBishopMoves gs p
  | queen => getQueenMoves gs p
  | king => getRawKingMoves p
  end.

Definition isSquareUnderAttack (gs : GameState) (position : Position)
           (defenderColor : PieceColor) : bool :=
  existsb
    (fun attacker =>
       existsb (fun m => Position_eqb (vm_to m) position) (getRawMoves gs attacker))
    (getAllPieces gs (opposite defenderColor)).

Definition isInCheck (gs : GameState) (c : PieceColor) : bool :=
  match findKing gs c with
  | Some k => isSquareUnderAttack gs (piece_position k) c
  | None => false
  end.

(** ** King moves and castling *)

Inductive Side := kingside | queenside.

Definition castleCols (s : Side) : list Z :=
  match s with kingside => [5; 6] | queenside => [1; 2; 3] end.

(** The loop returns [false] at the first column that is occupied or
    attacked. *)
Definition canCastle (gs : GameState) (k : Piece) (s : Side) : bool :=
  forallb
    (fun c =>
       let sq := mkPosition (row (piece_position k)) c in
       negb (isSome (getPieceAt gs sq))
       && negb (isSquareUnderAttack gs sq (piece_color k)))
    (castleCols s).

Definition castleMove (gs : GameState) (k : Piece) (s : Side) : list ValidMove :=
  let rookCol := match s with kingside => 7 | queenside => 0 end in
  let toCol := match s with kingside => 6 | queenside => 2 end in
  match getPieceAt gs (mkPosition (row (piece_position k)) rookCol) with
  | Some r =>
      if negb (piece_hasMoved r) && canCastle gs k s
      then [mkValidMove (mkPosition (row (piece_position k)) toCol) false false true None]
      else []
  | None => []
  end.

Definition kingStep (gs : GameState) (k : Piece) (targetPos : Position) : list ValidMove :=
  if isValidPosition targetPos then
    match getPieceAt gs targetPos with
    | None =>
        if negb (isSquareUnderAttack gs targetPos (piece_color k))
        then [plainMove targetPos false] else []
    | Some t =>
        if negb (PieceColor_eqb (piece_color t) (piece_color k))
        then if negb (isSquareUnderAttack gs targetPos (piece_color k))
             then [plainMove targetPos true] else []
        else []
    end
  else [].

Definition getKingMoves (gs : GameState) (k : Piece) : list ValidMove :=
  flat_map (fun d => kingStep gs k (offsetBy (piece_position k) d)) kingOffsets
  ++ (if negb (piece_hasMoved k) && negb (isInCheck gs (piece_color k))
      then castleMove gs k kingside ++ castleMove gs k queenside
      else []).

(** The [switch] of [getValidMoves], before the legality filter. *)
Definition pseudoLegalMoves (gs : GameState) (p : Piece) : list ValidMove :=
  match piece_type p with
  | pawn => getPawnMoves gs p
  | rook => getRookMoves gs p
  | knight => getKnightMoves gs p
  | bishop => getBishopMoves gs p
  | queen => getQueenMoves gs p
  | king => getKingMoves gs p
  end.

(** ** The engine's state monad

    A method that writes to [this.gameState] is a function from the
    state before the call to its result and the state after it.  The
    result [None] is an uncaught [TypeError]; the state next to it is
    the one the exception leaves behind, which a caller's [catch] still
    sees. *)

Definition Engine (A : Type) : Type := GameState -> option A * GameState.

Definition ret {A} (a : A) : Engine A := fun gs => (Some a, gs).

Definition bind {A B} (m : Engine A) (f : A -> Engine B) : Engine B :=
  fun gs =>
    match m gs with
    | (Some a, gs') => f a gs'
    | (None, gs') => (None, gs')
    end.

Definition reads {A} (f : GameState -> A) : Engine A := fun gs => (Some (f gs), gs).

Definition modify (f : GameState -> GameState) : Engine unit :=
  fun gs => (Some tt, f gs).

Declare Scope engine_scope.
Delimit Scope engine_scope with engine.
Notation "x <- m ;; k" := (bind m (fun x => k))
  (at level 61, m at next level, right associativity) : engine_scope.
Notation "m ;;; k" := (bind m (fun _ => k))
  (at level 61, right associativity) : engine_scope.
Open Scope engine_scope.

Definition withBoard (gs : GameState) (b : Board) : GameState :=
  mkGameState b (currentPlayer gs) (status gs) (moves gs)
              (capturedWhite gs) (capturedBlack gs).

Definition withStatus (gs : GameState) (s : GameStatus) : GameState :=
  mkGameState (board gs) (currentPlayer gs) s (moves gs)
              (capturedWhite gs) (capturedBlack gs).

Definition withCurrentPlayer (gs : GameState) (c : PieceColor) : GameState :=
  mkGameState (board gs) c (status gs) (moves gs)
              (capturedWhite gs) (capturedBlack gs).

Definition pushMove (gs : GameState) (m : Move) : GameState :=
  mkGameState (board gs) (currentPlayer gs) (status gs) (moves gs ++ [m])
              (capturedWhite gs) (capturedBlack gs).

(** [capturedPieces[p.color].push(p)] *)
Definition pushCaptured (gs : GameState) (p : Piece) : GameState :=
  match piece_color p with
  | white =>
      mkGameState (board gs) (currentPlayer gs) (status gs) (moves gs)
                  (capturedWhite gs ++ [p]) (capturedBlack gs)
  | black =>
      mkGameState (board gs) (currentPlayer gs) (status gs) (moves gs)
                  (capturedWhite gs) (capturedBlack gs ++ [p])
  end.

(** [this.gameState.board[pos.row][pos.col] = v] *)
Definition writeSquare (pos : Position) (v : option Piece) : Engine unit :=
  fun gs =>
    match boardSet (board gs) (row pos) (col pos) v with
    | Some b => (Some tt, withBoard gs b)
    | None => (None, gs)
    end.

Fixpoint filterM {A} (f : A -> Engine bool) (l : list A) : Engine (list A) :=
  match l with
  | [] => ret []
  | x :: t =>
      keep <- f x ;;
      rest <- filterM f t ;;
      ret (if keep then x :: rest else rest)
  end.

Fixpoint concatMapM {A B} (f : A -> Engine (list B)) (l : list A) : Engine (list B) :=
  match l with
  | [] => ret []
  | x :: t =>
      ys <- f x ;;
      rest <- concatMapM f t ;;
      ret (ys ++ rest)
  end.

(** ** Legality filter *)

(** Simulate the move on the shared board, test the king, restore. *)
Definition wouldExposeKing (piece : Piece) (to : Position) : Engine bool :=
  originalPiece <- reads (fun gs => getPieceAt gs to) ;;
  k <- reads (fun gs => findKing gs (piece_color piece)) ;;
  match k with
  | None => ret false
  | Some kg =>
      writeSquare (piece_position piece) None ;;;
      writeSquare to (Some piece) ;;;
      let kingPos :=
        if PieceType_eqb (piece_type piece) king then to else piece_position kg in
      wouldExpose <-
        reads (fun gs => isSquareUnderAttack gs kingPos (piece_color piece)) ;;
      writeSquare (piece_position piece) (Some piece) ;;;
      writeSquare to originalPiece ;;;
      ret wouldExpose
  end.

Definition wouldNotExposeKing (piece : Piece) (to : Position) : Engine bool :=
  b <- wouldExposeKing piece to ;; ret (negb b).

Definition getValidMoves (piece : Piece) : Engine (list ValidMove) :=
  pseudo <- reads (fun gs => pseudoLegalMoves gs piece) ;;
  filterM (fun m => wouldNotExposeKing piece (vm_to m)) pseudo.

Definition getAllValidMoves (c : PieceColor) : Engine (list ValidMove) :=
  pieces <- reads (fun gs => getAllPieces gs c) ;;
  concatMapM getValidMoves pieces.

Definition isCheckmate (c : PieceColor) : Engine bool :=
  inCheck <- reads (fun gs => isInCheck gs c) ;;
  if negb inCheck then ret false
  else all <- getAllValidMoves c ;; ret (Nat.eqb (List.length all) 0).

Definition isStalemate (c : PieceColor) : Engine bool :=
  inCheck <- reads (fun gs => isInCheck gs c) ;;
  if inCheck then ret false
  else all <- getAllValidMoves c ;; ret (Nat.eqb (List.length all) 0).

(** ** Validation *)

Definition reasonInvalidPosition : string := "Invalid position".
Definition reasonIllegalMove : string := "Illegal move for this piece".
Definition reasonExposesKing : string := "Move would expose king to check".

Definition specialMoveOf (m : ValidMove) : option SpecialMove :=
  let s1 := if vm_isCastling m then Some castling else None in
  let s2 := if vm_isEnPassant m then Some enPassant else s1 in
  if isSome (vm_promotionOptions m) then Some promotion else s2.

Definition validateMove (piece : Piece) (to : Position) : Engine MoveValidation :=
  if negb (isValidPosition to) then
    ret (mkMoveValidation false (Some reasonInvalidPosition) None)
  else
    validMoves <- getValidMoves piece ;;
    match findFirst (fun m => Position_eqb (vm_to m) to) validMoves with
    | None => ret (mkMoveValidation false (Some reasonIllegalMove) None)
    | Some m =>
        exposes <- wouldExposeKing piece to ;;
        if exposes then
          ret (mkMoveValidation false (Some reasonExposesKing) None)
        else
          ret (mkMoveValidation true None (specialMoveOf m))
    end.

(** ** Algebraic notation *)

Definition FILES : list string := ["a"; "b"; "c"; "d"; "e"; "f"; "g"; "h"]%string.
Definition RANKS : list string := ["8"; "7"; "6"; "5"; "4"; "3"; "2"; "1"]%string.

(** An element of an array interpolated in a template string; a missing
    element prints as [undefined]. *)
Definition interpolate (l : list string) (i : Z) : string :=
  match arrayGet l i with
  | Some s => s
  | None => "undefined"%string
  end.

Definition positionToAlgebraic (p : Position) : string :=
  (interpolate FILES (col p) ++ interpolate RANKS (row p))%string.

(** [type.charAt(0).toUpperCase()] *)
Definition typeLetter (t : PieceType) : string :=
  match t with
  | pawn => "P" | rook => "R" | knight => "K"
  | bishop => "B" | queen => "Q" | king => "K"
  end%string.

(** [s[0]] of a non-empty string. *)
Definition firstChar (s : string) : string :=
  match s with
  | String c _ => String c EmptyString
  | EmptyString => "undefined"%string
  end.

Definition generateAlgebraicNotation (piece : Piece) (to : Position)
           (capturedPiece : option Piece) (promotionPiece : option PieceType) : string :=
  if PieceType_eqb (piece_type piece) king
     && (Z.abs (col to - col (piece_position piece)) =? 2)
  then if col (piece_position piece) <? col to then "O-O"%string else "O-O-O"%string
  else
    let isPawn := PieceType_eqb (piece_type piece) pawn in
    let letter := if isPawn then ""%string else typeLetter (piece_type piece) in
    let capture :=
      match capturedPiece with
      | Some _ =>
          append
            (if isPawn then firstChar (positionToAlgebraic (piece_position piece))
             else ""%string)
            "x"%string
      | None => ""%string
      end in
    let suffix :=
      match promotionPiece with
      | Some t => append "="%string (typeLetter t)
      | None => ""%string
      end in
    append letter (append capture (append (positionToAlgebraic to) suffix)).

(** ** Move executor and status resolver *)

Definition movedTo (p : Piece) (to : Position) (t : PieceType) : Piece :=
  mkPiece (piece_id p) t (piece_color p) to true.

Definition setCastling (m : Move) : Move :=
  mkMove (move_piece m) (move_from m) (move_to m) (move_capturedPiece m)
         (move_notation m) (move_isCheck m) (move_isCheckmate m)
         (move_isEnPassant m) true.

Definition setEnPassant (m : Move) (captured : Piece) : Move :=
  mkMove (move_piece m) (move_from m) (move_to m) (Some captured)
         (move_notation m) (move_isCheck m) (move_isCheckmate m)
         true (move_isCastling m).

Definition setCheck (m : Move) (isCheck isMate : bool) : Move :=
  mkMove (move_piece m) (move_from m) (move_to m) (move_capturedPiece m)
         (move_notation m) isCheck isMate
         (move_isEnPassant m) (move_isCastling m).

Definition handleCastling (m : Move) : Engine Move :=
  if PieceType_eqb (piece_type (move_piece m)) king
     && (Z.abs (col (move_to m) - col (move_from m)) =? 2)
  then
    let isKingside := col (move_from m) <? col (move_to m) in
    let rookFromCol := if isKingside then 7 else 0 in
    let rookToCol := if isKingside then 5 else 3 in
    r <- reads (fun gs => getPieceAt gs (mkPosition (row (move_from m)) rookFromCol)) ;;
    match r with
    | Some rk =>
        writeSquare (mkPosition (row (move_from m)) rookFromCol) None ;;;
        writeSquare (mkPosition (row (move_from m)) rookToCol)
          (Some (movedTo rk (mkPosition (row (move_from m)) rookToCol) (piece_type rk)))
    | None => ret tt
    end ;;;
    ret (setCastling m)
  else ret m.

Definition handleEnPassant (m : Move) : Engine Move :=
  if PieceType_eqb (piece_type (move_piece m)) pawn
     && negb (isSome (move_capturedPiece m))
     && negb (col (move_to m) =? col (move_from m))
  then
    let sq := mkPosition (row (move_from m)) (col (move_to m)) in
    capturedPawn <- reads (fun gs => getPieceAt gs sq) ;;
    match capturedPawn with
    | Some cp =>
        writeSquare sq None ;;;
        modify (fun gs => pushCaptured gs cp) ;;;
        ret (setEnPassant m cp)
    | None => ret m
    end
  else ret m.

Definition handleSpecialMoves (m : Move) : Engine Move :=
  m1 <- handleCastling m ;; handleEnPassant m1.

Definition makeMove (piece : Piece) (to : Position)
           (promotionPiece : option PieceType) : Engine Move :=
  capturedPiece <- reads (fun gs => getPieceAt gs to) ;;
  let move0 :=
    mkMove piece (piece_position piece) to capturedPiece
           (generateAlgebraicNotation piece to capturedPiece promotionPiece)
           false false false false in
  writeSquare (piece_position piece) None ;;;
  writeSquare to
    (Some (movedTo piece to
             (match promotionPiece with Some t => t | None => piece_type piece end))) ;;;
  move1 <- handleSpecialMoves move0 ;;
  match capturedPiece with
  | Some cp => modify (fun gs => pushCaptured gs cp)
  | None => ret tt
  end ;;;
  opponentColor <- reads (fun gs => opposite (currentPlayer gs)) ;;
  isCheck <- reads (fun gs => isInCheck gs opponentColor) ;;
  move2 <-
    (if isCheck then
       mate <- isCheckmate opponentColor ;;
       modify (fun gs => withStatus gs (if mate then checkmate else check)) ;;;
       ret (setCheck move1 true mate)
     else
       stale <- isStalemate opponentColor ;;
       (if stale then modify (fun gs => withStatus gs stalemate) else ret tt) ;;;
       ret (setCheck move1 false false)) ;;
  modify (fun gs => pushMove gs move2) ;;;
  modify (fun gs => withCurrentPlayer gs opponentColor) ;;;
  ret move2.

(** ** Initial position *)

Definition typeName (t : PieceType) : string :=
  match t with
  | pawn => "pawn" | rook => "rook" | knight => "knight"
  | bishop => "bishop" | queen => "queen" | king => "king"
  end%string.

Definition colorName (c : PieceColor) : string :=
  match c with white => "white" | black => "black" end%string.

Definition digit (n : Z) : string :=
  String (ascii_of_nat (48 + Z.to_nat n)) EmptyString.

Definition newPiece (c : PieceColor) (t : PieceType) (r cl : Z) : option Piece :=
  Some (mkPiece (colorName c ++ "-" ++ typeName t ++ "-" ++ digit cl)%string
                t c (mkPosition r cl) false).

Definition backRank : list PieceType :=
  [rook; knight; bishop; queen; king; bishop; knight; rook].

Definition backRow (c : PieceColor) (r : Z) : list (option Piece) :=
  map (fun tc => newPiece c (fst tc) r (snd tc)) (combine backRank indices8).

Definition pawnRow (c : PieceColor) (r : Z) : list (option Piece) :=
  map (fun cl => newPiece c pawn r cl) indices8.

Definition emptyRow : list (option Piece) := map (fun _ => None) indices8.

Definition INITIAL_BOARD_STATE : Board :=
  [backRow black 0; pawnRow black 1; emptyRow; emptyRow;
   emptyRow; emptyRow; pawnRow white 6; backRow white 7].

(** The state a new game starts from (the page's [useState] initialiser). *)
Definition initialGameState : GameState :=
  mkGameState INITIAL_BOARD_STATE white active [] [] [].

(** [evaluatePosition] of the engine: the material balance. *)
Definition PIECE_VALUES (t : PieceType) : Z :=
  match t with
  | pawn => 1 | knight => 3 | bishop => 3 | rook => 5 | queen => 9 | king => 0
  end.

Definition materialBalance (gs : GameState) : Z :=
  fold_left
    (fun acc sq =>
       match boardGet (board gs) (row sq) (col sq) with
       | Some p =>
           match piece_color p with
           | white => acc + PIECE_VALUES (piece_type p)
           | black => acc - PIECE_VALUES (piece_type p)
           end
       | None => acc
       end)
    allSquares 0.

(** ** Playing a game through the engine *)

(** One ply as the page plays it: a piece of the side to move, a
    destination among its valid moves, then [makeMove]. *)
Definition legalStep (gs : GameState) (from to : Position) : option GameState :=
  match getPieceAt gs from with
  | Some p =>
      if PieceColor_eqb (piece_color p) (currentPlayer gs) then
        match getValidMoves p gs with
        | (Some l, gs1) =>
            if existsb (fun m => Position_eqb (vm_to m) to) l then
              match makeMove p to None gs1 with
              | (Some _, gs2) => Some gs2
              | (None, _) => None
              end
            else None
        | (None, _) => None
        end
      else None
  | None => None
  end.

Fixpoint play (gs : GameState) (plies : list (Position * Position)) : option GameState :=
  match plies with
  | [] => Some gs
  | (from, to) :: rest =>
      match legalStep gs from to with
      | Some gs' => play gs' rest
      | None => None
      end
  end.

(** States reachable from the initial position by legal plies. *)
Inductive reachable : GameState -> Prop :=
| reachable_initial : reachable initialGameState
| reachable_step gs from to gs' :
    reachable gs -> legalStep gs from to = Some gs' -> reachable gs'.

(** The legal moves of the side to move, as [getAllValidMoves] lists them. *)
Definition legalMoveCount (gs : GameState) : option nat :=
  match getAllValidMoves (currentPlayer gs) gs with
  | (Some l, _) => Some (List.length l)
  | (None, _) => None
  end.

(** Squares in algebraic form, for writing games down. *)
Definition square (file rank : Z) : Position := mkPosition (8 - rank) (file - 1).

Definition fa := 1.
Definition fb := 2.
Definition fc := 3.
Definition fd := 4.
Definition fe := 5.
Definition ff := 6.
Definition fg := 7.
Definition fh := 8.

(** Perft: the number of sequences of [d] legal plies, each applied by
    [makeMove]. *)
Definition legalPlies (gs : GameState) : list (Piece * Position) :=
  flat_map
    (fun p =>
       match getValidMoves p gs with
       | (Some l, _) => map (fun m => (p, vm_to m)) l
       | (None, _) => []
       end)
    (getAllPieces gs (currentPlayer gs)).

Fixpoint perft (d : nat) (gs : GameState) : nat :=
  match d with
  | O => 1%nat
  | S k =>
      fold_left
        (fun acc pt =>
           match makeMove (fst pt) (snd pt) None gs with
           | (Some _, gs') => (acc + perft k gs')%nat
           | (None, _) => acc
           end)
        (legalPlies gs) 0%nat
  end.

(** ** Search opponent: scores and results *)

(** The numbers the search compares: finite scores and the two
    infinities that initialise the window.  Finite scores are integers
    counting thousandths of the source's unit (every term of the static
    evaluation is a multiple of 0.001); the search only orders them,
    takes [max] and [min], and negates the mate score. *)
Inductive Num := NegInf | Fin (z : Z) | PosInf.

Definition thousandths (z : Z) : Z := z * 1000.

Definition Num_ltb (a b : Num) : bool :=
  match a, b with
  | NegInf, NegInf => false
  | NegInf, _ => true
  | Fin _, NegInf => false
  | Fin x, Fin y => x <? y
  | Fin _, PosInf => true
  | PosInf, _ => false
  end.

Definition Num_leb (a b : Num) : bool := negb (Num_ltb b a).

Definition Num_max (a b : Num) : Num := if Num_ltb a b then b else a.
Definition Num_min (a b : Num) : Num := if Num_ltb b a then b else a.

Record AIMove := mkAIMove {
  ai_move : option Move;
  ai_evaluation : Num;
  ai_depth : Z;
  ai_principalVariation : list Move
}.

Definition getMaxDepth (d : Difficulty) : nat :=
  match d with easy => 2 | medium => 3 | hard => 4 | expert => 5 end%nat.

(** ** Candidate moves of the search *)

(** The inner loop of [getAllPossibleMoves]: every valid destination is
    played on the engine, nothing is taken back; a move that throws is
    skipped by the [catch], the state it left behind stays. *)
Fixpoint tryMoves (piece : Piece) (vms : list ValidMove) : Engine (list Move) :=
  match vms with
  | [] => ret []
  | vm :: rest =>
      fun es =>
        match makeMove piece (vm_to vm) None es with
        | (Some m, es') => (ms <- tryMoves piece rest ;; ret (m :: ms)) es'
        | (None, es') => tryMoves piece rest es'
        end
  end.

(** The scan over the 64 squares reads the board the engine has been
    writing to: the engine's state is a shallow copy that shares
    [board], [moves] and [capturedPieces] with the caller's state.

    Next to the moves, the scan counts the random numbers it draws:
    [ChessEngine.makeMove] starts by building the move record, whose
    [id] takes one [Math.random()], before any statement of it that can
    throw on a board of eight rows; so every valid move that is tried
    draws once, whether the move is kept or skipped by the [catch]. *)
Fixpoint scanSquares (color : PieceColor) (sqs : list Position)
  : Engine (list Move * nat) :=
  match sqs with
  | [] => ret ([], 0%nat)
  | sq :: rest =>
      cell <- reads (fun es => boardGet (board es) (row sq) (col sq)) ;;
      here <-
        match cell with
        | Some piece =>
            if PieceColor_eqb (piece_color piece) color then
              validMoves <- getValidMoves piece ;;
              played <- tryMoves piece validMoves ;;
              ret (played, List.length validMoves)
            else ret ([], 0%nat)
        | None => ret ([], 0%nat)
        end ;;
      there <- scanSquares color rest ;;
      ret (fst here ++ fst there, (snd here + snd there)%nat)
  end.

(** What the caller's object holds after a method ran on a shallow copy
    of it: the shared arrays as the copy left them, its own [status]
    and [currentPlayer]. *)
Definition afterSharedWrites (caller copy : GameState) : GameState :=
  mkGameState (board copy) (currentPlayer caller) (status caller)
              (moves copy) (capturedWhite copy) (capturedBlack copy).

(** [getAllPossibleMoves] with the number of random numbers it has
    drawn for the ids of the moves it tried. *)
Definition getAllPossibleMovesDrawing (gs : GameState) (color : PieceColor)
  : option (list Move * nat) * GameState :=
  let (r, es) := scanSquares color allSquares gs in
  (r, afterSharedWrites gs es).

Definition getAllPossibleMoves (gs : GameState) (color : PieceColor)
  : option (list Move) * GameState :=
  let (r, gs1) := getAllPossibleMovesDrawing gs color in
  (option_map fst r, gs1).

(** The draws a call of [getAllPossibleMoves] takes from [Math.random]. *)
Definition idDraws (gs : GameState) (color : PieceColor) : nat :=
  match fst (getAllPossibleMovesDrawing gs color) with
  | Some (_, k) => k
  | None => 0%nat
  end.

(** The comparator's score, doubled so that the half squares of the
    centre distance stay integers. *)
Definition sortScore2 (m : Move) : Z :=
  (match move_capturedPiece m with
   | Some cp => 2 * (PIECE_VALUES (piece_type cp) * 10)
   | None => 0
   end)
  + (if move_isCheck m then 100 else 0)
  + (if move_isCheckmate m then 2000 else 0)
  - (Z.abs (7 - 2 * row (move_to m)) + Z.abs (7 - 2 * col (move_to m))).

(** [Array.prototype.sort] is stable: among equal scores the order of
    generation is kept. *)
Fixpoint insertByScore (m : Move) (l : list Move) : list Move :=
  match l with
  | [] => [m]
  | x :: t =>
      if sortScore2 x <? sortScore2 m then m :: x :: t
      else x :: insertByScore m t
  end.

Definition sortMoves (l : list Move) : list Move :=
  fold_left (fun acc m => insertByScore m acc) l [].

(** [ChessAI.makeMove]: the move is replayed on a deep copy, by a call
    of [ChessEngine.makeMove], which draws one random number for the id
    of its record; the loops that call it count that draw. *)
Definition aiMakeMove (gs : GameState) (m : Move) : option GameState :=
  match makeMove (move_piece m) (move_to m) None gs with
  | (Some _, gs') => Some gs'
  | (None, _) => None
  end.

(** ** Alpha-beta search *)

Section Search.

Variable difficulty : Difficulty.

(** [Math.random()]: the value of the [n]-th draw, in [[0, 1)].  The
    draws are counted over the whole program: those of the evaluation,
    of the substitution and of the pick of [getRandomMove], and those
    the engine takes for the id of every move record it builds. *)
Variable random : nat -> Q.

(** The static evaluation of [ChessAI.evaluatePosition].  It is
    float-valued and draws random numbers (the [isOpenFile] and
    [isEndgame] placeholders), so it is a parameter of the search: given
    the index of the next draw, a position and the searching colour, it
    yields a score and the index of the draw after its own. *)
Variable evaluatePosition : nat -> GameState -> PieceColor -> Z * nat.

Definition maxDepth : nat := getMaxDepth difficulty.

Record LoopState := mkLoopState {
  ls_alpha : Num;
  ls_beta : Num;
  ls_bestMove : option Move;
  ls_bestEvaluation : Num;
  ls_principalVariation : list Move;
  ls_draw : nat
}.

(** One iteration's bookkeeping after the recursive call returned
    [result] for [move]. *)
Definition absorb (maximizingPlayer : bool) (move : Move) (result : AIMove)
           (n : nat) (st : LoopState) : LoopState :=
  let e := ai_evaluation result in
  let better :=
    if maximizingPlayer then Num_ltb (ls_bestEvaluation st) e
    else Num_ltb e (ls_bestEvaluation st) in
  mkLoopState
    (if maximizingPlayer then Num_max (ls_alpha st) e else ls_alpha st)
    (if maximizingPlayer then ls_beta st else Num_min (ls_beta st) e)
    (if better then Some move else ls_bestMove st)
    (if better then e else ls_bestEvaluation st)
    (if better then move :: ai_principalVariation result
     else ls_principalVariation st)
    n.

(** The [for] loop over the sorted moves; [recurse] is the recursive
    call one ply deeper, which starts one draw after the replay of the
    move.  [None] is an exception out of the loop. *)
Fixpoint searchLoop (recurse : nat -> GameState -> Num -> Num -> option (AIMove * nat))
         (gs : GameState) (maximizingPlayer : bool)
         (sortedMoves : list Move) (st : LoopState) : option LoopState :=
  match sortedMoves with
  | [] => Some st
  | move :: rest =>
      match aiMakeMove gs move with
      | None => None
      | Some newGameState =>
          match recurse (S (ls_draw st)) newGameState (ls_alpha st) (ls_beta st) with
          | None => None
          | Some (result, n) =>
              let st' := absorb maximizingPlayer move result n st in
              if Num_leb (ls_beta st') (ls_alpha st') then Some st'
              else searchLoop recurse gs maximizingPlayer rest st'
          end
      end
  end.

Definition below (r : Q) (bound : Q) : bool := negb (Qle_bool bound r).

(** [sortedMoves[Math.floor(r * Math.min(k, sortedMoves.length))]] *)
Definition pickAmong (k : Z) (sortedMoves : list Move) (r : Q) : option Move :=
  nth_error sortedMoves
    (Z.to_nat (Qfloor (r * inject_Z (Z.min k (Z.of_nat (List.length sortedMoves)))))).

(** The difficulty-based substitution after the loop: the chosen move
    and the index of the next draw. *)
Definition substitute (sortedMoves : list Move) (bestMove : option Move) (n : nat)
  : option Move * nat :=
  match difficulty with
  | easy =>
      if below (random n) (3 # 10)
      then (pickAmong 3 sortedMoves (random (S n)), S (S n))
      else (bestMove, S n)
  | medium =>
      if below (random n) (15 # 100)
      then (pickAmong 2 sortedMoves (random (S n)), S (S n))
      else (bestMove, S n)
  | _ => (bestMove, n)
  end.

Definition staticResult (depth : nat) (n : nat) (gs : GameState) (aiColor : PieceColor)
  : AIMove * nat :=
  let (evaluation, n') := evaluatePosition n gs aiColor in
  (mkAIMove None (Fin evaluation) (Z.of_nat maxDepth - Z.of_nat depth) [], n').

(** [minimax]: the result (or [None] for an exception) and the state
    the caller's object is left in. *)
Fixpoint minimax (depth : nat) (n : nat) (gs : GameState) (alpha beta : Num)
         (maximizingPlayer : bool) (aiColor : PieceColor)
  : option (AIMove * nat) * GameState :=
  match depth with
  | O => (Some (staticResult depth n gs aiColor), gs)
  | S d =>
      if negb (GameStatus_eqb (status gs) active)
      then (Some (staticResult depth n gs aiColor), gs)
      else
        let currentColor := currentPlayer gs in
        match getAllPossibleMovesDrawing gs currentColor with
        | (None, gs1) => (None, gs1)
        | (Some ([], k), gs1) =>
            let evaluation :=
              if isInCheck gs1 currentColor then thousandths (-10000) else 0 in
            (Some (mkAIMove None
                     (Fin (if maximizingPlayer then evaluation else - evaluation))
                     (Z.of_nat maxDepth - Z.of_nat depth) [], (n + k)%nat), gs1)
        | (Some (allPossibleMoves, k), gs1) =>
            let sortedMoves := sortMoves allPossibleMoves in
            match searchLoop
                    (fun n' g a b =>
                       fst (minimax d n' g a b (negb maximizingPlayer) aiColor))
                    gs1 maximizingPlayer sortedMoves
                    (mkLoopState alpha beta None
                       (if maximizingPlayer then NegInf else PosInf) [] (n + k)%nat)
            with
            | None => (None, gs1)
            | Some st =>
                let (bestMove, n') := substitute sortedMoves (ls_bestMove st) (ls_draw st) in
                (Some (mkAIMove bestMove (ls_bestEvaluation st)
                         (Z.of_nat maxDepth - Z.of_nat depth)
                         (ls_principalVariation st), n'), gs1)
            end
        end
  end.

(** [getRandomMove]; [None] is the thrown "No valid moves available".
    [n] is the index of the draw that picks the move, the one after the
    draws of the candidate generation. *)
Definition getRandomMove (gs : GameState) (color : PieceColor) (n : nat)
  : option Move * GameState :=
  match getAllPossibleMoves gs color with
  | (Some allMoves, gs1) =>
      (nth_error allMoves
         (Z.to_nat (Qfloor (random n * inject_Z (Z.of_nat (List.length allMoves))))),
       gs1)
  | (None, gs1) => (None, gs1)
  end.

(** [getBestMove]; the first draw is the thinking time's. *)
Definition getBestMove (gs : GameState) (aiColor : PieceColor)
  : option AIMove * GameState :=
  match minimax maxDepth 1 gs NegInf PosInf true aiColor with
  | (None, gs1) => (None, gs1)
  | (Some (result, n), gs1) =>
      match ai_move result with
      | Some _ => (Some result, gs1)
      | None =>
          match getRandomMove gs1 aiColor (n + idDraws gs1 aiColor) with
          | (Some randomMove, gs2) =>
              (Some (mkAIMove (Some randomMove) (Fin 0) 0 [randomMove]), gs2)
          | (None, gs2) => (None, gs2)
          end
      end
  end.

(** Plain minimax as the specification words it: the same tree, the
    same ordering and leaves, the same calls of the engine, no window
    and no cut-off. *)
Fixpoint plainLoop (recurse : nat -> GameState -> option (Num * nat))
         (gs : GameState) (maximizingPlayer : bool)
         (sortedMoves : list Move) (best : Num) (n : nat) : option (Num * nat) :=
  match sortedMoves with
  | [] => Some (best, n)
  | move :: rest =>
      match aiMakeMove gs move with
      | None => None
      | Some newGameState =>
          match recurse (S n) newGameState with
          | None => None
          | Some (e, n') =>
              plainLoop recurse gs maximizingPlayer rest
                (if maximizingPlayer then Num_max best e else Num_min best e) n'
          end
      end
  end.

Fixpoint plainMinimax (depth : nat) (n : nat) (gs : GameState)
         (maximizingPlayer : bool) (aiColor : PieceColor) : option (Num * nat) :=
  match depth with
  | O => let (e, n') := evaluatePosition n gs aiColor in Some (Fin e, n')
  | S d =>
      if negb (GameStatus_eqb (status gs) active)
      then let (e, n') := evaluatePosition n gs aiColor in Some (Fin e, n')
      else
        let currentColor := currentPlayer gs in
        match getAllPossibleMovesDrawing gs currentColor with
        | (None, _) => None
        | (Some ([], k), gs1) =>
            let evaluation :=
              if isInCheck gs1 currentColor then thousandths (-10000) else 0 in
            Some (Fin (if maximizingPlayer then evaluation else - evaluation),
                  (n + k)%nat)
        | (Some (allPossibleMoves, k), gs1) =>
            plainLoop
              (fun n' g => plainMinimax d n' g (negb maximizingPlayer) aiColor)
              gs1 maximizingPlayer (sortMoves allPossibleMoves)
              (if maximizingPlayer then NegInf else PosInf) (n + k)%nat
        end
  end.

End Search.

(** ** Well-formed states *)

(** Eight rows of eight squares, as [INITIAL_BOARD_STATE] builds them. *)
Definition wellFormed (b : Board) : Prop :=
  List.length b = 8%nat /\ Forall (fun line => List.length line = 8%nat) b.

(** The piece object is the one standing on the square its [position]
    names. *)
Definition onBoard (gs : GameState) (p : Piece) : Prop :=
  isValidPosition (piece_position p) = true
  /\ boardGet (board gs) (row (piece_position p)) (col (piece_position p)) = Some p.

(** The verdict of [wouldExposeKing] when it returns. *)
Definition exposes (gs : GameState) (p : Piece) (to : Position) : bool :=
  match fst (wouldExposeKing p to gs) with
  | Some b => b
  | None => false
  end.

(** The destinations of a list of valid moves. *)
Definition destinations (l : list ValidMove) : list Position := map vm_to l.

(** Every destination of the list is on the board. *)
Definition allValid (l : list ValidMove) : Prop :=
  forall m, In m l -> isValidPosition (vm_to m) = true.

(** The legal moves, as a pure function of a state that the filter
    provably leaves alone. *)
Definition legalMoves (gs : GameState) (p : Piece) : list ValidMove :=
  filter (fun m => negb (exposes gs p (vm_to m))) (pseudoLegalMoves gs p).

(** ** Sample games and positions *)

(** 1.e4 f5 2.Qh5+ : Black is in check and can interpose on g6. *)
Definition checkGame : list (Position * Position) :=
  [(square fe 2, square fe 4); (square ff 7, square ff 5);
   (square fd 1, square fh 5)].

(** A game after whose last move, the pawn's advance b2-b4, Black's
    single legal move is the en-passant capture a4xb3. *)
Definition enPassantOnlyGame : list (Position * Position) :=
  [(square fe 2, square fe 3); (square fa 7, square fa 6);
   (square fd 1, square fh 5); (square fa 6, square fa 5);
   (square fh 5, square fe 5); (square fa 8, square fa 6);
   (square fe 5, square fc 7); (square fh 7, square fh 5);
   (square fh 2, square fh 4); (square fa 6, square fh 6);
   (square fa 2, square fa 3); (square ff 7, square ff 6);
   (square fc 7, square fd 7); (square fe 8, square ff 7);
   (square fd 7, square fb 7); (square fd 8, square fd 3);
   (square fb 7, square fb 8); (square fd 3, square fh 7);
   (square fb 8, square fc 8); (square ff 7, square fg 6);
   (square fc 8, square fe 6); (square fa 5, square fa 4);
   (square fb 2, square fb 4)].

(** 1.c4 d6 2.Nc3 Bf5 3.d4 Nf6 4.Bf4 e6 5.Qd2 Be7 : White may castle
    long by the rules of chess; the bishop on f5 looks at b1. *)
Definition queensideGame : list (Position * Position) :=
  [(square fc 2, square fc 4); (square fd 7, square fd 6);
   (square fb 1, square fc 3); (square fc 8, square ff 5);
   (square fd 2, square fd 4); (square fg 8, square ff 6);
   (square fc 1, square ff 4); (square fe 7, square fe 6);
   (square fd 1, square fd 2); (square ff 8, square fe 7)].

(** 1.e4 e6 2.e5 Qe7 3.Nc3 a6 4.Nd5 exd5 5.a3 f5 : the pawn on e5 is
    pinned on the e-file when the f-pawn passes it. *)
Definition pinnedPawnGame : list (Position * Position) :=
  [(square fe 2, square fe 4); (square fe 7, square fe 6);
   (square fe 4, square fe 5); (square fd 8, square fe 7);
   (square fb 1, square fc 3); (square fa 7, square fa 6);
   (square fc 3, square fd 5); (square fe 6, square fd 5);
   (square fa 2, square fa 3); (square ff 7, square ff 5)].

(** 1.e4 a6 2.e5 d5 3.exd6 : an en-passant capture. *)
Definition enPassantGame : list (Position * Position) :=
  [(square fe 2, square fe 4); (square fa 7, square fa 6);
   (square fe 4, square fe 5); (square fd 7, square fd 5);
   (square fe 5, square fd 6)].

(** 1.a3 d5 2.a4 d4 3.a5 Kd7 4.a6 Kd6 5.h3 Kd5 6.e4+ : the pawn that has
    just passed the pawn on d4 gives check. *)
Definition checkingPawnGame : list (Position * Position) :=
  [(square fa 2, square fa 3); (square fd 7, square fd 5);
   (square fa 3, square fa 4); (square fd 5, square fd 4);
   (square fa 4, square fa 5); (square fe 8, square fd 7);
   (square fa 5, square fa 6); (square fd 7, square fd 6);
   (square fh 2, square fh 3); (square fd 6, square fd 5);
   (square fe 2, square fe 4)].

(** The position a finished [play] leaves, the initial one otherwise. *)
Definition positionAfter (plies : list (Position * Position)) : GameState :=
  match play initialGameState plies with
  | Some gs => gs
  | None => initialGameState
  end.

(** The object on a square, for naming pieces of a position. *)
Definition pieceOn (gs : GameState) (sq : Position) : Piece :=
  match getPieceAt gs sq with
  | Some p => p
  | None => mkPiece "" pawn white sq false
  end.

(** The knight's object as it was on b1, before it moved. *)
Definition staleKnight : Piece :=
  mkPiece "white-knight-1" knight white (square fb 1) false.

(** ** Exception-freedom of a search tree *)

(** Every move the search would replay down to [depth] can be replayed:
    no call in the tree throws. *)
Fixpoint searchable (depth : nat) (gs : GameState) : bool :=
  match depth with
  | O => true
  | S d =>
      if negb (GameStatus_eqb (status gs) active) then true
      else
        match getAllPossibleMoves gs (currentPlayer gs) with
        | (None, _) => false
        | (Some allPossibleMoves, gs1) =>
            forallb
              (fun m =>
                 match aiMakeMove gs1 m with
                 | Some g => searchable d g
                 | None => false
                 end)
              (sortMoves allPossibleMoves)
        end
  end.

(** [validateMove] on the move record's piece and destination answers
    "Illegal move for this piece". *)
Definition rejectedAsIllegal (gs : GameState) (m : Move) : bool :=
  match fst (validateMove (move_piece m) (move_to m) gs) with
  | Some v =>
      negb (mv_isValid v)
      && match mv_reason v with
         | Some r => String.eqb r reasonIllegalMove
         | None => false
         end
  | None => false
  end.

(** The first move of the search's ordering at the root, checked against
    the state the candidate generation leaves behind. *)
Definition firstCandidateCheck (gs : GameState) (from to : Position) : bool :=
  match getAllPossibleMoves gs (currentPlayer gs) with
  | (Some l, gs1) =>
      match nth_error (sortMoves l) 0 with
      | Some m =>
          Position_eqb (move_from m) from && Position_eqb (move_to m) to
          && rejectedAsIllegal gs1 m
      | None => false
      end
  | (None, _) => false
  end.

(** ** The static evaluation of the search

    [ChessAI.evaluatePosition] with its random draws.  Every term of the
    weighted sum is a multiple of 0.001, so scores are kept in
    thousandths and stay integers; the rounding of the floating-point
    sum is not modelled.  The mobility term asks the engine for the
    valid moves of the pieces on the board, which on a well-formed
    position neither throws nor changes it. *)

Section Evaluation.

Variable random : nat -> Q.

(** [Math.random() > bound] *)
Definition above (r : Q) (bound : Q) : bool := negb (Qle_bool r bound).

(** [Math.abs(3.5 - row) + Math.abs(3.5 - col)], an integer. *)
Definition centerDistance (r c : Z) : Z :=
  (Z.abs (7 - 2 * r) + Z.abs (7 - 2 * c)) / 2.

(** [getPiecePositionValue], times ten, and the index of the next draw. *)
Definition getPiecePositionValue (n : nat) (piece : Piece) (r c : Z) : Z * nat :=
  match piece_type piece with
  | pawn => ((match piece_color piece with white => 7 - r | black => r end) * 10, n)
  | knight | bishop => (40 - 5 * centerDistance r c, n)
  | rook => ((if above (random n) (1 # 2) then 20 else 0), S n)
  | queen => (20 - 3 * centerDistance r c, n)
  | king =>
      ((if above (random n) (7 # 10)
        then 20 - 5 * centerDistance r c
        else 5 * centerDistance r c), S n)
  end.

Definition kingZone : list (Z * Z) :=
  flat_map (fun dr => map (fun dc => (dr, dc)) [-2; -1; 0; 1; 2]) [-2; -1; 0; 1; 2].

(** [evaluateKingSafety], times four. *)
Definition evaluateKingSafety (gs : GameState) (k : Piece) (color : PieceColor) : Z :=
  fold_left
    (fun safety d =>
       let checkPos := offsetBy (piece_position k) d in
       if isValidPosition checkPos then
         let distance := Z.abs (fst d) + Z.abs (snd d) in
         let weight2 := if distance =? 1 then 6 else if distance =? 2 then 2 else 1 in
         let s1 := if isInCheck gs color then safety - 20 else safety in
         match boardGet (board gs) (row checkPos) (col checkPos) with
         | Some p => if PieceColor_eqb (piece_color p) color then s1 else s1 - weight2
         | None => s1 - weight2
         end
       else safety)
    kingZone 0.

Definition sign (c aiColor : PieceColor) : Z :=
  if PieceColor_eqb c aiColor then 1 else -1.

Definition mobilityOf (gs : GameState) (p : Piece) : Z :=
  match getValidMoves p gs with
  | (Some l, _) => Z.of_nat (List.length l)
  | (None, _) => 0
  end.

(** The three sums of the scan over the board (material, position
    times a hundred, mobility times ten) and the next draw. *)
Definition scanFactors (gs : GameState) (aiColor : PieceColor) (n : nat)
  : Z * Z * Z * nat :=
  fold_left
    (fun acc sq =>
       let '(material, position, mobility, k) := acc in
       match boardGet (board gs) (row sq) (col sq) with
       | Some p =>
           let m := sign (piece_color p) aiColor in
           let (pv, k') := getPiecePositionValue k p (row sq) (col sq) in
           (material + PIECE_VALUES (piece_type p) * m,
            position + pv * m,
            mobility + mobilityOf gs p * m,
            k')
       | None => acc
       end)
    allSquares (0, 0, 0, n).

Definition centerSquares : list Position :=
  [mkPosition 3 3; mkPosition 3 4; mkPosition 4 3; mkPosition 4 4].

(** [evaluatePosition], times a thousand. *)
Definition evaluatePositionDrawn (n : nat) (gs : GameState) (aiColor : PieceColor)
  : Z * nat :=
  let '(material, position, mobility, n') := scanFactors gs aiColor n in
  let own :=
    match findKing gs aiColor with
    | Some k => evaluateKingSafety gs k aiColor
    | None => 0
    end in
  let other :=
    match findKing gs (opposite aiColor) with
    | Some k => evaluateKingSafety gs k (opposite aiColor)
    | None => 0
    end in
  let control :=
    fold_left
      (fun acc sq =>
         match boardGet (board gs) (row sq) (col sq) with
         | Some p => acc + sign (piece_color p) aiColor
         | None => acc
         end)
      centerSquares 0 in
  (material * 1000 + position * 3 + mobility * 20 + (own - other) * 1000 + control * 50,
   n').

End Evaluation.


(** ** Comparing the pruned search with plain minimax *)

(** What a search with window [(alpha, beta)] owes the true value [v]:
    the value itself inside the window, a bound on the same side
    outside it. *)
Definition agrees (alpha beta v r : Num) : Prop :=
  (Num_ltb alpha v = true -> Num_ltb v beta = true -> r = v)
  /\ (Num_leb v alpha = true -> Num_leb r alpha = true)
  /\ (Num_leb beta v = true -> Num_leb beta r = true).

(** An order embedding of the scores below a bound into [Z]. *)
Definition emb (M : Z) (x : Num) : Z :=
  match x with NegInf => - M | Fin z => z | PosInf => M end.

Definition magnitude (x : Num) : Z :=
  match x with Fin z => Z.abs z | _ => 0 end.

(** The recursive calls of the two searches correspond on the children
    of a node. *)
Definition childrenAgree
           (recurse : nat -> GameState -> Num -> Num -> option (AIMove * nat))
           (precurse : nat -> GameState -> option (Num * nat))
           (gs : GameState) (sorted : list Move) : Prop :=
  forall m g, In m sorted -> aiMakeMove gs m = Some g ->
  forall k pv pk, precurse k g = Some (pv, pk) ->
  forall n a b, Num_ltb a b = true ->
  exists r n', recurse n g a b = Some (r, n') /\ agrees a b pv (ai_evaluation r).

(** A static evaluation that draws no random number. *)
Definition fixedEvaluation (staticEval : GameState -> PieceColor -> Z)
  : nat -> GameState -> PieceColor -> Z * nat :=
  fun n gs c => (staticEval gs c, n).


(** A king and a pawn each; the black pawn stands unpromoted on its
    last rank, where [makeMove] leaves it when no promotion piece is
    passed. *)
Definition endgameBoard : Board :=
  [emptyRow; emptyRow; emptyRow;
   [None; None; None; Some (mkPiece "white-pawn-3" pawn white (mkPosition 3 3) true);
    None; None; None; None];
   emptyRow; emptyRow; emptyRow;
   [Some (mkPiece "black-king-4" king black (mkPosition 7 0) true);
    Some (mkPiece "black-pawn-1" pawn black (mkPosition 7 1) true);
    None; None; None; None; None;
    Some (mkPiece "white-king-4" king white (mkPosition 7 7) true)]].

Definition endgameState : GameState :=
  mkGameState endgameBoard white active [] [] [].

(** Draws 0.9, 0.9, 0.1, 0.1, repeating. *)
Definition alternatingDraws : nat -> Q :=
  fun n => if Nat.ltb (Nat.modulo n 4) 2 then 9 # 10 else 1 # 10.

(** The first fifty calls of [Math.random()] return 0.9, every later
    call 0.1. *)
Definition fiftyHighDraws : nat -> Q :=
  fun n => if Nat.ltb n 50 then 9 # 10 else 1 # 10.

(** The material balance from a colour's side, as a draw-free static
    evaluation. *)
Definition materialFor (gs : GameState) (c : PieceColor) : Z :=
  match c with
  | white => materialBalance gs
  | black => - materialBalance gs
  end.

(** The iterations a ray may still take from [cur] before it leaves the
    board. *)
Definition stepsLeft (dr dc : Z) (cur : Position) : Z :=
  if dr =? 1 then 8 - row cur
  else if dr =? -1 then row cur + 1
  else if dc =? 1 then 8 - col cur
  else col cur + 1.

(** ** Sound states *)

(** Every piece on the board names the square it stands on. *)
Definition consistent (b : Board) : Prop :=
  forall r c q, 0 <= r < 8 -> 0 <= c < 8 ->
    boardGet b r c = Some q -> piece_position q = mkPosition r c.

(** A state the engine keeps producing: a well-formed board whose
    pieces stand where they say. *)
Definition sound (gs : GameState) : Prop :=
  wellFormed (board gs) /\ consistent (board gs).

(** The same test, computed. *)
Definition consistentb (b : Board) : bool :=
  forallb
    (fun sq =>
       match boardGet b (row sq) (col sq) with
       | Some q => Position_eqb (piece_position q) sq
       | None => true
       end)
    allSquares.

(** [m] returns from [gs], and its result and final state satisfy [P]. *)
Definition runs {A} (m : Engine A) (gs : GameState) (P : A -> GameState -> Prop) : Prop :=
  exists a gs', m gs = (Some a, gs') /\ P a gs'.

(** What the special-move handlers keep of a move record. *)
Definition sameMove (m m' : Move) : Prop :=
  move_piece m' = move_piece m /\ move_from m' = move_from m /\ move_to m' = move_to m.

(** The leaves of perft are the legal plies of the positions one level
    up; they need not be played to be counted. *)
Fixpoint perftBulk (d : nat) (gs : GameState) : nat :=
  match d with
  | O => 1%nat
  | S k =>
      match k with
      | O => List.length (legalPlies gs)
      | S _ =>
          fold_left
            (fun acc pt =>
               match makeMove (fst pt) (snd pt) None gs with
               | (Some _, gs') => (acc + perftBulk k gs')%nat
               | (None, _) => acc
               end)
            (legalPlies gs) 0%nat
      end
  end.

(** A move record whose piece object and destination name squares of
    the board. *)
Definition replayable (m : Move) : Prop :=
  isValidPosition (piece_position (move_piece m)) = true
  /\ isValidPosition (move_to m) = true.


(** ** Squares from their algebraic names *)

(** [s[i]]: the one-character string at index [i]; [None] is
    [undefined], read past the end.  A character stands for one code
    unit of the JavaScript string. *)
Definition charAt (s : string) (i : nat) : option string :=
  match String.get i s with
  | Some c => Some (String c EmptyString)
  | None => None
  end.

Fixpoint indexOfFrom (l : list string) (x : string) (i : Z) : Z :=
  match l with
  | [] => -1
  | y :: t => if String.eqb y x then i else indexOfFrom t x (i + 1)
  end.

(** [arr.indexOf(x)]: the first index holding [x], [-1] when there is
    none; [undefined] is no element of an array of strings. *)
Definition indexOf (l : list string) (x : option string) : Z :=
  match x with
  | Some s => indexOfFrom l s 0
  | None => -1
  end.

Definition algebraicToPosition (algebraic : string) : Position :=
  let file := charAt algebraic 0 in
  let rank := charAt algebraic 1 in
  mkPosition (indexOf RANKS rank) (indexOf FILES file).

(** ** What a generated move says about its destination *)

(** The capture flag of a move agrees with the board: the destination
    is empty and the flag is off, or it holds a piece of the other
    colour and the flag is on. *)
Definition flagMatchesBoard (gs : GameState) (p : Piece) (m : ValidMove) : Prop :=
  match getPieceAt gs (vm_to m) with
  | Some t => piece_color t <> piece_color p /\ vm_isCapture m = true
  | None => vm_isCapture m = false
  end.

Definition castleTarget (s : Side) : Z :=
  match s with kingside => 6 | queenside => 2 end.

Definition castleRookCol (s : Side) : Z :=
  match s with kingside => 7 | queenside => 0 end.

(** 1.e4 e5 2.Nf3 Nc6 3.Bc4 Bc5 : White may castle short. *)
Definition castlingGame : list (Position * Position) :=
  [(square fe 2, square fe 4); (square fe 7, square fe 5);
   (square fg 1, square ff 3); (square fb 8, square fc 6);
   (square ff 1, square fc 4); (square ff 8, square fc 5)].

(** ** Move ordering *)

(** Scores do not increase along the list. *)
Definition descending (l : list Move) : Prop :=
  StronglySorted (fun a b => sortScore2 b <= sortScore2 a) l.

(** The moves of one score, in the order of the list. *)
Definition withScore (s : Z) (l : list Move) : list Move :=
  filter (fun m => sortScore2 m =? s) l.

(** ** The scan of the static evaluation, one square at a time *)

(** The body of the loop over the board in [calculateEvaluationFactors]. *)
Definition scanStep (random : nat -> Q) (gs : GameState) (aiColor : PieceColor)
           (acc : Z * Z * Z * nat) (sq : Position) : Z * Z * Z * nat :=
  let '(material, position, mobility, k) := acc in
  match boardGet (board gs) (row sq) (col sq) with
  | Some p =>
      let m := sign (piece_color p) aiColor in
      let (pv, k') := getPiecePositionValue random k p (row sq) (col sq) in
      (material + PIECE_VALUES (piece_type p) * m,
       position + pv * m,
       mobility + mobilityOf gs p * m,
       k')
  | None => acc
  end.

(** The centre-control sum of [calculateEvaluationFactors], doubled. *)
Definition controlStep (gs : GameState) (aiColor : PieceColor) (acc : Z) (sq : Position) : Z :=
  match boardGet (board gs) (row sq) (col sq) with
  | Some p => acc + sign (piece_color p) aiColor
  | None => acc
  end.

(** The step of the engine's own [evaluatePosition]. *)
Definition materialStep (gs : GameState) (acc : Z) (sq : Position) : Z :=
  match boardGet (board gs) (row sq) (col sq) with
  | Some p =>
      match piece_color p with
      | white => acc + PIECE_VALUES (piece_type p)
      | black => acc - PIECE_VALUES (piece_type p)
      end
  | None => acc
  end.

(** ** The move list of the history panel *)

Record MovePair := mkMovePair {
  pair_moveNumber : nat;
  pair_whiteMove : option Move;
  pair_blackMove : option Move
}.

(** The loop [for (i = 0; i < moves.length; i += 2)] of [MoveHistory];
    [fuel] bounds its iterations, and [moves.length] of them suffice. *)
Fixpoint movePairsFrom (fuel i : nat) (moves : list Move) : list MovePair :=
  match fuel with
  | O => []
  | S k =>
      if (i <? List.length moves)%nat then
        mkMovePair (i / 2 + 1) (nth_error moves i) (nth_error moves (i + 1))
        :: movePairsFrom k (i + 2) moves
      else []
  end.

Definition movePairs (moves : list Move) : list MovePair :=
  movePairsFrom (List.length moves) 0 moves.

(** The index a click on the white or the black move of a pair passes
    to [onMoveSelect]. *)
Definition whiteIndex (p : MovePair) : nat := ((pair_moveNumber p - 1) * 2)%nat.
Definition blackIndex (p : MovePair) : nat := ((pair_moveNumber p - 1) * 2 + 1)%nat.

(** ** The filter of the history page *)

Inductive GameResult := resultWin | resultLoss | resultDraw.
Inductive HistoryFilter := filterAll | filterWins | filterLosses | filterDraws.

(** The strings the page compares. *)
Definition resultName (r : GameResult) : string :=
  match r with
  | resultWin => "win" | resultLoss => "loss" | resultDraw => "draw"
  end%string.

Definition filterName (f : HistoryFilter) : string :=
  match f with
  | filterAll => "all" | filterWins => "wins"
  | filterLosses => "losses" | filterDraws => "draws"
  end%string.

(** A game of the history, with the fields the filter reads. *)
Record GameHistory := mkGameHistory {
  game_opponent : string;
  game_opening : option string;
  game_result : GameResult
}.

Section HistoryPage.

(** [a.toLowerCase().includes(b.toLowerCase())] *)
Variable includesLower : string -> string -> bool.

Definition matchesSearch (game : GameHistory) (searchQuery : string) : bool :=
  includesLower (game_opponent game) searchQuery
  || match game_opening game with
     | Some o => includesLower o searchQuery
     | None => false
     end.

Definition matchesFilter (game : GameHistory) (selectedFilter : HistoryFilter) : bool :=
  String.eqb (filterName selectedFilter) "all"
  || String.eqb (resultName (game_result game)) (filterName selectedFilter).

Definition filteredHistory (gameHistory : list GameHistory) (searchQuery : string)
           (selectedFilter : HistoryFilter) : list GameHistory :=
  filter (fun game => matchesSearch game searchQuery && matchesFilter game selectedFilter)
         gameHistory.

End HistoryPage.

(** ** The game page's drop handler *)

Definition isGameActive (gs : GameState) : bool :=
  GameStatus_eqb (status gs) active || GameStatus_eqb (status gs) check.

(** [handlePieceMove]: the move made, if any.  The handler reads the
    game state the engine was built on. *)
Definition handlePieceMove (playerColor : PieceColor) (piece : Piece) (to : Position)
  : Engine (option Move) :=
  fun gs =>
    let isPlayerTurn := PieceColor_eqb (currentPlayer gs) playerColor in
    if negb isPlayerTurn || negb (isGameActive gs) then (Some None, gs)
    else
      (validation <- validateMove piece to ;;
       if mv_isValid validation then
         move <- makeMove piece to None ;; ret (Some move)
       else ret None) gs.

(** ** The squares after a move

    What [makeMove] leaves on the board, written as a function of what
    stood there before; [makeMove_effect] proves that the writes of
    [makeMove] and [handleSpecialMoves] amount to this. *)

(** The squares of a board as a function, with one square replaced. *)
Definition upd (F : Z -> Z -> option Piece) (pos : Position) (v : option Piece)
  : Z -> Z -> option Piece :=
  fun r c => if (row pos =? r) && (col pos =? c) then v else F r c.

(** The test of [handleSpecialMoves] for castling. *)
Definition castlingShape (t : PieceType) (from to : Position) : bool :=
  PieceType_eqb t king && (Z.abs (col to - col from) =? 2).

(** The test of [handleSpecialMoves] for en passant. *)
Definition enPassantShape (t : PieceType) (captured : option Piece)
           (from to : Position) : bool :=
  PieceType_eqb t pawn && negb (isSome captured) && negb (col to =? col from).

Definition rookFromCol (from to : Position) : Z := if col from <? col to then 7 else 0.
Definition rookToCol (from to : Position) : Z := if col from <? col to then 5 else 3.

Definition afterCastling (F : Z -> Z -> option Piece) (t : PieceType)
           (from to : Position) : Z -> Z -> option Piece :=
  if castlingShape t from to then
    match F (row from) (rookFromCol from to) with
    | Some rk =>
        let rookTo := mkPosition (row from) (rookToCol from to) in
        upd (upd F (mkPosition (row from) (rookFromCol from to)) None)
            rookTo (Some (movedTo rk rookTo (piece_type rk)))
    | None => F
    end
  else F.

(** The pawn an en-passant capture takes off the board. *)
Definition enPassantVictim (F : Z -> Z -> option Piece) (t : PieceType)
           (captured : option Piece) (from to : Position) : option Piece :=
  if enPassantShape t captured from to then F (row from) (col to) else None.

Definition afterEnPassant (F : Z -> Z -> option Piece) (t : PieceType)
           (captured : option Piece) (from to : Position) : Z -> Z -> option Piece :=
  match enPassantVictim F t captured from to with
  | Some _ => upd F (mkPosition (row from) (col to)) None
  | None => F
  end.

Definition promotedType (piece : Piece) (promo : option PieceType) : PieceType :=
  match promo with Some t => t | None => piece_type piece end.

Definition afterWrites (gs : GameState) (piece : Piece) (to : Position)
           (promo : option PieceType) : Z -> Z -> option Piece :=
  upd (upd (boardGet (board gs)) (piece_position piece) None)
      to (Some (movedTo piece to (promotedType piece promo))).

Definition boardAfter (gs : GameState) (piece : Piece) (to : Position)
           (promo : option PieceType) : Z -> Z -> option Piece :=
  afterEnPassant
    (afterCastling (afterWrites gs piece to promo)
                   (piece_type piece) (piece_position piece) to)
    (piece_type piece) (getPieceAt gs to) (piece_position piece) to.

(** The pieces a move takes: the one on the destination, or the pawn
    passed. *)
Definition takenBy (gs : GameState) (piece : Piece) (to : Position)
           (promo : option PieceType) : option Piece :=
  match getPieceAt gs to with
  | Some cp => Some cp
  | None =>
      enPassantVictim
        (afterCastling (afterWrites gs piece to promo)
                       (piece_type piece) (piece_position piece) to)
        (piece_type piece) None (piece_position piece) to
  end.

(** The state with a piece added to the captured pieces, if any. *)
Definition withTaken (gs : GameState) (taken : option Piece) : GameState :=
  match taken with
  | Some cp => pushCaptured gs cp
  | None => gs
  end.

(** The fields a write to the board leaves alone. *)
Definition sameTurn (gs g : GameState) : Prop :=
  currentPlayer g = currentPlayer gs /\ status g = status gs /\ moves g = moves gs.

Definition sameCaptured (gs g : GameState) : Prop :=
  capturedWhite g = capturedWhite gs /\ capturedBlack g = capturedBlack gs.

(** The status after a move, as the flags of its record tell it. *)
Definition statusAfter (before : GameStatus) (m : Move) (after : GameStatus) : Prop :=
  if move_isCheck m
  then after = (if move_isCheckmate m then checkmate else check)
  else move_isCheckmate m = false /\ (after = stalemate \/ after = before).

(** What legality says about the shape of a move, as the board
    function needs it. *)
Definition shapely (gs : GameState) (p : Piece) (to : Position) : Prop :=
  to <> piece_position p
  /\ (castlingShape (piece_type p) (piece_position p) to = true ->
      col to = 2 \/ col to = 6)
  /\ (enPassantShape (piece_type p) (getPieceAt gs to) (piece_position p) to = true ->
      row to <> row (piece_position p)).

(** ** Invariants of play *)

(** Every piece of [F] has moved or stands as it did in [G]. *)
Definition keeps (G F : Z -> Z -> option Piece) : Prop :=
  forall r c q, F r c = Some q -> piece_hasMoved q = true \/ G r c = Some q.

(** A piece whose [hasMoved] flag is off is the piece the game started
    with on that square. *)
Definition unmovedAtHome (gs : GameState) : Prop :=
  forall sq q,
    getPieceAt gs sq = Some q -> piece_hasMoved q = false ->
    getPieceAt initialGameState sq = Some q.

(** ** Counting pieces *)

Definition occupied (F : Z -> Z -> option Piece) (sq : Position) : nat :=
  if isSome (F (row sq) (col sq)) then 1%nat else 0%nat.

(** The number of pieces on the 64 squares. *)
Definition countOn (F : Z -> Z -> option Piece) : nat :=
  list_sum (map (occupied F) allSquares).

Definition pieceCount (gs : GameState) : nat := countOn (boardGet (board gs)).

Definition capturedCount (gs : GameState) : nat :=
  (List.length (capturedWhite gs) + List.length (capturedBlack gs))%nat.

Definition one (o : option Piece) : nat := if isSome o then 1%nat else 0%nat.

(** The last move of the history describes the piece that stands on
    its destination. *)
Definition lastMoveStands (gs : GameState) : Prop :=
  forall lm,
    lastMove gs = Some lm ->
    getPieceAt gs (move_to lm)
    = Some (movedTo (move_piece lm) (move_to lm) (piece_type (move_piece lm))).

(** The column the rook lands on. *)
Definition castleRookTarget (s : Side) : Z :=
  match s with kingside => 5 | queenside => 3 end.

(** ** The legality filter and the move it lets through *)

(** Two boards hold pieces of the same colours on the same squares. *)
Definition sameColours (g1 g2 : GameState) : Prop :=
  forall sq,
    option_map piece_color (getPieceAt g1 sq) = option_map piece_color (getPieceAt g2 sq).

(** The kings of one colour on the board. *)
Definition kingCount (gs : GameState) (c : PieceColor) : nat :=
  List.length (filter (fun q => PieceType_eqb (piece_type q) king) (getAllPieces gs c)).

(** * Properties *)

(** ** Decidable equalities *)

Lemma PieceType_eqb_eq a b : PieceType_eqb a b = true <-> a = b.
Proof. destruct a, b; simpl; split; intro H; try reflexivity; discriminate H. Qed.

Lemma PieceColor_eqb_eq a b : PieceColor_eqb a b = true <-> a = b.
Proof. destruct a, b; simpl; split; intro H; try reflexivity; discriminate H. Qed.

Lemma Position_eqb_eq p q : Position_eqb p q = true <-> p = q.
Proof.
  destruct p as [r c], q as [r' c']; unfold Position_eqb; simpl.
  rewrite andb_true_iff, !Z.eqb_eq. split.
  - intros [-> ->]; reflexivity.
  - intros H; inversion H; auto.
Qed.

Lemma Position_eqb_refl p : Position_eqb p p = true.
Proof. apply Position_eqb_eq; reflexivity. Qed.

(** ** Arrays and boards *)

Lemma arraySetNat_length {A} (fill : A) l n v :
  (n < List.length l)%nat -> List.length (arraySetNat fill l n v) = List.length l.
Proof.
  revert n; induction l as [|x t IH]; intros [|n] H; simpl in *; try lia.
  rewrite IH; lia.
Qed.

Lemma arraySetNat_nth {A} (fill : A) l n v m :
  (n < List.length l)%nat ->
  nth_error (arraySetNat fill l n v) m =
  if Nat.eqb n m then Some v else nth_error l m.
Proof.
  revert n m; induction l as [|x t IH]; intros [|n] [|m] H; simpl in *;
    try lia; try reflexivity.
  apply IH; lia.
Qed.

Lemma arrayGet_Some {A} (l : list A) i x :
  arrayGet l i = Some x -> 0 <= i /\ (Z.to_nat i < List.length l)%nat.
Proof.
  unfold arrayGet. destruct (i <? 0) eqn:E; [discriminate|].
  intros H. apply Z.ltb_ge in E. split; [exact E|].
  apply nth_error_Some. rewrite H. discriminate.
Qed.

Lemma arrayGet_inside {A} (l : list A) i :
  0 <= i -> (Z.to_nat i < List.length l)%nat -> exists x, arrayGet l i = Some x.
Proof.
  intros Hi Hl. unfold arrayGet.
  destruct (i <? 0) eqn:E; [apply Z.ltb_lt in E; lia|].
  destruct (nth_error l (Z.to_nat i)) eqn:N; [eauto|].
  apply nth_error_None in N. lia.
Qed.

Lemma arrayGet_set {A} (fill : A) l i v j :
  0 <= i -> (Z.to_nat i < List.length l)%nat ->
  arrayGet (arraySet fill l i v) j = if i =? j then Some v else arrayGet l j.
Proof.
  intros Hi Hl. unfold arrayGet, arraySet.
  destruct (i <? 0) eqn:E; [apply Z.ltb_lt in E; lia|].
  destruct (j <? 0) eqn:F.
  - apply Z.ltb_lt in F. destruct (i =? j) eqn:G; [apply Z.eqb_eq in G; lia|reflexivity].
  - apply Z.ltb_ge in F. rewrite arraySetNat_nth by exact Hl.
    destruct (i =? j) eqn:G.
    + apply Z.eqb_eq in G; subst. rewrite Nat.eqb_refl. reflexivity.
    + apply Z.eqb_neq in G.
      destruct (Nat.eqb (Z.to_nat i) (Z.to_nat j)) eqn:K; [|reflexivity].
      apply Nat.eqb_eq in K. lia.
Qed.

Lemma arraySet_length {A} (fill : A) l i v :
  0 <= i -> (Z.to_nat i < List.length l)%nat ->
  List.length (arraySet fill l i v) = List.length l.
Proof.
  intros Hi Hl. unfold arraySet.
  destruct (i <? 0); [reflexivity|]. apply arraySetNat_length; exact Hl.
Qed.

Lemma isValidPosition_true p :
  isValidPosition p = true <-> 0 <= row p < 8 /\ 0 <= col p < 8.
Proof.
  unfold isValidPosition.
  rewrite !andb_true_iff, !Z.leb_le, !Z.ltb_lt. lia.
Qed.

Lemma wellFormed_row b r :
  wellFormed b -> 0 <= r < 8 ->
  exists line, arrayGet b r = Some line /\ List.length line = 8%nat.
Proof.
  intros [Hl Hr] Hrange.
  destruct (@arrayGet_inside _ b r) as [line Hline]; [lia|lia|].
  exists line; split; [exact Hline|].
  unfold arrayGet in Hline. destruct (r <? 0); [discriminate|].
  apply nth_error_In in Hline.
  rewrite Forall_forall in Hr. apply Hr; exact Hline.
Qed.

(** Writing a square of a well-formed board succeeds, keeps the shape
    and changes that square only. *)
Lemma boardSet_spec b r c v :
  wellFormed b -> 0 <= r < 8 -> 0 <= c < 8 ->
  exists b',
    boardSet b r c v = Some b' /\ wellFormed b' /\
    forall r' c',
      boardGet b' r' c' = if (r =? r') && (c =? c') then v else boardGet b r' c'.
Proof.
  intros Hwf Hr Hc.
  destruct (wellFormed_row Hwf Hr) as [line [Hline Hlen]].
  unfold boardSet. rewrite Hline. eexists; split; [reflexivity|].
  destruct Hwf as [Hl Hrows].
  split.
  - split.
    + rewrite arraySet_length; [exact Hl|lia|lia].
    + apply Forall_forall. intros l' Hin.
      apply In_nth_error in Hin. destruct Hin as [k Hk].
      assert (Hk' : arrayGet (arraySet [] b r (arraySet None line c v)) (Z.of_nat k)
                    = Some l').
      { unfold arrayGet. destruct (Z.of_nat k <? 0) eqn:E;
          [apply Z.ltb_lt in E; lia|]. rewrite Nat2Z.id. exact Hk. }
      rewrite arrayGet_set in Hk' by lia.
      destruct (r =? Z.of_nat k).
      * inversion Hk'; subst. rewrite arraySet_length; [exact Hlen|lia|lia].
      * unfold arrayGet in Hk'. destruct (Z.of_nat k <? 0); [discriminate|].
        apply nth_error_In in Hk'. rewrite Forall_forall in Hrows.
        apply Hrows; exact Hk'.
  - intros r' c'. unfold boardGet. rewrite arrayGet_set by lia.
    destruct (r =? r') eqn:E; simpl.
    + apply Z.eqb_eq in E; subst r'. rewrite Hline.
      rewrite arrayGet_set by lia.
      destruct (c =? c'); reflexivity.
    + reflexivity.
Qed.

(** Two well-formed boards with the same squares are the same board. *)
Lemma board_ext b b' :
  wellFormed b -> wellFormed b' ->
  (forall r c, 0 <= r < 8 -> 0 <= c < 8 -> boardGet b r c = boardGet b' r c) ->
  b = b'.
Proof.
  intros Hwf Hwf' Hget. apply nth_error_ext. intros n.
  destruct (Nat.lt_ge_cases n 8) as [Hn|Hn].
  - assert (Hr : 0 <= Z.of_nat n < 8) by lia.
    destruct (wellFormed_row Hwf Hr) as [l [Hl Hlen]].
    destruct (wellFormed_row Hwf' Hr) as [l' [Hl' Hlen']].
    assert (E : l = l').
    { apply nth_error_ext. intros m.
      destruct (Nat.lt_ge_cases m 8) as [Hm|Hm].
      - assert (Hc : 0 <= Z.of_nat m < 8) by lia.
        specialize (Hget _ _ Hr Hc). unfold boardGet in Hget.
        rewrite Hl, Hl' in Hget.
        destruct (@arrayGet_inside _ l (Z.of_nat m)) as [x Hx]; [lia|lia|].
        destruct (@arrayGet_inside _ l' (Z.of_nat m)) as [x' Hx']; [lia|lia|].
        rewrite Hx, Hx' in Hget. subst x'.
        unfold arrayGet in Hx, Hx'.
        destruct (Z.of_nat m <? 0); [discriminate|].
        rewrite Nat2Z.id in Hx, Hx'. congruence.
      - transitivity (@None (option Piece)).
        + apply nth_error_None; lia.
        + symmetry; apply nth_error_None; lia. }
    subst l'. unfold arrayGet in Hl, Hl'.
    destruct (Z.of_nat n <? 0); [discriminate|].
    rewrite Nat2Z.id in Hl, Hl'. congruence.
  - destruct Hwf as [Hlb _], Hwf' as [Hlb' _].
    transitivity (@None (list (option Piece))).
    + apply nth_error_None; lia.
    + symmetry; apply nth_error_None; lia.
Qed.

(** ** Generated destinations are on the board *)

Lemma allValid_nil : allValid [].
Proof. intros m []. Qed.

Lemma allValid_app l1 l2 : allValid l1 -> allValid l2 -> allValid (l1 ++ l2).
Proof.
  intros H1 H2 m Hin. apply in_app_or in Hin. destruct Hin; auto.
Qed.

Lemma allValid_cons m l :
  isValidPosition (vm_to m) = true -> allValid l -> allValid (m :: l).
Proof. intros H1 H2 x [<-|Hin]; auto. Qed.

Lemma allValid_flat_map {A} (f : A -> list ValidMove) l :
  (forall x, allValid (f x)) -> allValid (flat_map f l).
Proof.
  intros H m Hin. apply in_flat_map in Hin. destruct Hin as [x [_ Hx]].
  exact (H x m Hx).
Qed.

Ltac split_valid :=
  repeat match goal with
         | |- allValid (if ?c then _ else _) => destruct c eqn:?
         | |- allValid (match ?o with Some _ => _ | None => _ end) => destruct o eqn:?
         | |- allValid (_ ++ _) => apply allValid_app
         | |- allValid (_ :: _) => apply allValid_cons
         | |- allValid [] => apply allValid_nil
         end.

Lemma linearFrom_valid fuel gs p dr dc cur : allValid (linearFrom fuel gs p dr dc cur).
Proof.
  revert cur; induction fuel as [|k IH]; intros cur; simpl; [apply allValid_nil|].
  destruct (isValidPosition cur) eqn:V; [|apply allValid_nil].
  split_valid; simpl; auto.
Qed.

Lemma stepMove_valid gs p t : allValid (stepMove gs p t).
Proof. unfold stepMove. destruct (isValidPosition t) eqn:V; split_valid; simpl; auto. Qed.

Lemma kingStep_valid gs p t : allValid (kingStep gs p t).
Proof. unfold kingStep. destruct (isValidPosition t) eqn:V; split_valid; simpl; auto. Qed.

Lemma castleMove_valid gs k s : allValid (castleMove gs k s).
Proof.
  unfold castleMove.
  destruct (getPieceAt gs _) eqn:G; [|apply allValid_nil].
  unfold getPieceAt in G.
  destruct (isValidPosition {| row := row (piece_position k);
                               col := match s with kingside => 7 | queenside => 0 end |})
           eqn:V; [|discriminate].
  apply isValidPosition_true in V; simpl in V.
  split_valid; simpl.
  apply isValidPosition_true; simpl. destruct s; lia.
Qed.

Lemma getPawnMoves_valid gs p : allValid (getPawnMoves gs p).
Proof.
  unfold getPawnMoves. apply allValid_app.
  - unfold pawnForward.
    destruct (isValidPosition _ && _) eqn:E; [|apply allValid_nil].
    apply andb_true_iff in E. destruct E as [E _].
    apply allValid_cons; [exact E|].
    destruct (_ && _ && _) eqn:F; [|apply allValid_nil].
    apply andb_true_iff in F. destruct F as [F _].
    apply andb_true_iff in F. destruct F as [_ F].
    apply allValid_cons; [exact F|apply allValid_nil].
  - apply allValid_flat_map. intros d. unfold pawnDiagonal.
    destruct (isValidPosition _) eqn:V; split_valid; simpl; auto.
Qed.

Lemma pseudoLegalMoves_valid gs p : allValid (pseudoLegalMoves gs p).
Proof.
  unfold pseudoLegalMoves, getQueenMoves, getRookMoves, getBishopMoves,
    getKnightMoves, getKingMoves, getLinearMoves.
  destruct (piece_type p).
  - apply getPawnMoves_valid.
  - apply allValid_flat_map; intros; apply linearFrom_valid.
  - apply allValid_flat_map; intros; apply stepMove_valid.
  - apply allValid_flat_map; intros; apply linearFrom_valid.
  - apply allValid_app; apply allValid_flat_map; intros; apply linearFrom_valid.
  - apply allValid_app.
    + apply allValid_flat_map; intros; apply kingStep_valid.
    + destruct (_ && _); [|apply allValid_nil].
      apply allValid_app; apply castleMove_valid.
Qed.

(** ** The legality filter restores the board *)

Lemma withBoard_same gs : withBoard gs (board gs) = gs.
Proof. destruct gs; reflexivity. Qed.

Lemma withBoard_twice gs b b' : withBoard (withBoard gs b) b' = withBoard gs b'.
Proof. reflexivity. Qed.

Lemma writeSquare_spec gs pos v :
  wellFormed (board gs) -> isValidPosition pos = true ->
  exists b',
    writeSquare pos v gs = (Some tt, withBoard gs b') /\ wellFormed b' /\
    forall r c,
      boardGet b' r c =
      if (row pos =? r) && (col pos =? c) then v else boardGet (board gs) r c.
Proof.
  intros Hwf Hv. apply isValidPosition_true in Hv. destruct Hv as [Hr Hc].
  destruct (boardSet_spec v Hwf Hr Hc) as [b' [Hset [Hwf' Hget]]].
  exists b'. unfold writeSquare. rewrite Hset. auto.
Qed.

(** On a well-formed board, for a piece standing on its square and a
    destination on the board, [wouldExposeKing] returns and leaves the
    state as it found it. *)
Lemma wouldExposeKing_pure gs p to :
  wellFormed (board gs) -> onBoard gs p -> isValidPosition to = true ->
  wouldExposeKing p to gs = (Some (exposes gs p to), gs).
Proof.
  intros Hwf [Hpv Hp] Hto.
  assert (H : exists b, wouldExposeKing p to gs = (Some b, gs)).
  { unfold wouldExposeKing, bind, reads.
    destruct (findKing gs (piece_color p)) as [kg|]; [|eexists; reflexivity].
    destruct (@writeSquare_spec gs (piece_position p) None Hwf Hpv) as [b1 [E1 [W1 G1]]].
    rewrite E1.
    destruct (@writeSquare_spec (withBoard gs b1) to (Some p) W1 Hto) as [b2 [E2 [W2 G2]]].
    rewrite E2. rewrite withBoard_twice.
    destruct (@writeSquare_spec (withBoard gs b2) (piece_position p) (Some p) W2 Hpv)
      as [b3 [E3 [W3 G3]]].
    rewrite E3. rewrite withBoard_twice.
    destruct (@writeSquare_spec (withBoard gs b3) to (getPieceAt gs to) W3 Hto)
      as [b4 [E4 [W4 G4]]].
    rewrite E4. rewrite withBoard_twice. unfold ret.
    eexists. f_equal.
    replace b4 with (board gs); [apply withBoard_same|].
    apply board_ext; [exact Hwf|exact W4|].
    intros r c Hr Hc. rewrite G4. simpl.
    destruct ((row to =? r) && (col to =? c)) eqn:Eto.
    - apply andb_true_iff in Eto. destruct Eto as [Er Ec].
      apply Z.eqb_eq in Er, Ec. subst r c.
      unfold getPieceAt. rewrite Hto. destruct to; reflexivity.
    - rewrite G3. simpl.
      destruct ((row (piece_position p) =? r) && (col (piece_position p) =? c)) eqn:Ep.
      + apply andb_true_iff in Ep. destruct Ep as [Er Ec].
        apply Z.eqb_eq in Er, Ec. subst r c. exact Hp.
      + rewrite G2. simpl. rewrite Eto. rewrite G1. rewrite Ep. reflexivity. }
  destruct H as [b Hb]. unfold exposes. rewrite Hb. reflexivity.
Qed.

Lemma filterM_pure {A} (f : A -> Engine bool) (g : A -> bool) l gs :
  (forall x, In x l -> f x gs = (Some (g x), gs)) ->
  filterM f l gs = (Some (filter g l), gs).
Proof.
  induction l as [|x t IH]; intros H; simpl; [reflexivity|].
  unfold bind. rewrite (H x (or_introl eq_refl)).
  rewrite IH by (intros y Hy; apply H; right; exact Hy).
  unfold ret. destruct (g x); reflexivity.
Qed.

Lemma getValidMoves_pure gs p :
  wellFormed (board gs) -> onBoard gs p ->
  getValidMoves p gs = (Some (legalMoves gs p), gs).
Proof.
  intros Hwf Hp. unfold getValidMoves, bind, reads.
  apply filterM_pure. intros m Hin.
  unfold wouldNotExposeKing, bind.
  rewrite wouldExposeKing_pure; auto.
  apply pseudoLegalMoves_valid in Hin. exact Hin.
Qed.

(** ** Frame property of [getValidMoves] *)

(** C8 (as amended).  On a well-formed state, for a piece that stands on
    the square its [position] names, [getValidMoves] returns the
    pseudo-legal destinations that do not expose the king and leaves the
    whole game state (board, status, current player, history, captured
    pieces) exactly as it was. *)
Theorem getValidMoves_frame gs p :
  wellFormed (board gs) -> onBoard gs p ->
  getValidMoves p gs = (Some (legalMoves gs p), gs).
Proof. apply getValidMoves_pure. Qed.

(** ** Validation and execution of an illegal request *)

Lemma findFirst_none {A} (f : A -> bool) l :
  (forall x, In x l -> f x = false) -> findFirst f l = None.
Proof.
  induction l as [|x t IH]; intros H; simpl; [reflexivity|].
  rewrite (H x (or_introl eq_refl)). apply IH. intros y Hy. apply H. right; exact Hy.
Qed.

(** The one rejection of a destination outside the legal set that the
    engine has is [validateMove]'s: on a well-formed state, for a piece
    on its square and a destination on the board that is not among the
    moves [getValidMoves] returns, [validateMove] answers "Illegal move
    for this piece" and the state is unchanged. *)
Lemma validateMove_rejects_illegal gs p to l gs' :
  wellFormed (board gs) -> onBoard gs p -> isValidPosition to = true ->
  getValidMoves p gs = (Some l, gs') ->
  ~ In to (destinations l) ->
  validateMove p to gs
  = (Some (mkMoveValidation false (Some reasonIllegalMove) None), gs).
Proof.
  intros Hwf Hp Hto Hget Hnot.
  rewrite (getValidMoves_pure Hwf Hp) in Hget. inversion Hget; subst l gs'.
  unfold validateMove. rewrite Hto. simpl. unfold bind.
  rewrite (getValidMoves_pure Hwf Hp).
  rewrite findFirst_none; [reflexivity|].
  intros m Hm. destruct (Position_eqb (vm_to m) to) eqn:E; [|reflexivity].
  apply Position_eqb_eq in E. exfalso. apply Hnot.
  unfold destinations. rewrite <- E. apply in_map. exact Hm.
Qed.

(** ** En passant *)

Lemma pawnForward_not_enPassant gs p m :
  In m (pawnForward gs p) -> vm_isEnPassant m = false.
Proof.
  unfold pawnForward. destruct (_ && _); [|intros []].
  intros [<-|Hin]; [reflexivity|].
  destruct (_ && _ && _); [|destruct Hin].
  destruct Hin as [<-|[]]. reflexivity.
Qed.

Lemma pawnDiagonal_enPassant gs p d m :
  In m (pawnDiagonal gs p d) -> vm_isEnPassant m = true ->
  let target := mkPosition (row (piece_position p) + direction (piece_color p))
                           (col (piece_position p) + d) in
  m = mkValidMove target true true false None
  /\ isValidPosition target = true /\ canEnPassant gs p target = true.
Proof.
  intros Hin Hflag target. unfold pawnDiagonal in Hin.
  fold target in Hin.
  destruct (isValidPosition target) eqn:V; [|destruct Hin].
  apply in_app_or in Hin. destruct Hin as [Hin|Hin].
  - destruct (getPieceAt gs target); [|destruct Hin].
    destruct (negb _); [|destruct Hin].
    destruct Hin as [<-|[]]. discriminate Hflag.
  - destruct (canEnPassant gs p target) eqn:C; [|destruct Hin].
    destruct Hin as [<-|[]]. auto.
Qed.

Lemma pawnDiagonal_enPassant_in gs p d :
  let target := mkPosition (row (piece_position p) + direction (piece_color p))
                           (col (piece_position p) + d) in
  isValidPosition target = true -> canEnPassant gs p target = true ->
  In (mkValidMove target true true false None) (pawnDiagonal gs p d).
Proof.
  intros target V C. unfold pawnDiagonal. fold target. rewrite V, C.
  apply in_or_app. right. left. reflexivity.
Qed.

Lemma canEnPassant_true gs p target :
  canEnPassant gs p target = true <->
  exists lm,
    lastMove gs = Some lm
    /\ piece_type (move_piece lm) = pawn
    /\ Z.abs (row (move_from lm) - row (move_to lm)) = 2
    /\ row (move_to lm) = row (piece_position p)
    /\ col (move_to lm) = col target.
Proof.
  unfold canEnPassant. destruct (lastMove gs) as [lm|].
  - rewrite !andb_true_iff, !Z.eqb_eq, PieceType_eqb_eq. split.
    + intros [[[H1 H2] H3] H4]. exists lm. auto.
    + intros [lm' [E [H1 [H2 [H3 H4]]]]]. inversion E; subst lm'. auto.
  - split; [discriminate|]. intros [lm [E _]]. discriminate E.
Qed.

(** What the code computes.  For a pawn standing on its square of a
    well-formed state, an en-passant capture onto [target] is among the
    moves of [getValidMoves] exactly when the last move of the history
    was a pawn's two-square advance that landed beside this pawn on its
    rank, [target] is the square behind that pawn, and the verdict of
    [wouldExposeKing] is negative.  That verdict is the code's own: the
    simulation moves the capturer and leaves the captured pawn on the
    board, and the colour of the advanced pawn is not tested. *)
Lemma enPassant_iff gs p target :
  wellFormed (board gs) -> onBoard gs p -> piece_type p = pawn ->
  exists l,
    getValidMoves p gs = (Some l, gs) /\
    ((exists m, In m l /\ vm_isEnPassant m = true /\ vm_to m = target)
     <->
     (exists lm,
         lastMove gs = Some lm
         /\ piece_type (move_piece lm) = pawn
         /\ Z.abs (row (move_from lm) - row (move_to lm)) = 2
         /\ row (move_to lm) = row (piece_position p)
         /\ Z.abs (col (move_to lm) - col (piece_position p)) = 1
         /\ target = mkPosition (row (piece_position p) + direction (piece_color p))
                                (col (move_to lm))
         /\ isValidPosition target = true
         /\ exposes gs p target = false)).
Proof.
  intros Hwf Hp Hpawn. exists (legalMoves gs p).
  split; [apply getValidMoves_pure; assumption|].
  unfold legalMoves, pseudoLegalMoves. rewrite Hpawn. unfold getPawnMoves.
  split.
  - intros [m [Hin [Hflag Hto]]].
    apply filter_In in Hin. destruct Hin as [Hin Hsafe].
    apply in_app_or in Hin. destruct Hin as [Hin|Hin].
    + apply pawnForward_not_enPassant in Hin. congruence.
    + apply in_flat_map in Hin. destruct Hin as [d [Hd Hin]].
      destruct (pawnDiagonal_enPassant _ _ _ _ Hin Hflag) as [Hm [V C]].
      apply canEnPassant_true in C. destruct C as [lm [E [H1 [H2 [H3 H4]]]]].
      simpl in H4. exists lm. subst m. simpl in Hto, Hsafe. subst target.
      repeat split; auto.
      * rewrite H4. destruct Hd as [<-|[<-|[]]]; lia.
      * rewrite H4. reflexivity.
      * apply negb_true_iff in Hsafe. exact Hsafe.
  - intros [lm [E [H1 [H2 [H3 [H4 [Ht [V S]]]]]]]].
    set (d := col (move_to lm) - col (piece_position p)).
    assert (Hd : In d [-1; 1]) by (unfold d; simpl; lia).
    assert (Et : target = mkPosition (row (piece_position p) + direction (piece_color p))
                                     (col (piece_position p) + d)).
    { rewrite Ht. unfold d. f_equal. lia. }
    exists (mkValidMove target true true false None).
    split; [|auto].
    apply filter_In. split.
    + apply in_or_app. right. apply in_flat_map. exists d. split; [exact Hd|].
      rewrite Et. apply pawnDiagonal_enPassant_in.
      * rewrite <- Et. exact V.
      * apply canEnPassant_true. exists lm. rewrite <- Et, Ht. simpl. auto.
    + simpl. rewrite S. reflexivity.
Qed.

(** ** Reachable positions *)

(** Closed facts about concrete games are settled by evaluation. *)
Ltac by_computation :=
  repeat match goal with |- _ /\ _ => split end;
  match goal with |- _ = ?b => vm_cast_no_check (@eq_refl _ b) end.


Lemma play_reachable plies : forall gs gs',
  reachable gs -> play gs plies = Some gs' -> reachable gs'.
Proof.
  induction plies as [|[from to] rest IH]; intros gs gs' Hr Hp; simpl in Hp.
  - inversion Hp; subst; exact Hr.
  - destruct (legalStep gs from to) as [g1|] eqn:E; [|discriminate].
    apply (IH g1); [|exact Hp]. eapply reachable_step; eauto.
Qed.

Lemma positionAfter_reachable plies :
  isSome (play initialGameState plies) = true -> reachable (positionAfter plies).
Proof.
  unfold positionAfter. destruct (play initialGameState plies) as [gs|] eqn:E.
  - intros _. eapply play_reachable; [apply reachable_initial|exact E].
  - discriminate.
Qed.

Lemma play_app l1 : forall gs l2,
  play gs (l1 ++ l2)
  = match play gs l1 with
    | Some g => play g l2
    | None => None
    end.
Proof.
  induction l1 as [|[from to] rest IH]; intros gs l2; simpl; [reflexivity|].
  destruct (legalStep gs from to); [apply IH|reflexivity].
Qed.

(** The last ply of a legal game is a legal step from the position
    before it. *)
Lemma positionAfter_snoc plies from to :
  isSome (play initialGameState (plies ++ [(from, to)])) = true ->
  legalStep (positionAfter plies) from to
  = Some (positionAfter (plies ++ [(from, to)])).
Proof.
  unfold positionAfter. rewrite play_app.
  destruct (play initialGameState plies) as [g|]; [|discriminate].
  simpl. destruct (legalStep g from to); [reflexivity|discriminate].
Qed.

Lemma wellFormed_initial : wellFormed (board initialGameState).
Proof. split; [reflexivity|]. repeat constructor. Qed.

(** ** Executing an illegal request *)

(** C1 (the code at the failing input).  In the initial position the
    rook on a1 has no valid move, so a5 is not in its legal-move set;
    yet [makeMove], which has no legality test and no error result,
    carries it to a5: a move record comes back and the board is
    changed. *)
Theorem makeMove_applies_illegal :
  let gs := initialGameState in
  let rk := pieceOn gs (square fa 1) in
  fst (getValidMoves rk gs) = Some []
  /\ (exists m gs',
         makeMove rk (square fa 5) None gs = (Some m, gs')
         /\ move_notation m = "Ra5"%string
         /\ getPieceAt gs' (square fa 5) = Some (movedTo rk (square fa 5) rook)
         /\ getPieceAt gs' (square fa 1) = None
         /\ getPieceAt gs (square fa 1) = Some rk).
Proof.
  cbv zeta. split; [vm_compute; reflexivity|].
  eexists; eexists. split; [vm_compute; reflexivity|].
  vm_compute. auto.
Qed.

(** ** A piece object that is not on the board *)

(** C8 (counterexample).  After 1.Nc3 the knight's old object still
    names b1.  Asking for its moves writes it back onto b1: the board
    after the call differs from the board before it. *)
Lemma getValidMoves_writes_stale_piece :
  let gs := positionAfter [(square fb 1, square fc 3)] in
  getPieceAt gs (square fb 1) = None
  /\ getPieceAt (snd (getValidMoves staleKnight gs)) (square fb 1) = Some staleKnight.
Proof. cbv zeta. split; vm_compute; reflexivity. Qed.

Lemma getValidMoves_frame_witness :
  getValidMoves (pieceOn initialGameState (square fb 1)) initialGameState
  = (Some (legalMoves initialGameState (pieceOn initialGameState (square fb 1))),
     initialGameState).
Proof.
  apply getValidMoves_frame.
  - exact wellFormed_initial.
  - split; reflexivity.
Defined.

(** ** En passant under a pin *)

(** C5 (counterexample).  After 1.e4 e6 2.e5 Qe7 3.Nc3 a6 4.Nd5 exd5
    5.a3 f5 the last move is a two-square pawn advance landing beside
    the pawn on e5, on its rank; the capture square f6 is on the board.
    Still the pawn's valid moves hold no en-passant capture: taking
    would open the e-file onto the king. *)
Lemma enPassant_absent_when_pinned :
  let gs := positionAfter pinnedPawnGame in
  let p := pieceOn gs (square fe 5) in
  reachable gs
  /\ onBoard gs p /\ piece_type p = pawn /\ piece_color p = white
  /\ (exists lm,
         lastMove gs = Some lm
         /\ piece_type (move_piece lm) = pawn
         /\ Z.abs (row (move_from lm) - row (move_to lm)) = 2
         /\ row (move_to lm) = row (piece_position p)
         /\ Z.abs (col (move_to lm) - col (piece_position p)) = 1
         /\ isValidPosition
              (mkPosition (row (piece_position p) + direction (piece_color p))
                          (col (move_to lm))) = true)
  /\ fst (getValidMoves p gs) = Some [plainMove (square fe 6) false].
Proof.
  cbv zeta. split.
  { apply positionAfter_reachable. by_computation. }
  split; [split; vm_compute; reflexivity|].
  split; [vm_compute; reflexivity|].
  split; [vm_compute; reflexivity|].
  split.
  - eexists. split; [vm_compute; reflexivity|]. vm_compute. auto 10.
  - vm_compute; reflexivity.
Qed.

(** ** Status resolution on concrete games *)

(** C2 (the code at the failing input).  The position after the 23
    plies of [enPassantOnlyGame] is reachable by legal play; the engine
    has set [status] to stalemate, although Black, who is to move and
    not in check, has one legal move (the en-passant capture a4xb3). *)
Theorem stalemate_declared_with_a_legal_move :
  let gs := positionAfter enPassantOnlyGame in
  reachable gs
  /\ status gs = stalemate
  /\ currentPlayer gs = black
  /\ isInCheck gs black = false
  /\ legalMoveCount gs = Some 1%nat
  /\ fst (getValidMoves (pieceOn gs (square fa 4)) gs)
     = Some [mkValidMove (square fb 3) true true false None].
Proof.
  cbv zeta. split.
  { apply positionAfter_reachable. by_computation. }
  by_computation.
Qed.

(** C7 (the code at the failing input).  After 1.e4 f5 2.Qh5+ the status
    is check.  Black answers 2...g6, a legal move after which White is
    not in check and has 39 legal moves; the status is still check. *)
Theorem status_stays_check_after_resolution :
  let gs := positionAfter checkGame in
  let gs' := positionAfter (checkGame ++ [(square fg 7, square fg 6)]) in
  reachable gs
  /\ status gs = check
  /\ legalStep gs (square fg 7) (square fg 6) = Some gs'
  /\ isInCheck gs' (currentPlayer gs') = false
  /\ legalMoveCount gs' = Some 39%nat
  /\ status gs' = check.
Proof.
  cbv zeta. split.
  { apply positionAfter_reachable. by_computation. }
  split; [by_computation|].
  split; [apply positionAfter_snoc; by_computation|].
  by_computation.
Qed.

(** ** Castling on a concrete position *)

(** C4 (the code at the failing input).  After 1.c4 d6 2.Nc3 Bf5 3.d4
    Nf6 4.Bf4 e6 5.Qd2 Be7 the white king and the rook on a1 have not
    moved, the king is not in check, b1, c1 and d1 are empty and none of
    e1, d1, c1 is attacked.  The king's valid moves hold no castling
    destination: [canCastle] also refuses on b1, which the bishop on f5
    attacks and the king never crosses. *)
Theorem queenside_castling_refused :
  let gs := positionAfter queensideGame in
  let k := pieceOn gs (square fe 1) in
  let rk := pieceOn gs (square fa 1) in
  reachable gs
  /\ currentPlayer gs = white
  /\ (piece_type k = king /\ piece_color k = white /\ piece_hasMoved k = false)
  /\ (piece_type rk = rook /\ piece_color rk = white /\ piece_hasMoved rk = false)
  /\ isInCheck gs white = false
  /\ map (getPieceAt gs) [square fb 1; square fc 1; square fd 1] = [None; None; None]
  /\ map (fun sq => isSquareUnderAttack gs sq white)
         [square fe 1; square fd 1; square fc 1] = [false; false; false]
  /\ isSquareUnderAttack gs (square fb 1) white = true
  /\ fst (getValidMoves k gs) = Some [plainMove (square fd 1) false].
Proof.
  cbv zeta. split.
  { apply positionAfter_reachable. by_computation. }
  by_computation.
Qed.

(** ** Notation of an en-passant capture *)

(** C10 (the code at the failing input).  1.e4 a6 2.e5 d5 3.exd6: the
    move record of the capture names the captured pawn and is flagged as
    en passant, and its notation is [d6], without the file of origin and
    without the capture marker. *)
Theorem enPassant_notation_lacks_capture :
  exists m,
    lastMove (positionAfter enPassantGame) = Some m
    /\ move_isEnPassant m = true
    /\ move_capturedPiece m
       = Some (mkPiece "black-pawn-3" pawn black (square fd 5) true)
    /\ piece_type (move_piece m) = pawn
    /\ move_from m = square fe 5 /\ move_to m = square fd 6
    /\ move_notation m = "d6"%string.
Proof.
  eexists. split; [vm_compute; reflexivity|].
  vm_compute. auto 10.
Qed.

(** ** Soundness is kept by the engine *)

Lemma allSquares_range sq : In sq allSquares -> 0 <= row sq < 8 /\ 0 <= col sq < 8.
Proof.
  unfold allSquares. intros H. apply in_flat_map in H.
  destruct H as [r [Hr H]]. apply in_map_iff in H. destruct H as [c [<- Hc]].
  simpl in Hr, Hc |- *. lia.
Qed.

Lemma getAllPieces_onBoard gs c q :
  sound gs -> In q (getAllPieces gs c) -> onBoard gs q.
Proof.
  intros [Hwf Hc] H. unfold getAllPieces in H. apply in_flat_map in H.
  destruct H as [sq [Hsq H]]. apply allSquares_range in Hsq. destruct Hsq as [Hr Hcl].
  destruct (boardGet (board gs) (row sq) (col sq)) as [p|] eqn:G; [|destruct H].
  destruct (PieceColor_eqb (piece_color p) c); [|destruct H].
  destruct H as [<-|[]].
  pose proof (Hc _ _ _ Hr Hcl G) as Hpos.
  split.
  - rewrite Hpos. apply isValidPosition_true. simpl. lia.
  - rewrite Hpos. simpl. exact G.
Qed.

Lemma concatMapM_pure {A B} (f : A -> Engine (list B)) (g : A -> list B) l gs :
  (forall x, In x l -> f x gs = (Some (g x), gs)) ->
  concatMapM f l gs = (Some (flat_map g l), gs).
Proof.
  induction l as [|x t IH]; intros H; simpl; [reflexivity|].
  unfold bind. rewrite (H x (or_introl eq_refl)).
  rewrite IH by (intros y Hy; apply H; right; exact Hy).
  reflexivity.
Qed.

Lemma getAllValidMoves_pure gs c :
  sound gs ->
  getAllValidMoves c gs = (Some (flat_map (legalMoves gs) (getAllPieces gs c)), gs).
Proof.
  intros Hs. unfold getAllValidMoves, bind, reads.
  apply concatMapM_pure. intros q Hq.
  apply getValidMoves_pure; [apply Hs|].
  eapply getAllPieces_onBoard; eauto.
Qed.

Lemma isCheckmate_pure gs c :
  sound gs -> exists b, isCheckmate c gs = (Some b, gs).
Proof.
  intros Hs. unfold isCheckmate, bind, reads.
  destruct (negb (isInCheck gs c)); [eexists; reflexivity|].
  rewrite (getAllValidMoves_pure c Hs). eexists; reflexivity.
Qed.

Lemma isStalemate_pure gs c :
  sound gs -> exists b, isStalemate c gs = (Some b, gs).
Proof.
  intros Hs. unfold isStalemate, bind, reads.
  destruct (isInCheck gs c); [eexists; reflexivity|].
  rewrite (getAllValidMoves_pure c Hs). eexists; reflexivity.
Qed.

(** Writing a square keeps the state sound when the piece written, if
    any, names that square. *)
Lemma writeSquare_sound gs pos v :
  sound gs -> isValidPosition pos = true ->
  (forall q, v = Some q -> piece_position q = pos) ->
  exists gs',
    writeSquare pos v gs = (Some tt, gs') /\ sound gs'
    /\ currentPlayer gs' = currentPlayer gs.
Proof.
  intros [Hwf Hc] Hv Hq.
  destruct (@writeSquare_spec gs pos v Hwf Hv) as [b' [E [W G]]].
  exists (withBoard gs b'). split; [exact E|]. split; [|reflexivity].
  split; [exact W|]. intros r c q Hr Hcl Hget. simpl in Hget.
  rewrite G in Hget.
  destruct ((row pos =? r) && (col pos =? c)) eqn:Eq.
  - apply andb_true_iff in Eq. destruct Eq as [E1 E2].
    apply Z.eqb_eq in E1, E2. rewrite (Hq q Hget). destruct pos; simpl in *; congruence.
  - apply (Hc _ _ _ Hr Hcl Hget).
Qed.

Lemma sound_pushCaptured gs p : sound gs -> sound (pushCaptured gs p).
Proof. intros H. unfold pushCaptured. destruct (piece_color p); exact H. Qed.

Lemma sound_withStatus gs s : sound gs -> sound (withStatus gs s).
Proof. intros H; exact H. Qed.

Lemma sound_pushMove gs m : sound gs -> sound (pushMove gs m).
Proof. intros H; exact H. Qed.

Lemma sound_withCurrentPlayer gs c : sound gs -> sound (withCurrentPlayer gs c).
Proof. intros H; exact H. Qed.

(** ** A small program logic for the engine monad *)

Lemma runs_ret {A} (a : A) gs (P : A -> GameState -> Prop) :
  P a gs -> runs (ret a) gs P.
Proof. intros H. exists a, gs. split; [reflexivity|exact H]. Qed.

Lemma runs_bind {A B} (m : Engine A) (f : A -> Engine B) gs
      (Q : A -> GameState -> Prop) (P : B -> GameState -> Prop) :
  runs m gs Q -> (forall a gs', Q a gs' -> runs (f a) gs' P) -> runs (bind m f) gs P.
Proof.
  intros [a [gs' [E HQ]]] Hf. destruct (Hf a gs' HQ) as [b [gs'' [E' HP]]].
  exists b, gs''. split; [|exact HP]. unfold bind. rewrite E. exact E'.
Qed.

Lemma runs_reads {A} (f : GameState -> A) gs (P : A -> GameState -> Prop) :
  P (f gs) gs -> runs (reads f) gs P.
Proof. intros H. exists (f gs), gs. split; [reflexivity|exact H]. Qed.

Lemma runs_modify (f : GameState -> GameState) gs (P : unit -> GameState -> Prop) :
  P tt (f gs) -> runs (modify f) gs P.
Proof. intros H. exists tt, (f gs). split; [reflexivity|exact H]. Qed.

Lemma runs_weaken {A} (m : Engine A) gs (P Q : A -> GameState -> Prop) :
  runs m gs P -> (forall a gs', P a gs' -> Q a gs') -> runs m gs Q.
Proof. intros [a [gs' [E H]]] HPQ. exists a, gs'. auto. Qed.

Lemma runs_writeSquare gs pos v :
  sound gs -> isValidPosition pos = true ->
  (forall q, v = Some q -> piece_position q = pos) ->
  runs (writeSquare pos v) gs
       (fun _ gs' => sound gs' /\ currentPlayer gs' = currentPlayer gs).
Proof.
  intros Hs Hv Hq. destruct (writeSquare_sound Hs Hv Hq) as [gs' [E [S C]]].
  exists tt, gs'. auto.
Qed.

Lemma runs_isCheckmate gs c :
  sound gs -> runs (isCheckmate c) gs (fun _ gs' => gs' = gs).
Proof.
  intros Hs. destruct (isCheckmate_pure c Hs) as [b E]. exists b, gs. auto.
Qed.

Lemma runs_isStalemate gs c :
  sound gs -> runs (isStalemate c) gs (fun _ gs' => gs' = gs).
Proof.
  intros Hs. destruct (isStalemate_pure c Hs) as [b E]. exists b, gs. auto.
Qed.

Lemma sameMove_refl m : sameMove m m.
Proof. repeat split. Qed.

Lemma sameMove_trans m1 m2 m3 : sameMove m1 m2 -> sameMove m2 m3 -> sameMove m1 m3.
Proof. unfold sameMove. intros [? [? ?]] [? [? ?]]. repeat split; congruence. Qed.

Lemma valid_in_row p c :
  isValidPosition p = true -> 0 <= c < 8 ->
  isValidPosition (mkPosition (row p) c) = true.
Proof.
  intros H Hc. apply isValidPosition_true in H. apply isValidPosition_true. simpl. lia.
Qed.

Lemma runs_handleCastling gs m :
  sound gs -> isValidPosition (move_from m) = true ->
  runs (handleCastling m) gs
       (fun m' gs' => sound gs' /\ currentPlayer gs' = currentPlayer gs /\ sameMove m m').
Proof.
  intros Hs Hf. unfold handleCastling.
  destruct (_ && _).
  - eapply runs_bind
      with (Q := fun _ gs' => sound gs' /\ currentPlayer gs' = currentPlayer gs).
    + apply runs_reads. exact (conj Hs (eq_refl (currentPlayer gs))).
    + intros r gs1 [Hs1 Hc1].
      eapply runs_bind
        with (Q := fun _ gs' => sound gs' /\ currentPlayer gs' = currentPlayer gs).
      * destruct r as [rk|].
        -- eapply runs_bind.
           ++ apply runs_writeSquare; [exact Hs1| |discriminate].
              apply valid_in_row; [exact Hf|]. destruct (_ <? _); lia.
           ++ intros _ gs2 [Hs2 Hc2]. simpl.
              eapply runs_weaken.
              ** apply runs_writeSquare; [exact Hs2| |].
                 --- apply valid_in_row; [exact Hf|]. destruct (_ <? _); lia.
                 --- intros q Hq. inversion Hq; subst. reflexivity.
              ** intros _ gs3 [Hs3 Hc3]. split; [exact Hs3|congruence].
        -- apply runs_ret. split; [exact Hs1|exact Hc1].
      * intros _ gs2 [Hs2 Hc2]. apply runs_ret.
        split; [exact Hs2|]. split; [exact Hc2|]. repeat split.
  - apply runs_ret. split; [exact Hs|]. split; [reflexivity|apply sameMove_refl].
Qed.

Lemma runs_handleEnPassant gs m :
  sound gs -> isValidPosition (move_from m) = true ->
  isValidPosition (move_to m) = true ->
  runs (handleEnPassant m) gs
       (fun m' gs' => sound gs' /\ currentPlayer gs' = currentPlayer gs /\ sameMove m m').
Proof.
  intros Hs Hf Ht. unfold handleEnPassant.
  destruct (_ && _ && _).
  - eapply runs_bind
      with (Q := fun _ gs' => sound gs' /\ currentPlayer gs' = currentPlayer gs).
    + apply runs_reads. exact (conj Hs (eq_refl (currentPlayer gs))).
    + intros cp gs1 [Hs1 Hc1]. destruct cp as [cp|].
      * eapply runs_bind.
        -- apply runs_writeSquare; [exact Hs1| |discriminate].
           apply valid_in_row; [exact Hf|].
           apply isValidPosition_true in Ht. lia.
        -- intros _ gs2 [Hs2 Hc2]. simpl.
           eapply runs_bind
             with (Q := fun _ gs' => sound gs' /\ currentPlayer gs' = currentPlayer gs).
           ++ apply runs_modify.
              split; [apply sound_pushCaptured; exact Hs2|].
              unfold pushCaptured. destruct (piece_color cp); simpl; congruence.
           ++ intros _ gs3 [Hs3 Hc3]. apply runs_ret.
              split; [exact Hs3|]. split; [exact Hc3|]. repeat split.
      * apply runs_ret. split; [exact Hs1|]. split; [exact Hc1|apply sameMove_refl].
  - apply runs_ret. split; [exact Hs|]. split; [reflexivity|apply sameMove_refl].
Qed.

Lemma runs_handleSpecialMoves gs m :
  sound gs -> isValidPosition (move_from m) = true ->
  isValidPosition (move_to m) = true ->
  runs (handleSpecialMoves m) gs (fun m' gs' => sound gs' /\ sameMove m m').
Proof.
  intros Hs Hf Ht. unfold handleSpecialMoves.
  eapply runs_bind; [apply runs_handleCastling; assumption|].
  intros m1 gs1 [Hs1 [_ Hsame]]. destruct Hsame as [Hp [Hfrom Hto]].
  eapply runs_weaken.
  - apply runs_handleEnPassant; [exact Hs1| |]; congruence.
  - intros m2 gs2 [Hs2 [_ Hsame2]]. split; [exact Hs2|].
    eapply sameMove_trans; [|exact Hsame2]. repeat split; assumption.
Qed.

(** On a sound state [makeMove] returns for any piece object and
    destination that name squares of the board; the state stays sound
    and the record carries the piece object and the destination it was
    given. *)
Lemma runs_makeMove gs piece to promo :
  sound gs -> isValidPosition (piece_position piece) = true ->
  isValidPosition to = true ->
  runs (makeMove piece to promo) gs
       (fun m gs' => sound gs' /\ move_piece m = piece /\ move_to m = to).
Proof.
  intros Hs Hp Ht. unfold makeMove.
  eapply runs_bind with (Q := fun _ gs' => sound gs').
  { apply runs_reads. exact Hs. }
  intros capturedPiece gs0 Hs0.
  eapply runs_bind with (Q := fun _ gs' => sound gs').
  { eapply runs_weaken; [apply runs_writeSquare; [exact Hs0|exact Hp|discriminate]|].
    intros _ g [H _]; exact H. }
  intros _ gs1 Hs1.
  eapply runs_bind with (Q := fun _ gs' => sound gs').
  { eapply runs_weaken; [apply runs_writeSquare; [exact Hs1|exact Ht|]|].
    - intros q Hq. inversion Hq; subst. reflexivity.
    - intros _ g [H _]; exact H. }
  intros _ gs2 Hs2.
  eapply runs_bind; [apply runs_handleSpecialMoves; [exact Hs2|exact Hp|exact Ht]|].
  intros move1 gs3 [Hs3 [Hpiece [_ Hto]]]. simpl in Hpiece, Hto.
  eapply runs_bind with (Q := fun _ gs' => sound gs').
  { destruct capturedPiece as [cp|].
    - apply runs_modify. apply sound_pushCaptured. exact Hs3.
    - apply runs_ret. exact Hs3. }
  intros _ gs4 Hs4.
  eapply runs_bind with (Q := fun _ gs' => sound gs').
  { apply runs_reads. exact Hs4. }
  intros opponentColor gs5 Hs5.
  eapply runs_bind with (Q := fun _ gs' => sound gs').
  { apply runs_reads. exact Hs5. }
  intros isCheck gs6 Hs6.
  eapply runs_bind
    with (Q := fun m gs' => sound gs' /\ move_piece m = piece /\ move_to m = to).
  { destruct isCheck.
    - eapply runs_bind; [apply runs_isCheckmate; exact Hs6|].
      intros mate g ->.
      eapply runs_bind with (Q := fun _ gs' => sound gs').
      + apply runs_modify. apply sound_withStatus. exact Hs6.
      + intros _ g' Hg'. apply runs_ret. simpl. auto.
    - eapply runs_bind; [apply runs_isStalemate; exact Hs6|].
      intros stale g ->.
      eapply runs_bind with (Q := fun _ gs' => sound gs').
      + destruct stale.
        * apply runs_modify. apply sound_withStatus. exact Hs6.
        * apply runs_ret. exact Hs6.
      + intros _ g' Hg'. apply runs_ret. simpl. auto. }
  intros move2 gs7 [Hs7 [Hp2 Ht2]].
  eapply runs_bind with (Q := fun _ gs' => sound gs').
  { apply runs_modify. apply sound_pushMove. exact Hs7. }
  intros _ gs8 Hs8.
  eapply runs_bind with (Q := fun _ gs' => sound gs').
  { apply runs_modify. apply sound_withCurrentPlayer. exact Hs8. }
  intros _ gs9 Hs9. apply runs_ret. auto.
Qed.

(** ** Sound positions *)

Lemma allSquares_complete r c :
  0 <= r < 8 -> 0 <= c < 8 -> In (mkPosition r c) allSquares.
Proof.
  intros Hr Hc. unfold allSquares. apply in_flat_map. exists r. split.
  - unfold indices8. simpl. lia.
  - apply in_map. unfold indices8. simpl. lia.
Qed.

Lemma consistentb_true b : consistentb b = true -> consistent b.
Proof.
  unfold consistentb. rewrite forallb_forall. intros H r c q Hr Hc G.
  specialize (H _ (allSquares_complete Hr Hc)). simpl in H. rewrite G in H.
  apply Position_eqb_eq in H. exact H.
Qed.

Lemma sound_initial : sound initialGameState.
Proof.
  split; [exact wellFormed_initial|]. apply consistentb_true. reflexivity.
Qed.

Lemma getPieceAt_onBoard gs sq p :
  sound gs -> getPieceAt gs sq = Some p -> onBoard gs p.
Proof.
  intros [Hwf Hc] H. unfold getPieceAt in H.
  destruct (isValidPosition sq) eqn:V; [|discriminate].
  pose proof V as V'. apply isValidPosition_true in V'. destruct V' as [Hr Hcl].
  pose proof (Hc _ _ _ Hr Hcl H) as Hpos.
  assert (E : piece_position p = sq) by (destruct sq; exact Hpos).
  split; rewrite E; assumption.
Qed.

Lemma legalMoves_valid gs p m : In m (legalMoves gs p) -> isValidPosition (vm_to m) = true.
Proof.
  unfold legalMoves. intros H. apply filter_In in H. destruct H as [H _].
  exact (pseudoLegalMoves_valid _ _ _ H).
Qed.

Lemma legalStep_sound gs from to gs' :
  sound gs -> legalStep gs from to = Some gs' -> sound gs'.
Proof.
  intros Hs H. unfold legalStep in H.
  destruct (getPieceAt gs from) as [p|] eqn:G; [|discriminate].
  destruct (PieceColor_eqb _ _); [|discriminate].
  pose proof (getPieceAt_onBoard _ Hs G) as Hon.
  rewrite (getValidMoves_pure (proj1 Hs) Hon) in H.
  destruct (existsb _ _) eqn:Ex; [|discriminate].
  apply existsb_exists in Ex. destruct Ex as [m [Hm Hto]].
  apply Position_eqb_eq in Hto. subst to.
  destruct (@runs_makeMove gs p (vm_to m) None Hs (proj1 Hon) (legalMoves_valid _ _ _ Hm))
    as [mv [g [E [Hg _]]]].
  rewrite E in H. inversion H; subst. exact Hg.
Qed.

(** Every position reachable by legal play is sound. *)
Theorem reachable_sound gs : reachable gs -> sound gs.
Proof.
  induction 1 as [|gs from to gs' _ IH Hstep].
  - exact sound_initial.
  - eapply legalStep_sound; eauto.
Qed.

(** ** Perft without the last application *)

Lemma legalPlies_sound gs pt :
  sound gs -> In pt (legalPlies gs) ->
  isValidPosition (piece_position (fst pt)) = true /\ isValidPosition (snd pt) = true.
Proof.
  intros Hs H. unfold legalPlies in H. apply in_flat_map in H.
  destruct H as [p [Hp H]].
  pose proof (getAllPieces_onBoard _ _ Hs Hp) as Hon.
  rewrite (getValidMoves_pure (proj1 Hs) Hon) in H.
  apply in_map_iff in H. destruct H as [m [<- Hm]]. simpl.
  split; [exact (proj1 Hon)|exact (legalMoves_valid _ _ _ Hm)].
Qed.

Lemma fold_left_ext_in {A B} (f g : A -> B -> A) l :
  (forall a x, In x l -> f a x = g a x) ->
  forall a, fold_left f l a = fold_left g l a.
Proof.
  induction l as [|x t IH]; intros H a; simpl; [reflexivity|].
  rewrite (H a x (or_introl eq_refl)). apply IH.
  intros a' y Hy. apply H. right; exact Hy.
Qed.

Lemma fold_left_count {B} (l : list B) : forall a,
  fold_left (fun acc _ => (acc + 1)%nat) l a = (a + List.length l)%nat.
Proof.
  induction l as [|x t IH]; intros a; simpl; [lia|]. rewrite IH. lia.
Qed.

Lemma perft_bulk d : forall gs, sound gs -> perft d gs = perftBulk d gs.
Proof.
  induction d as [|k IH]; intros gs Hs; [reflexivity|].
  destruct k as [|k'].
  - simpl.
    rewrite (@fold_left_ext_in _ _ _ (fun acc _ => (acc + 1)%nat)).
    + rewrite fold_left_count. reflexivity.
    + intros a pt Hpt. destruct (@legalPlies_sound gs pt Hs Hpt) as [Hp Ht].
      destruct (@runs_makeMove gs (fst pt) (snd pt) None Hs Hp Ht) as [m [g [E _]]].
      rewrite E. reflexivity.
  - change (perft (S (S k')) gs) with
      (fold_left
         (fun acc pt =>
            match makeMove (fst pt) (snd pt) None gs with
            | (Some _, gs') => (acc + perft (S k') gs')%nat
            | (None, _) => acc
            end)
         (legalPlies gs) 0%nat).
    change (perftBulk (S (S k')) gs) with
      (fold_left
         (fun acc pt =>
            match makeMove (fst pt) (snd pt) None gs with
            | (Some _, gs') => (acc + perftBulk (S k') gs')%nat
            | (None, _) => acc
            end)
         (legalPlies gs) 0%nat).
    apply fold_left_ext_in. intros a pt Hpt.
    destruct (@legalPlies_sound gs pt Hs Hpt) as [Hp Ht].
    destruct (@runs_makeMove gs (fst pt) (snd pt) None Hs Hp Ht) as [m [g [E [Hg _]]]].
    rewrite E. rewrite (IH g Hg). reflexivity.
Qed.


(** ** The search never throws on a sound position *)

Lemma runs_tryMoves piece vms : forall gs,
  sound gs -> isValidPosition (piece_position piece) = true ->
  (forall vm, In vm vms -> isValidPosition (vm_to vm) = true) ->
  runs (tryMoves piece vms) gs (fun ms gs' => sound gs' /\ Forall replayable ms).
Proof.
  induction vms as [|vm rest IH]; intros gs Hs Hp Hv; simpl.
  - apply runs_ret. split; [exact Hs|constructor].
  - destruct (@runs_makeMove gs piece (vm_to vm) None Hs Hp (Hv vm (or_introl eq_refl)))
      as [m [g [E [Hg [Hm1 Hm2]]]]].
    unfold runs. rewrite E.
    destruct (IH g Hg Hp (fun x Hx => Hv x (or_intror Hx))) as [ms [g' [E' [Hg' Hms]]]].
    exists (m :: ms), g'. unfold bind. rewrite E'. split; [reflexivity|].
    split; [exact Hg'|]. constructor; [|exact Hms].
    split; [rewrite Hm1; exact Hp|rewrite Hm2; apply Hv; left; reflexivity].
Qed.

Lemma runs_scanSquares color sqs : forall gs,
  sound gs ->
  (forall sq, In sq sqs -> isValidPosition sq = true) ->
  runs (scanSquares color sqs) gs
       (fun ms gs' => sound gs' /\ Forall replayable (fst ms)).
Proof.
  induction sqs as [|sq rest IH]; intros gs Hs Hv; simpl.
  - apply runs_ret. split; [exact Hs|constructor].
  - eapply runs_bind with (Q := fun cell gs' =>
                                  gs' = gs /\ cell = getPieceAt gs sq).
    { apply runs_reads. split; [reflexivity|].
      unfold getPieceAt. rewrite (Hv sq (or_introl eq_refl)). reflexivity. }
    intros cell g [-> Hcell].
    eapply runs_bind with (Q := fun ms gs' => sound gs' /\ Forall replayable (fst ms)).
    { destruct cell as [piece|]; [|apply runs_ret; split; [exact Hs|constructor]].
      destruct (PieceColor_eqb _ _); [|apply runs_ret; split; [exact Hs|constructor]].
      pose proof (@getPieceAt_onBoard gs sq piece Hs (eq_sym Hcell)) as Hon.
      eapply runs_bind with (Q := fun vms gs' =>
                                    gs' = gs /\ vms = legalMoves gs piece).
      - exists (legalMoves gs piece), gs. split; [|auto].
        apply getValidMoves_pure; [exact (proj1 Hs)|exact Hon].
      - intros vms g' [-> ->].
        eapply runs_bind with (Q := fun ms gs' => sound gs' /\ Forall replayable ms).
        + apply runs_tryMoves; [exact Hs|exact (proj1 Hon)|].
          intros vm Hvm. eapply legalMoves_valid; exact Hvm.
        + intros played g' Hq. apply runs_ret. exact Hq. }
    intros here g1 [Hs1 Hhere].
    eapply runs_bind; [apply IH; [exact Hs1|intros x Hx; apply Hv; right; exact Hx]|].
    intros there g2 [Hs2 Hthere]. apply runs_ret. split; [exact Hs2|].
    cbn [fst]. apply Forall_app. split; assumption.
Qed.

Lemma allSquares_valid sq : In sq allSquares -> isValidPosition sq = true.
Proof. intros H. apply allSquares_range in H. apply isValidPosition_true. exact H. Qed.

Lemma getAllPossibleMovesDrawing_sound gs color :
  sound gs ->
  exists l k gs1,
    getAllPossibleMovesDrawing gs color = (Some (l, k), gs1)
    /\ sound gs1 /\ Forall replayable l.
Proof.
  intros Hs.
  destruct (@runs_scanSquares color allSquares gs Hs allSquares_valid)
    as [[l k] [es [E [Hes Hl]]]].
  exists l, k, (afterSharedWrites gs es). unfold getAllPossibleMovesDrawing. rewrite E.
  split; [reflexivity|]. split; [exact Hes|exact Hl].
Qed.

(** The moves of [getAllPossibleMoves] are those of the counting scan. *)
Lemma getAllPossibleMoves_drawing gs color l gs1 :
  getAllPossibleMoves gs color = (Some l, gs1) ->
  getAllPossibleMovesDrawing gs color = (Some (l, idDraws gs color), gs1).
Proof.
  unfold getAllPossibleMoves, idDraws.
  destruct (getAllPossibleMovesDrawing gs color) as [[[l' k]|] g]; cbn; intros H;
    inversion H; reflexivity.
Qed.

Lemma getAllPossibleMoves_of_drawing gs color l k gs1 :
  getAllPossibleMovesDrawing gs color = (Some (l, k), gs1) ->
  getAllPossibleMoves gs color = (Some l, gs1).
Proof. unfold getAllPossibleMoves. intros ->. reflexivity. Qed.

Lemma getAllPossibleMoves_throws gs color gs1 :
  getAllPossibleMoves gs color = (None, gs1) ->
  getAllPossibleMovesDrawing gs color = (None, gs1).
Proof.
  unfold getAllPossibleMoves.
  destruct (getAllPossibleMovesDrawing gs color) as [[[l' k]|] g]; cbn; intros H;
    inversion H; reflexivity.
Qed.

Lemma getAllPossibleMoves_sound gs color :
  sound gs ->
  exists l gs1,
    getAllPossibleMoves gs color = (Some l, gs1) /\ sound gs1 /\ Forall replayable l.
Proof.
  intros Hs.
  destruct (@getAllPossibleMovesDrawing_sound gs color Hs) as [l [k [gs1 [E H]]]].
  exists l, gs1. split; [exact (@getAllPossibleMoves_of_drawing gs color l k gs1 E)|exact H].
Qed.

Lemma insertByScore_In m x l : In x (insertByScore m l) -> x = m \/ In x l.
Proof.
  induction l as [|y t IH]; simpl.
  - intros [<-|[]]; auto.
  - destruct (sortScore2 y <? sortScore2 m); simpl.
    + intros [<-|[<-|H]]; auto.
    + intros [<-|H]; auto. destruct (IH H); auto.
Qed.

Lemma sortMoves_In l x : In x (sortMoves l) -> In x l.
Proof.
  unfold sortMoves.
  assert (H : forall l acc, In x (fold_left (fun acc m => insertByScore m acc) l acc) ->
                            In x l \/ In x acc).
  { clear l. induction l as [|y t IH]; intros acc Hin; simpl in *; [auto|].
    destruct (IH _ Hin) as [H|H]; [auto|].
    destruct (insertByScore_In _ _ _ H); auto. }
  intros Hin. destruct (H l [] Hin) as [H1|[]]. exact H1.
Qed.

Lemma aiMakeMove_sound gs m :
  sound gs -> replayable m -> exists g, aiMakeMove gs m = Some g /\ sound g.
Proof.
  intros Hs [Hp Ht]. unfold aiMakeMove.
  destruct (@runs_makeMove gs (move_piece m) (move_to m) None Hs Hp Ht)
    as [mv [g [E [Hg _]]]].
  rewrite E. exists g. auto.
Qed.

Lemma searchable_sound d : forall gs, sound gs -> searchable d gs = true.
Proof.
  induction d as [|d IH]; intros gs Hs; simpl; [reflexivity|].
  destruct (negb (GameStatus_eqb (status gs) active)); [reflexivity|].
  destruct (getAllPossibleMoves_sound (currentPlayer gs) Hs) as [l [gs1 [E [Hs1 Hl]]]].
  rewrite E. apply forallb_forall. intros m Hm.
  apply sortMoves_In in Hm. rewrite Forall_forall in Hl.
  destruct (aiMakeMove_sound Hs1 (Hl m Hm)) as [g [Eg Hg]].
  rewrite Eg. apply IH. exact Hg.
Qed.

Lemma plainLoop_returns recurse gs mx sorted :
  (forall m, In m sorted ->
     exists g, aiMakeMove gs m = Some g
               /\ forall n, exists v n', recurse n g = Some (v, n')) ->
  forall best n, exists v n', plainLoop recurse gs mx sorted best n = Some (v, n').
Proof.
  induction sorted as [|m rest IH]; intros H best n; simpl.
  - eexists; eexists; reflexivity.
  - destruct (H m (or_introl eq_refl)) as [g [Eg Hrec]]. rewrite Eg.
    destruct (Hrec (S n)) as [v [n' Ev]]. rewrite Ev.
    apply IH. intros m' Hm'. apply H. right; exact Hm'.
Qed.

(** Plain minimax returns on every sound position. *)
Lemma plainMinimax_returns evaluatePosition d : forall gs n mx c,
  sound gs -> exists v n', plainMinimax evaluatePosition d n gs mx c = Some (v, n').
Proof.
  induction d as [|d IH]; intros gs n mx c Hs; simpl.
  - destruct (evaluatePosition n gs c). eexists; eexists; reflexivity.
  - destruct (negb (GameStatus_eqb (status gs) active)).
    + destruct (evaluatePosition n gs c). eexists; eexists; reflexivity.
    + destruct (getAllPossibleMovesDrawing_sound (currentPlayer gs) Hs)
        as [l [k0 [gs1 [E [Hs1 Hl]]]]].
      rewrite E. destruct l as [|m0 l0]; [eexists; eexists; reflexivity|].
      apply plainLoop_returns. intros m Hm.
      apply sortMoves_In in Hm. rewrite Forall_forall in Hl.
      destruct (aiMakeMove_sound Hs1 (Hl m Hm)) as [g [Eg Hg]].
      exists g. split; [exact Eg|]. intros k. apply IH. exact Hg.
Qed.

(** ** The search returns on an exception-free tree *)

Lemma searchLoop_succeeds recurse gs mx sorted :
  (forall m, In m sorted ->
     exists g, aiMakeMove gs m = Some g
               /\ forall n a b, exists r n', recurse n g a b = Some (r, n')) ->
  forall st, exists st', searchLoop recurse gs mx sorted st = Some st'.
Proof.
  induction sorted as [|m rest IH]; intros H st; simpl.
  - eexists; reflexivity.
  - destruct (H m (or_introl eq_refl)) as [g [Hg Hrec]]. rewrite Hg.
    destruct (Hrec (S (ls_draw st)) (ls_alpha st) (ls_beta st)) as [r [n' Hr]].
    rewrite Hr.
    destruct (Num_leb _ _); [eexists; reflexivity|].
    apply IH. intros m' Hin. apply H. right; exact Hin.
Qed.

Lemma minimax_succeeds difficulty random evaluatePosition depth :
  forall gs, searchable depth gs = true ->
  forall n a b mx c,
  exists r n',
    fst (minimax difficulty random evaluatePosition depth n gs a b mx c) = Some (r, n').
Proof.
  induction depth as [|d IH]; intros gs Hs n a b mx c.
  - simpl. destruct (staticResult _ _ _ _ _ _) as [r0 n0].
    eexists; eexists; reflexivity.
  - simpl in Hs |- *.
    destruct (negb (GameStatus_eqb (status gs) active)).
    + simpl. destruct (staticResult _ _ _ _ _ _) as [r0 n0].
      eexists; eexists; reflexivity.
    + destruct (getAllPossibleMoves gs (currentPlayer gs)) as [[l|] gs1] eqn:Hall;
        [|discriminate Hs].
      rewrite (getAllPossibleMoves_drawing _ _ Hall).
      destruct l as [|m0 l0].
      * simpl. eexists; eexists; reflexivity.
      * rewrite forallb_forall in Hs.
        destruct (@searchLoop_succeeds
                    (fun n' g a' b' =>
                       fst (minimax difficulty random evaluatePosition d n' g a' b'
                                    (negb mx) c))
                    gs1 mx (sortMoves (m0 :: l0))) with
          (st := mkLoopState a b None (if mx then NegInf else PosInf) []
                             (n + idDraws gs (currentPlayer gs))%nat)
          as [st' Hst].
        { intros m Hin. specialize (Hs m Hin).
          destruct (aiMakeMove gs1 m) as [g|]; [|discriminate Hs].
          exists g. split; [reflexivity|]. intros. apply IH. exact Hs. }
        rewrite Hst.
        destruct (substitute difficulty random (sortMoves (m0 :: l0))
                             (ls_bestMove st') (ls_draw st')) as [bm n'].
        simpl. eexists; eexists; reflexivity.
Qed.

Lemma sortMoves_nonempty l : l <> [] -> sortMoves l <> [].
Proof.
  unfold sortMoves.
  assert (H : forall l acc, acc <> [] -> fold_left (fun acc m => insertByScore m acc) l acc <> []).
  { clear l. induction l as [|x t IH]; intros acc Hacc; simpl; [exact Hacc|].
    apply IH. destruct acc as [|y acc']; simpl; [discriminate|].
    destruct (sortScore2 y <? sortScore2 x); discriminate. }
  destruct l as [|x t]; [congruence|]. intros _. simpl. apply H. discriminate.
Qed.

(** With every draw equal to one tenth, the easy level always
    substitutes, and always the first move of the ordering. *)
Lemma substitute_easy_tenth sorted bm n :
  sorted <> [] ->
  substitute easy (fun _ => 1 # 10) sorted bm n = (nth_error sorted 0, S (S n)).
Proof.
  intros Hne.
  assert (Hmin : Z.min 3 (Z.of_nat (List.length sorted)) = 1
                 \/ Z.min 3 (Z.of_nat (List.length sorted)) = 2
                 \/ Z.min 3 (Z.of_nat (List.length sorted)) = 3).
  { destruct sorted as [|x [|y [|z t]]]; [congruence| | |];
      cbn [List.length]; lia. }
  unfold substitute, below, pickAmong.
  destruct Hmin as [-> | [-> | ->]]; reflexivity.
Qed.

Lemma minimax_active_step difficulty random evaluatePosition d n gs a b mx c m0 l0 gs1 :
  status gs = active ->
  getAllPossibleMoves gs (currentPlayer gs) = (Some (m0 :: l0), gs1) ->
  minimax difficulty random evaluatePosition (S d) n gs a b mx c
  = match searchLoop
            (fun n' g a' b' =>
               fst (minimax difficulty random evaluatePosition d n' g a' b' (negb mx) c))
            gs1 mx (sortMoves (m0 :: l0))
            (mkLoopState a b None (if mx then NegInf else PosInf) []
                         (n + idDraws gs (currentPlayer gs))%nat)
    with
    | None => (None, gs1)
    | Some st =>
        let (bestMove, n') :=
          substitute difficulty random (sortMoves (m0 :: l0))
                     (ls_bestMove st) (ls_draw st) in
        (Some (mkAIMove bestMove (ls_bestEvaluation st)
                 (Z.of_nat (maxDepth difficulty) - Z.of_nat (S d))
                 (ls_principalVariation st), n'), gs1)
    end.
Proof.
  intros Hst Hall. cbn [minimax]. rewrite Hst. cbn [GameStatus_eqb negb].
  rewrite (getAllPossibleMoves_drawing _ _ Hall). reflexivity.
Qed.

Lemma minimax_easy_root evaluatePosition d n gs a b mx c l gs1 :
  status gs = active ->
  getAllPossibleMoves gs (currentPlayer gs) = (Some l, gs1) ->
  l <> [] ->
  searchable (S d) gs = true ->
  exists r n',
    minimax easy (fun _ => 1 # 10) evaluatePosition (S d) n gs a b mx c
    = (Some (r, n'), gs1)
    /\ ai_move r = nth_error (sortMoves l) 0.
Proof.
  intros Hst Hall Hne Hs.
  destruct (minimax_succeeds easy (fun _ => 1 # 10) evaluatePosition (S d) gs Hs
                             n a b mx c) as [r [n' Hr]].
  destruct l as [|m0 l0]; [congruence|].
  rewrite (@minimax_active_step easy (fun _ => 1 # 10) evaluatePosition
             d n gs a b mx c m0 l0 gs1 Hst Hall) in Hr |- *.
  destruct (searchLoop _ gs1 mx (sortMoves (m0 :: l0)) _) as [st|];
    [|discriminate Hr].
  rewrite substitute_easy_tenth by (apply sortMoves_nonempty; discriminate).
  eexists; eexists. split; reflexivity.
Qed.

(** ** The move the search hands back *)

Lemma rejectedAsIllegal_true gs m :
  rejectedAsIllegal gs m = true ->
  exists v,
    fst (validateMove (move_piece m) (move_to m) gs) = Some v
    /\ mv_isValid v = false /\ mv_reason v = Some reasonIllegalMove.
Proof.
  unfold rejectedAsIllegal.
  destruct (fst (validateMove (move_piece m) (move_to m) gs)) as [v|]; [|discriminate].
  intros H. apply andb_true_iff in H. destruct H as [H1 H2].
  exists v. split; [reflexivity|]. split.
  - apply negb_true_iff in H1. exact H1.
  - destruct (mv_reason v) as [r|]; [|discriminate].
    apply String.eqb_eq in H2. congruence.
Qed.

(** C3 (the code at the failing input).  The initial position is active
    and White has 20 legal moves.  On the easy level, with every random
    draw equal to 0.1 and whatever the static evaluation returns,
    [getBestMove] for White returns the move d2-d4 together with the
    state its candidate generation has left in the caller's object, and
    [validateMove] on that state rejects the returned move as illegal
    for its piece. *)
Theorem getBestMove_returns_rejected_move evaluatePosition :
  status initialGameState = active
  /\ legalMoveCount initialGameState = Some 20%nat
  /\ exists result gs1 m v,
       getBestMove easy (fun _ => 1 # 10) evaluatePosition initialGameState white
       = (Some result, gs1)
       /\ ai_move result = Some m
       /\ move_from m = square fd 2 /\ move_to m = square fd 4
       /\ fst (validateMove (move_piece m) (move_to m) gs1) = Some v
       /\ mv_isValid v = false /\ mv_reason v = Some reasonIllegalMove.
Proof.
  split; [reflexivity|]. split; [by_computation|].
  assert (Hc : firstCandidateCheck initialGameState (square fd 2) (square fd 4) = true)
    by by_computation.
  assert (Hs : searchable 2 initialGameState = true)
    by (apply searchable_sound; exact sound_initial).
  unfold firstCandidateCheck in Hc.
  destruct (getAllPossibleMoves initialGameState (currentPlayer initialGameState))
    as [[l|] gs1] eqn:Hall; [|discriminate Hc].
  destruct (nth_error (sortMoves l) 0) as [m|] eqn:Hm; [|discriminate Hc].
  apply andb_true_iff in Hc. destruct Hc as [Hc Hrej].
  apply andb_true_iff in Hc. destruct Hc as [Hfrom Hto].
  apply Position_eqb_eq in Hfrom, Hto.
  apply rejectedAsIllegal_true in Hrej. destruct Hrej as [v [Hv [Hv1 Hv2]]].
  assert (Hne : l <> []) by (intros ->; discriminate Hm).
  destruct (@minimax_easy_root evaluatePosition 1 1 initialGameState
              NegInf PosInf true white l gs1 eq_refl Hall Hne Hs)
    as [r [n' [Hmin Hmove]]].
  exists r, gs1, m, v.
  unfold getBestMove. change (maxDepth easy) with 2%nat.
  rewrite Hmin. rewrite Hmove, Hm. auto 10.
Qed.

(** ** Alpha-beta against plain minimax *)

Lemma emb_ltb M a b :
  magnitude a < M -> magnitude b < M -> Num_ltb a b = (emb M a <? emb M b).
Proof.
  destruct a, b; simpl; intros Ha Hb; symmetry;
    try (apply Z.ltb_lt; lia); try (apply Z.ltb_ge; lia); reflexivity.
Qed.

Lemma emb_range M a : magnitude a < M -> - M <= emb M a <= M.
Proof. destruct a; simpl; lia. Qed.

Lemma emb_inj M a b :
  magnitude a < M -> magnitude b < M -> emb M a = emb M b -> a = b.
Proof.
  destruct a, b; simpl; intros Ha Hb E; try reflexivity; try lia.
  f_equal; exact E.
Qed.

Lemma emb_max M a b :
  magnitude a < M -> magnitude b < M ->
  emb M (Num_max a b) = Z.max (emb M a) (emb M b)
  /\ magnitude (Num_max a b) < M.
Proof.
  intros Ha Hb. unfold Num_max. rewrite (@emb_ltb M a b Ha Hb).
  destruct (Z.ltb_spec (emb M a) (emb M b)); split; try assumption; lia.
Qed.

Lemma emb_min M a b :
  magnitude a < M -> magnitude b < M ->
  emb M (Num_min a b) = Z.min (emb M a) (emb M b)
  /\ magnitude (Num_min a b) < M.
Proof.
  intros Ha Hb. unfold Num_min. rewrite (@emb_ltb M b a Hb Ha).
  destruct (Z.ltb_spec (emb M b) (emb M a)); split; try assumption; lia.
Qed.

Lemma agrees_emb M a b v r :
  magnitude a < M -> magnitude b < M -> magnitude v < M -> magnitude r < M ->
  agrees a b v r <->
  ((emb M a < emb M v -> emb M v < emb M b -> emb M r = emb M v)
   /\ (emb M v <= emb M a -> emb M r <= emb M a)
   /\ (emb M b <= emb M v -> emb M b <= emb M r)).
Proof.
  intros Ha Hb Hv Hr. unfold agrees, Num_leb.
  rewrite (@emb_ltb M a v Ha Hv), (@emb_ltb M v b Hv Hb), (@emb_ltb M a r Ha Hr),
    (@emb_ltb M r b Hr Hb).
  rewrite !negb_true_iff, !Z.ltb_lt, !Z.ltb_ge.
  split; intros [H1 [H2 H3]]; repeat split; auto.
  - intros. f_equal. auto.
  - intros. apply (@emb_inj M r v Hr Hv). auto.
Qed.

Lemma bound_exists (l : list Num) :
  exists M, 0 <= M /\ Forall (fun x => magnitude x < M) l.
Proof.
  induction l as [|x t [M [H0 HM]]].
  - exists 0. split; [lia|constructor].
  - assert (0 <= magnitude x) by (destruct x; simpl; lia).
    exists (M + magnitude x + 1). split; [lia|]. constructor.
    + lia.
    + eapply Forall_impl; [|exact HM]. simpl. intros y Hy. lia.
Qed.

Ltac with_bound M l :=
  let H := fresh "HM" in
  destruct (bound_exists l) as [M [_ H]];
  repeat match type of H with
         | Forall _ (_ :: _) =>
             let Hx := fresh "Hb" in
             let Ht := fresh "HM" in
             inversion H as [|? ? Hx Ht]; subst; clear H; rename Ht into H
         end;
  clear H.

Ltac split_extrema :=
  repeat match goal with
         | H : context [Z.max ?x ?y] |- _ =>
             destruct (Z.max_spec x y) as [[? ->]|[? ->]]
         | |- context [Z.max ?x ?y] =>
             destruct (Z.max_spec x y) as [[? ->]|[? ->]]
         | H : context [Z.min ?x ?y] |- _ =>
             destruct (Z.min_spec x y) as [[? ->]|[? ->]]
         | |- context [Z.min ?x ?y] =>
             destruct (Z.min_spec x y) as [[? ->]|[? ->]]
         end.

Lemma agrees_refl a b v : agrees a b v v.
Proof. unfold agrees; auto. Qed.

Lemma agrees_root v r : agrees NegInf PosInf v r -> r = v.
Proof.
  with_bound M [NegInf; PosInf; v; r].
  intros H. apply (@agrees_emb M) in H; auto.
  apply (@emb_inj M r v); auto.
  pose proof (@emb_range M v). pose proof (@emb_range M r). simpl in *. lia.
Qed.

Lemma absorb_max_inv a0 b best pbest e r :
  Num_ltb (Num_max a0 best) b = true ->
  agrees a0 b pbest best ->
  agrees (Num_max a0 best) b e r ->
  agrees a0 b (Num_max pbest e) (Num_max best r)
  /\ Num_max (Num_max a0 best) r = Num_max a0 (Num_max best r).
Proof.
  with_bound M [a0; b; best; pbest; e; r].
  destruct (@emb_max M a0 best) as [E1 B1]; auto.
  destruct (@emb_max M pbest e) as [E2 B2]; auto.
  destruct (@emb_max M best r) as [E3 B3]; auto.
  destruct (@emb_max M (Num_max a0 best) r) as [E4 B4]; auto.
  destruct (@emb_max M a0 (Num_max best r)) as [E5 B5]; auto.
  intros Hlt A1 A2.
  rewrite (@emb_ltb M (Num_max a0 best) b) in Hlt by auto. apply Z.ltb_lt in Hlt.
  apply (@agrees_emb M) in A1; auto. apply (@agrees_emb M) in A2; auto.
  rewrite E1 in *.
  split.
  - apply (@agrees_emb M); auto. rewrite E2, E3.
    clear - Hlt A1 A2. split_extrema; lia.
  - apply (@emb_inj M _ _ B4 B5). rewrite E4, E5, E3. lia.
Qed.

Lemma absorb_min_inv a b0 best pbest e r :
  Num_ltb a (Num_min b0 best) = true ->
  agrees a b0 pbest best ->
  agrees a (Num_min b0 best) e r ->
  agrees a b0 (Num_min pbest e) (Num_min best r)
  /\ Num_min (Num_min b0 best) r = Num_min b0 (Num_min best r).
Proof.
  with_bound M [a; b0; best; pbest; e; r].
  destruct (@emb_min M b0 best) as [E1 B1]; auto.
  destruct (@emb_min M pbest e) as [E2 B2]; auto.
  destruct (@emb_min M best r) as [E3 B3]; auto.
  destruct (@emb_min M (Num_min b0 best) r) as [E4 B4]; auto.
  destruct (@emb_min M b0 (Num_min best r)) as [E5 B5]; auto.
  intros Hlt A1 A2.
  rewrite (@emb_ltb M a (Num_min b0 best)) in Hlt by auto. apply Z.ltb_lt in Hlt.
  apply (@agrees_emb M) in A1; auto. apply (@agrees_emb M) in A2; auto.
  rewrite E1 in *.
  split.
  - apply (@agrees_emb M); auto. rewrite E2, E3.
    clear - Hlt A1 A2. split_extrema; lia.
  - apply (@emb_inj M _ _ B4 B5). rewrite E4, E5, E3. lia.
Qed.

(** A cut-off at a maximising node: the value found already reaches
    [beta], and so does the true value, which is no smaller. *)
Lemma cutoff_max a0 b best pbest v :
  Num_ltb a0 b = true ->
  agrees a0 b pbest best ->
  Num_leb b (Num_max a0 best) = true ->
  Num_leb pbest v = true ->
  agrees a0 b v best.
Proof.
  with_bound M [a0; b; best; pbest; v].
  destruct (@emb_max M a0 best) as [E1 B1]; auto.
  intros Hlt A1 Hcut Hge. unfold Num_leb in *.
  rewrite (@emb_ltb M a0 b) in Hlt by auto.
  rewrite (@emb_ltb M (Num_max a0 best) b) in Hcut by auto.
  rewrite (@emb_ltb M v pbest) in Hge by auto.
  apply negb_true_iff in Hcut, Hge. apply Z.ltb_ge in Hcut, Hge. apply Z.ltb_lt in Hlt.
  apply (@agrees_emb M) in A1; auto.
  apply (@agrees_emb M); auto. rewrite E1 in *.
  clear - Hlt A1 Hcut Hge. split_extrema; lia.
Qed.

Lemma cutoff_min a b0 best pbest v :
  Num_ltb a b0 = true ->
  agrees a b0 pbest best ->
  Num_leb (Num_min b0 best) a = true ->
  Num_leb v pbest = true ->
  agrees a b0 v best.
Proof.
  with_bound M [a; b0; best; pbest; v].
  destruct (@emb_min M b0 best) as [E1 B1]; auto.
  intros Hlt A1 Hcut Hge. unfold Num_leb in *.
  rewrite (@emb_ltb M a b0) in Hlt by auto.
  rewrite (@emb_ltb M a (Num_min b0 best)) in Hcut by auto.
  rewrite (@emb_ltb M pbest v) in Hge by auto.
  apply negb_true_iff in Hcut, Hge. apply Z.ltb_ge in Hcut, Hge. apply Z.ltb_lt in Hlt.
  apply (@agrees_emb M) in A1; auto.
  apply (@agrees_emb M); auto. rewrite E1 in *.
  clear - Hlt A1 Hcut Hge. split_extrema; lia.
Qed.

Lemma Num_leb_refl a : Num_leb a a = true.
Proof. destruct a; unfold Num_leb; simpl; try reflexivity. rewrite Z.ltb_irrefl. reflexivity. Qed.

Lemma Num_leb_trans a b c : Num_leb a b = true -> Num_leb b c = true -> Num_leb a c = true.
Proof.
  with_bound M [a; b; c]. unfold Num_leb.
  rewrite (@emb_ltb M b a), (@emb_ltb M c b), (@emb_ltb M c a) by auto.
  rewrite !negb_true_iff, !Z.ltb_ge. lia.
Qed.

Lemma Num_max_ge_left a b : Num_leb a (Num_max a b) = true.
Proof.
  with_bound M [a; b]. destruct (@emb_max M a b) as [E B]; auto.
  unfold Num_leb. rewrite (@emb_ltb M (Num_max a b) a) by auto.
  rewrite negb_true_iff, Z.ltb_ge, E. lia.
Qed.

Lemma Num_min_le_left a b : Num_leb (Num_min a b) a = true.
Proof.
  with_bound M [a; b]. destruct (@emb_min M a b) as [E B]; auto.
  unfold Num_leb. rewrite (@emb_ltb M a (Num_min a b)) by auto.
  rewrite negb_true_iff, Z.ltb_ge, E. lia.
Qed.

Lemma Num_max_lt_left a b c : Num_ltb (Num_max a b) c = true -> Num_ltb a c = true.
Proof.
  with_bound M [a; b; c]. destruct (@emb_max M a b) as [E B]; auto.
  rewrite (@emb_ltb M (Num_max a b) c), (@emb_ltb M a c) by auto.
  rewrite !Z.ltb_lt, E. lia.
Qed.

Lemma Num_min_lt_left a b c : Num_ltb c (Num_min a b) = true -> Num_ltb c a = true.
Proof.
  with_bound M [a; b; c]. destruct (@emb_min M a b) as [E B]; auto.
  rewrite (@emb_ltb M c (Num_min a b)), (@emb_ltb M c a) by auto.
  rewrite !Z.ltb_lt, E. lia.
Qed.

Lemma Num_max_NegInf a : Num_max a NegInf = a.
Proof. destruct a; reflexivity. Qed.

Lemma Num_min_PosInf a : Num_min a PosInf = a.
Proof. destruct a; reflexivity. Qed.

Lemma plainLoop_max_ge recurse gs sorted : forall best n v n',
  plainLoop recurse gs true sorted best n = Some (v, n') -> Num_leb best v = true.
Proof.
  induction sorted as [|m rest IH]; intros best n v n' H; simpl in H.
  - inversion H; subst. apply Num_leb_refl.
  - destruct (aiMakeMove gs m) as [g|]; [|discriminate].
    destruct (recurse (S n) g) as [[e k]|]; [|discriminate].
    apply IH in H. eapply Num_leb_trans; [apply Num_max_ge_left|exact H].
Qed.

Lemma plainLoop_min_le recurse gs sorted : forall best n v n',
  plainLoop recurse gs false sorted best n = Some (v, n') -> Num_leb v best = true.
Proof.
  induction sorted as [|m rest IH]; intros best n v n' H; simpl in H.
  - inversion H; subst. apply Num_leb_refl.
  - destruct (aiMakeMove gs m) as [g|]; [|discriminate].
    destruct (recurse (S n) g) as [[e k]|]; [|discriminate].
    apply IH in H. eapply Num_leb_trans; [exact H|apply Num_min_le_left].
Qed.

Lemma childrenAgree_tail recurse precurse gs m rest :
  childrenAgree recurse precurse gs (m :: rest) ->
  childrenAgree recurse precurse gs rest.
Proof. intros H m' g Hin. apply H. right; exact Hin. Qed.

Lemma searchLoop_cons recurse gs mx m rest st :
  searchLoop recurse gs mx (m :: rest) st
  = match aiMakeMove gs m with
    | None => None
    | Some g =>
        match recurse (S (ls_draw st)) g (ls_alpha st) (ls_beta st) with
        | None => None
        | Some (result, n) =>
            if Num_leb (ls_beta (absorb mx m result n st))
                       (ls_alpha (absorb mx m result n st))
            then Some (absorb mx m result n st)
            else searchLoop recurse gs mx rest (absorb mx m result n st)
        end
    end.
Proof. reflexivity. Qed.

Lemma searchLoop_max_agrees recurse precurse gs a0 sorted :
  childrenAgree recurse precurse gs sorted ->
  forall st pbest np v np',
  ls_alpha st = Num_max a0 (ls_bestEvaluation st) ->
  Num_ltb (ls_alpha st) (ls_beta st) = true ->
  agrees a0 (ls_beta st) pbest (ls_bestEvaluation st) ->
  plainLoop precurse gs true sorted pbest np = Some (v, np') ->
  exists st',
    searchLoop recurse gs true sorted st = Some st'
    /\ agrees a0 (ls_beta st) v (ls_bestEvaluation st').
Proof.
  induction sorted as [|m rest IH]; intros Hch st pbest np v np' Ha Hlt Hag Hp;
    simpl in Hp.
  - inversion Hp; subst. eexists; split; [reflexivity|exact Hag].
  - rewrite searchLoop_cons.
    destruct (aiMakeMove gs m) as [g|] eqn:Hg; [|discriminate].
    destruct (precurse (S np) g) as [[e k]|] eqn:He; [|discriminate].
    destruct (Hch m g (or_introl eq_refl) Hg (S np) e k He (S (ls_draw st))
                  (ls_alpha st) (ls_beta st) Hlt) as [r [n' [Hr Hcr]]].
    rewrite Hr.
    rewrite Ha in Hlt, Hcr.
    destruct (absorb_max_inv Hlt Hag Hcr) as [Hag' Ha'].
    set (st' := absorb true m r n' st) in *.
    assert (Hbest : ls_bestEvaluation st'
                    = Num_max (ls_bestEvaluation st) (ai_evaluation r)) by reflexivity.
    assert (Halpha : ls_alpha st' = Num_max a0 (ls_bestEvaluation st')).
    { rewrite Hbest, <- Ha'. simpl. rewrite Ha. reflexivity. }
    assert (Hbeta : ls_beta st' = ls_beta st) by reflexivity.
    destruct (Num_leb (ls_beta st') (ls_alpha st')) eqn:Hcut.
    + eexists; split; [reflexivity|].
      rewrite Hbest. rewrite Hbeta, Halpha, Hbest in Hcut.
      eapply cutoff_max; [|exact Hag'|exact Hcut|].
      * eapply Num_max_lt_left; exact Hlt.
      * eapply plainLoop_max_ge; exact Hp.
    + rewrite <- Hbeta. eapply IH.
      * eapply childrenAgree_tail; exact Hch.
      * exact Halpha.
      * unfold Num_leb in Hcut. apply negb_false_iff in Hcut. exact Hcut.
      * rewrite Hbeta, Hbest. exact Hag'.
      * exact Hp.
Qed.

Lemma searchLoop_min_agrees recurse precurse gs b0 sorted :
  childrenAgree recurse precurse gs sorted ->
  forall st pbest np v np',
  ls_beta st = Num_min b0 (ls_bestEvaluation st) ->
  Num_ltb (ls_alpha st) (ls_beta st) = true ->
  agrees (ls_alpha st) b0 pbest (ls_bestEvaluation st) ->
  plainLoop precurse gs false sorted pbest np = Some (v, np') ->
  exists st',
    searchLoop recurse gs false sorted st = Some st'
    /\ agrees (ls_alpha st) b0 v (ls_bestEvaluation st').
Proof.
  induction sorted as [|m rest IH]; intros Hch st pbest np v np' Hb Hlt Hag Hp;
    simpl in Hp.
  - inversion Hp; subst. eexists; split; [reflexivity|exact Hag].
  - rewrite searchLoop_cons.
    destruct (aiMakeMove gs m) as [g|] eqn:Hg; [|discriminate].
    destruct (precurse (S np) g) as [[e k]|] eqn:He; [|discriminate].
    destruct (Hch m g (or_introl eq_refl) Hg (S np) e k He (S (ls_draw st))
                  (ls_alpha st) (ls_beta st) Hlt) as [r [n' [Hr Hcr]]].
    rewrite Hr.
    rewrite Hb in Hlt, Hcr.
    destruct (absorb_min_inv Hlt Hag Hcr) as [Hag' Hb'].
    set (st' := absorb false m r n' st) in *.
    assert (Hbest : ls_bestEvaluation st'
                    = Num_min (ls_bestEvaluation st) (ai_evaluation r)) by reflexivity.
    assert (Hbeta : ls_beta st' = Num_min b0 (ls_bestEvaluation st')).
    { rewrite Hbest, <- Hb'. simpl. rewrite Hb. reflexivity. }
    assert (Halpha : ls_alpha st' = ls_alpha st) by reflexivity.
    destruct (Num_leb (ls_beta st') (ls_alpha st')) eqn:Hcut.
    + eexists; split; [reflexivity|].
      rewrite Hbest. rewrite Halpha, Hbeta, Hbest in Hcut.
      eapply cutoff_min; [|exact Hag'|exact Hcut|].
      * eapply Num_min_lt_left; exact Hlt.
      * eapply plainLoop_min_le; exact Hp.
    + rewrite <- Halpha. eapply IH.
      * eapply childrenAgree_tail; exact Hch.
      * exact Hbeta.
      * unfold Num_leb in Hcut. apply negb_false_iff in Hcut. exact Hcut.
      * rewrite Halpha, Hbest. exact Hag'.
      * exact Hp.
Qed.

Lemma alphabeta_agrees difficulty random staticEval depth :
  forall gs mx c n1 v n1',
  plainMinimax (fixedEvaluation staticEval) depth n1 gs mx c = Some (v, n1') ->
  forall n2 a b, Num_ltb a b = true ->
  exists r n2',
    fst (minimax difficulty random (fixedEvaluation staticEval)
                 depth n2 gs a b mx c) = Some (r, n2')
    /\ agrees a b v (ai_evaluation r).
Proof.
  induction depth as [|d IH]; intros gs mx c n1 v n1' Hp n2 a b Hlt.
  - simpl in Hp |- *. inversion Hp; subst.
    eexists; eexists; split; [reflexivity|apply agrees_refl].
  - cbn [minimax plainMinimax] in Hp |- *.
    destruct (negb (GameStatus_eqb (status gs) active)).
    + simpl in Hp |- *. inversion Hp; subst.
      eexists; eexists; split; [reflexivity|apply agrees_refl].
    + destruct (getAllPossibleMovesDrawing gs (currentPlayer gs)) as [[[l k0]|] gs1];
        [|discriminate Hp].
      destruct l as [|m0 l0].
      * inversion Hp; subst. simpl.
        eexists; eexists; split; [reflexivity|apply agrees_refl].
      * assert (Hch : childrenAgree
                        (fun n' g a' b' =>
                           fst (minimax difficulty random (fixedEvaluation staticEval)
                                        d n' g a' b' (negb mx) c))
                        (fun n' g =>
                           plainMinimax (fixedEvaluation staticEval) d n' g (negb mx) c)
                        gs1 (sortMoves (m0 :: l0))).
        { intros m g _ _ k pv pk Hpv n a' b' Hlt'.
          exact (IH g (negb mx) c k pv pk Hpv n a' b' Hlt'). }
        destruct mx.
        -- destruct (@searchLoop_max_agrees _ _ gs1 a (sortMoves (m0 :: l0)) Hch
                       (mkLoopState a b None NegInf [] (n2 + k0)%nat) NegInf
                       (n1 + k0)%nat v n1'
                       (eq_sym (Num_max_NegInf a)) Hlt (agrees_refl a b NegInf) Hp)
             as [st' [Hs Hag]].
           cbn [ls_beta] in Hag. rewrite Hs.
           destruct (substitute difficulty random (sortMoves (m0 :: l0))
                                (ls_bestMove st') (ls_draw st')) as [bm n'].
           simpl. eexists; eexists; split; [reflexivity|exact Hag].
        -- destruct (@searchLoop_min_agrees _ _ gs1 b (sortMoves (m0 :: l0)) Hch
                       (mkLoopState a b None PosInf [] (n2 + k0)%nat) PosInf
                       (n1 + k0)%nat v n1'
                       (eq_sym (Num_min_PosInf b)) Hlt (agrees_refl a b PosInf) Hp)
             as [st' [Hs Hag]].
           cbn [ls_alpha] in Hag. rewrite Hs.
           destruct (substitute difficulty random (sortMoves (m0 :: l0))
                                (ls_bestMove st') (ls_draw st')) as [bm n'].
           simpl. eexists; eexists; split; [reflexivity|exact Hag].
Qed.

(** C9 (as amended).  When the static evaluation is a fixed function of
    the position, drawing no random number, then on every sound position
    and at every depth plain minimax returns a value, the alpha-beta
    search from the full window returns as well, and the evaluation it
    reports is the plain minimax value.  This holds at every difficulty:
    the substitution of the easier levels replaces the move, not the
    evaluation. *)
Theorem alphabeta_equals_plain difficulty random staticEval depth gs aiColor n :
  sound gs ->
  exists v n' r k,
    plainMinimax (fixedEvaluation staticEval) depth n gs true aiColor = Some (v, n')
    /\ fst (minimax difficulty random (fixedEvaluation staticEval)
                    depth n gs NegInf PosInf true aiColor) = Some (r, k)
    /\ ai_evaluation r = v.
Proof.
  intros Hs.
  destruct (@plainMinimax_returns (fixedEvaluation staticEval) depth gs n true aiColor Hs)
    as [v [n' Hp]].
  destruct (@alphabeta_agrees difficulty random staticEval depth gs true aiColor n v n'
              Hp n NegInf PosInf eq_refl)
    as [r [k [Hr Hag]]].
  exists v, n', r, k. split; [exact Hp|]. split; [exact Hr|].
  apply agrees_root. exact Hag.
Qed.

(** C9 (counterexample).  With the substitution disabled (hard level)
    but the evaluation drawing its random numbers as in the source, the
    two searches differ on [endgameState] at depth 2 when the first
    fifty calls of [Math.random()] return 0.9 and the later ones 0.1,
    every call counted: those of the evaluation and those the engine
    makes for the id of each move it builds.  The cut-offs of alpha-beta
    skip six leaves, so the search has finished after 46 draws, all of
    them 0.9, and reports -7.010; plain minimax takes 64 draws, its last
    leaves meet the draws 0.1, and it computes -6.890. *)
Lemma alphabeta_differs_with_drawn_evaluation :
  exists r v,
    fst (minimax hard fiftyHighDraws (evaluatePositionDrawn fiftyHighDraws)
                 2 0 endgameState NegInf PosInf true white) = Some (r, 46%nat)
    /\ plainMinimax (evaluatePositionDrawn fiftyHighDraws)
                    2 0 endgameState true white = Some (v, 64%nat)
    /\ ai_evaluation r = Fin (-7010)
    /\ v = Fin (-6890)
    /\ ai_evaluation r <> v.
Proof.
  eexists; eexists.
  split; [vm_compute; reflexivity|].
  split; [vm_compute; reflexivity|].
  split; [reflexivity|]. split; [reflexivity|]. simpl. discriminate.
Qed.

Lemma alphabeta_equals_plain_witness :
  exists v n' r k,
    plainMinimax (fixedEvaluation materialFor) 2 0 endgameState true white = Some (v, n')
    /\ fst (minimax hard alternatingDraws (fixedEvaluation materialFor)
                    2 0 endgameState NegInf PosInf true white) = Some (r, k)
    /\ ai_evaluation r = v.
Proof.
  apply (@alphabeta_equals_plain hard alternatingDraws materialFor
           2 endgameState white 0).
  split.
  - split; [reflexivity|repeat constructor].
  - apply consistentb_true. reflexivity.
Defined.

(** ** The ray loop needs no more than eight iterations *)

Lemma stepsLeft_valid dr dc cur :
  isValidPosition cur = true -> 1 <= stepsLeft dr dc cur <= 8.
Proof.
  intros V. apply isValidPosition_true in V. unfold stepsLeft.
  destruct (dr =? 1), (dr =? -1), (dc =? 1); cbv iota; lia.
Qed.

Lemma stepsLeft_next dr dc cur :
  (dr = 1 \/ dr = -1 \/ (dr = 0 /\ (dc = 1 \/ dc = -1))) ->
  stepsLeft dr dc (mkPosition (row cur + dr) (col cur + dc)) = stepsLeft dr dc cur - 1.
Proof.
  unfold stepsLeft. cbn [row col].
  intros [-> | [-> | [-> [-> | ->]]]]; cbn [Z.eqb Pos.eqb]; lia.
Qed.

Lemma linearFrom_enough gs p dr dc :
  (dr = 1 \/ dr = -1 \/ (dr = 0 /\ (dc = 1 \/ dc = -1))) ->
  forall n m cur,
    stepsLeft dr dc cur <= Z.of_nat n -> stepsLeft dr dc cur <= Z.of_nat m ->
    linearFrom n gs p dr dc cur = linearFrom m gs p dr dc cur.
Proof.
  intros Hd.
  assert (Hout : forall k cur, stepsLeft dr dc cur <= 0 ->
                               linearFrom k gs p dr dc cur = []).
  { intros [|k] cur H; simpl; [reflexivity|].
    destruct (isValidPosition cur) eqn:V; [|reflexivity].
    pose proof (@stepsLeft_valid dr dc cur V). lia. }
  induction n as [|n IH]; intros m cur Hn Hm.
  - rewrite (Hout 0%nat) by (simpl in Hn; lia).
    rewrite (Hout m) by (simpl in Hn; lia). reflexivity.
  - destruct m as [|m].
    + rewrite (Hout (S n)) by (simpl in Hm; lia).
      rewrite (Hout 0%nat) by (simpl in Hm; lia). reflexivity.
    + simpl. destruct (isValidPosition cur) eqn:V; [|reflexivity].
      destruct (getPieceAt gs cur); [reflexivity|].
      f_equal. apply IH; rewrite stepsLeft_next by exact Hd; lia.
Qed.

(** Every ray of the rook's and the bishop's directions is complete
    after eight iterations: more fuel changes nothing. *)
Lemma linearFrom_fuel gs p d cur fuel :
  In d (rookDirections ++ bishopDirections) -> (8 <= fuel)%nat ->
  linearFrom fuel gs p (fst d) (snd d) cur = linearFrom 8 gs p (fst d) (snd d) cur.
Proof.
  intros Hd Hf.
  assert (Hdir : fst d = 1 \/ fst d = -1 \/ (fst d = 0 /\ (snd d = 1 \/ snd d = -1))).
  { simpl in Hd.
    repeat (destruct Hd as [<- | Hd]; [simpl; lia|]). destruct Hd. }
  destruct (isValidPosition cur) eqn:V.
  - pose proof (@stepsLeft_valid (fst d) (snd d) cur V).
    apply linearFrom_enough; [exact Hdir|lia|simpl; lia].
  - destruct fuel; [lia|]. simpl. rewrite V. reflexivity.
Qed.

(** ** Perft from the initial position *)

(** C6.  From the standard initial position the number of sequences of
    legal plies, each applied by [makeMove], is 20 at depth 1, 400 at
    depth 2 and 8902 at depth 3. *)
Theorem perft_initial :
  perft 1 initialGameState = 20%nat
  /\ perft 2 initialGameState = 400%nat
  /\ perft 3 initialGameState = 8902%nat.
Proof.
  rewrite !(perft_bulk _ sound_initial). by_computation.
Qed.

(** ** Squares and their algebraic names *)

Lemma below_eight z : 0 <= z < 8 ->
  z = 0 \/ z = 1 \/ z = 2 \/ z = 3 \/ z = 4 \/ z = 5 \/ z = 6 \/ z = 7.
Proof. lia. Qed.

Ltac each_of_eight H :=
  apply below_eight in H;
  destruct H as [H|[H|[H|[H|[H|[H|[H|H]]]]]]]; subst.

(** X1.  Round trip from a square: for every position on the board,
    [algebraicToPosition (positionToAlgebraic p)] is [p]. *)
Theorem algebraicToPosition_positionToAlgebraic p :
  isValidPosition p = true -> algebraicToPosition (positionToAlgebraic p) = p.
Proof.
  intros V. apply isValidPosition_true in V. destruct p as [r c].
  simpl in V. destruct V as [Hr Hc].
  each_of_eight Hr; each_of_eight Hc; reflexivity.
Qed.

Lemma algebraicToPosition_positionToAlgebraic_witness :
  algebraicToPosition (positionToAlgebraic (square fe 4)) = square fe 4.
Proof.
  apply algebraicToPosition_positionToAlgebraic. reflexivity.
Defined.

Lemma indexOf_interpolate l c :
  l = FILES \/ l = RANKS ->
  0 <= indexOf l (Some (String c EmptyString)) ->
  interpolate l (indexOf l (Some (String c EmptyString))) = String c EmptyString.
Proof.
  intros Hl. destruct c as [b0 b1 b2 b3 b4 b5 b6 b7].
  destruct Hl; subst l;
    destruct b0, b1, b2, b3, b4, b5, b6, b7; vm_compute;
      intros H; try reflexivity; exfalso; apply H; reflexivity.
Qed.

(** X2.  Round trip from a name: whenever [algebraicToPosition] yields
    a position on the board, the name of that position is the first two
    characters of the string it was given. *)
Theorem positionToAlgebraic_algebraicToPosition s :
  isValidPosition (algebraicToPosition s) = true ->
  positionToAlgebraic (algebraicToPosition s) = substring 0 2 s.
Proof.
  intros V. apply isValidPosition_true in V.
  unfold algebraicToPosition in *. cbv zeta in *. cbn [row col] in V.
  destruct s as [|c1 [|c2 rest]].
  - exfalso. vm_compute in V. destruct V as [[V _] _]. apply V; reflexivity.
  - assert (E : indexOf RANKS (charAt (String c1 EmptyString) 1) = -1) by reflexivity.
    rewrite E in V. lia.
  - unfold positionToAlgebraic. cbn [row col].
    change (charAt (String c1 (String c2 rest)) 0) with (Some (String c1 EmptyString)) in *.
    change (charAt (String c1 (String c2 rest)) 1) with (Some (String c2 EmptyString)) in *.
    rewrite (@indexOf_interpolate FILES c1) by (auto; lia).
    rewrite (@indexOf_interpolate RANKS c2) by (auto; lia).
    simpl. destruct rest; reflexivity.
Qed.

Lemma positionToAlgebraic_algebraicToPosition_witness :
  positionToAlgebraic (algebraicToPosition "e4+") = substring 0 2 "e4+".
Proof.
  apply positionToAlgebraic_algebraicToPosition. reflexivity.
Defined.

Lemma interpolate_length l i :
  l = FILES \/ l = RANKS ->
  String.length (interpolate l i) = if (0 <=? i) && (i <? 8) then 1%nat else 9%nat.
Proof.
  intros Hl.
  destruct ((0 <=? i) && (i <? 8)) eqn:E.
  - apply andb_true_iff in E. destruct E as [E1 E2].
    apply Z.leb_le in E1. apply Z.ltb_lt in E2.
    assert (H : 0 <= i < 8) by lia.
    each_of_eight H; destruct Hl; subst l; reflexivity.
  - unfold interpolate, arrayGet.
    destruct (i <? 0) eqn:N; [reflexivity|].
    apply Z.ltb_ge in N.
    assert (L : List.length l = 8%nat) by (destruct Hl; subst l; reflexivity).
    assert (G : (8 <= Z.to_nat i)%nat).
    { apply andb_false_iff in E. destruct E as [E|E].
      - apply Z.leb_gt in E. lia.
      - apply Z.ltb_ge in E. lia. }
    destruct (nth_error l (Z.to_nat i)) eqn:F; [|reflexivity].
    assert (nth_error l (Z.to_nat i) <> None) by congruence.
    apply nth_error_Some in H. lia.
Qed.

Lemma append_length a b :
  String.length (a ++ b)%string = (String.length a + String.length b)%nat.
Proof. induction a; simpl; auto. Qed.

(** X3.  A position off the board has no two-character name:
    [positionToAlgebraic p] has exactly two characters if and only if
    [p] is on the board (a missing file or rank prints as
    [undefined]). *)
Theorem positionToAlgebraic_length p :
  String.length (positionToAlgebraic p) = 2%nat <-> isValidPosition p = true.
Proof.
  unfold positionToAlgebraic. rewrite append_length.
  rewrite !interpolate_length by auto.
  unfold isValidPosition.
  destruct (0 <=? row p), (row p <? 8), (0 <=? col p), (col p <? 8);
    simpl; split; intros H; try reflexivity; try discriminate H; lia.
Qed.

(** ** The legality filter only removes moves *)

Lemma filterM_sublist {A} (f : A -> Engine bool) l : forall gs r gs',
  filterM f l gs = (Some r, gs') -> forall x, In x r -> In x l.
Proof.
  induction l as [|a l IH]; intros gs r gs' E x Hx.
  - inversion E; subst. exact Hx.
  - simpl in E. unfold bind in E.
    destruct (f a gs) as [[keep|] gs1] eqn:F; [|discriminate E].
    destruct (filterM f l gs1) as [[rest|] gs2] eqn:R; [|discriminate E].
    unfold ret in E. inversion E; subst.
    destruct keep.
    + destruct Hx as [<-|Hx]; [left; reflexivity|right; eapply IH; eauto].
    + right; eapply IH; eauto.
Qed.

Lemma getValidMoves_pseudoLegal gs p l gs' m :
  getValidMoves p gs = (Some l, gs') -> In m l -> In m (pseudoLegalMoves gs p).
Proof.
  unfold getValidMoves, bind, reads. intros E Hin.
  eapply filterM_sublist; eauto.
Qed.

(** X4.  Whatever state it is called on, every destination that
    [getValidMoves] returns is a square of the board. *)
Theorem getValidMoves_on_board gs p l gs' m :
  getValidMoves p gs = (Some l, gs') -> In m l -> isValidPosition (vm_to m) = true.
Proof.
  intros E Hin. apply (@pseudoLegalMoves_valid gs p).
  eapply getValidMoves_pseudoLegal; eauto.
Qed.

Lemma getValidMoves_on_board_witness :
  isValidPosition (vm_to (plainMove (square fe 3) false)) = true.
Proof.
  apply (@getValidMoves_on_board initialGameState
           (pieceOn initialGameState (square fe 2))
           [plainMove (square fe 3) false; plainMove (square fe 4) false]
           initialGameState).
  - vm_compute; reflexivity.
  - left; reflexivity.
Defined.

(** ** Capture flags and occupancy *)

Lemma PieceColor_neqb a b : negb (PieceColor_eqb a b) = true -> a <> b.
Proof. destruct a, b; simpl; intros H E; discriminate. Qed.

Lemma flag_empty gs p sq :
  getPieceAt gs sq = None -> flagMatchesBoard gs p (plainMove sq false).
Proof. intros E. unfold flagMatchesBoard. simpl. rewrite E. reflexivity. Qed.

Lemma flag_enemy gs p sq t :
  getPieceAt gs sq = Some t -> negb (PieceColor_eqb (piece_color t) (piece_color p)) = true ->
  flagMatchesBoard gs p (plainMove sq true).
Proof.
  intros E C. unfold flagMatchesBoard. simpl. rewrite E.
  split; [apply PieceColor_neqb; exact C|reflexivity].
Qed.

Lemma linearFrom_flag fuel gs p dr dc : forall cur m,
  In m (linearFrom fuel gs p dr dc cur) -> flagMatchesBoard gs p m.
Proof.
  induction fuel as [|k IH]; intros cur m Hin; [destruct Hin|].
  simpl in Hin. destruct (isValidPosition cur); [|destruct Hin].
  destruct (getPieceAt gs cur) as [t|] eqn:E.
  - destruct (negb (PieceColor_eqb (piece_color t) (piece_color p))) eqn:C;
      [|destruct Hin].
    destruct Hin as [<-|[]]. eapply flag_enemy; eauto.
  - destruct Hin as [<-|Hin]; [apply flag_empty; exact E|eapply IH; eauto].
Qed.

Lemma getLinearMoves_flag gs p ds m :
  In m (flat_map (getLinearMoves gs p) ds) -> flagMatchesBoard gs p m.
Proof.
  intros Hin. apply in_flat_map in Hin. destruct Hin as [d [_ Hin]].
  unfold getLinearMoves in Hin. eapply linearFrom_flag; eauto.
Qed.

Lemma stepMove_flag gs p sq m : In m (stepMove gs p sq) -> flagMatchesBoard gs p m.
Proof.
  unfold stepMove. destruct (isValidPosition sq); [|intros []].
  destruct (getPieceAt gs sq) as [t|] eqn:E.
  - destruct (negb (PieceColor_eqb (piece_color t) (piece_color p))) eqn:C;
      [|intros []].
    intros [<-|[]]. eapply flag_enemy; eauto.
  - intros [<-|[]]. apply flag_empty; exact E.
Qed.

Lemma kingStep_flag gs p sq m : In m (kingStep gs p sq) -> flagMatchesBoard gs p m.
Proof.
  unfold kingStep. destruct (isValidPosition sq); [|intros []].
  destruct (getPieceAt gs sq) as [t|] eqn:E.
  - destruct (negb (PieceColor_eqb (piece_color t) (piece_color p))) eqn:C;
      [|intros []].
    destruct (negb (isSquareUnderAttack gs sq (piece_color p))); [|intros []].
    intros [<-|[]]. eapply flag_enemy; eauto.
  - destruct (negb (isSquareUnderAttack gs sq (piece_color p))); [|intros []].
    intros [<-|[]]. apply flag_empty; exact E.
Qed.

Lemma canCastle_col gs k s c :
  canCastle gs k s = true -> In c (castleCols s) ->
  getPieceAt gs (mkPosition (row (piece_position k)) c) = None
  /\ isSquareUnderAttack gs (mkPosition (row (piece_position k)) c) (piece_color k) = false.
Proof.
  unfold canCastle. intros H Hin.
  rewrite forallb_forall in H. specialize (H c Hin). cbv zeta in H.
  apply andb_true_iff in H. destruct H as [H1 H2].
  split.
  - destruct (getPieceAt gs (mkPosition (row (piece_position k)) c));
      [discriminate H1|reflexivity].
  - apply negb_true_iff in H2. exact H2.
Qed.

Lemma castleMove_inv gs k s m :
  In m (castleMove gs k s) ->
  m = mkValidMove (mkPosition (row (piece_position k)) (castleTarget s))
                  false false true None
  /\ (exists r,
         getPieceAt gs (mkPosition (row (piece_position k)) (castleRookCol s)) = Some r
         /\ piece_hasMoved r = false)
  /\ canCastle gs k s = true.
Proof.
  unfold castleMove. cbv zeta. fold (castleRookCol s). fold (castleTarget s).
  destruct (getPieceAt gs (mkPosition (row (piece_position k)) (castleRookCol s)))
    as [r|] eqn:E; [|intros []].
  destruct (negb (piece_hasMoved r) && canCastle gs k s) eqn:C; [|intros []].
  apply andb_true_iff in C. destruct C as [C1 C2]. apply negb_true_iff in C1.
  intros [<-|[]]. split; [reflexivity|]. split; [|exact C2].
  exists r. split; [reflexivity|exact C1].
Qed.

Lemma castleTarget_in s : In (castleTarget s) (castleCols s).
Proof. destruct s; simpl; auto. Qed.

Lemma castleMove_flag gs k s m : In m (castleMove gs k s) -> flagMatchesBoard gs k m.
Proof.
  intros Hin. apply castleMove_inv in Hin. destruct Hin as [-> [_ C]].
  unfold flagMatchesBoard. cbn [vm_to vm_isCapture].
  destruct (@canCastle_col gs k s (castleTarget s) C (castleTarget_in s)) as [E _].
  rewrite E. reflexivity.
Qed.

Lemma getKingMoves_flag gs k m : In m (getKingMoves gs k) -> flagMatchesBoard gs k m.
Proof.
  unfold getKingMoves. intros Hin. apply in_app_or in Hin. destruct Hin as [Hin|Hin].
  - apply in_flat_map in Hin. destruct Hin as [d [_ Hin]]. eapply kingStep_flag; eauto.
  - destruct (negb (piece_hasMoved k) && negb (isInCheck gs (piece_color k)));
      [|destruct Hin].
    apply in_app_or in Hin. destruct Hin as [Hin|Hin]; eapply castleMove_flag; eauto.
Qed.

Lemma pawnForward_flag gs p m : In m (pawnForward gs p) -> flagMatchesBoard gs p m.
Proof.
  unfold pawnForward. cbv zeta.
  set (one := mkPosition (row (piece_position p) + direction (piece_color p))
                         (col (piece_position p))).
  set (two := mkPosition (row (piece_position p) + 2 * direction (piece_color p))
                         (col (piece_position p))).
  destruct (isValidPosition one && negb (isSome (getPieceAt gs one))) eqn:C1;
    [|intros []].
  apply andb_true_iff in C1. destruct C1 as [_ C1].
  destruct (getPieceAt gs one) eqn:E1; [discriminate C1|].
  intros [<-|Hin].
  - unfold flagMatchesBoard. cbn [vm_to vm_isCapture]. rewrite E1. reflexivity.
  - destruct ((row (piece_position p) =? startRow (piece_color p))
              && isValidPosition two && negb (isSome (getPieceAt gs two))) eqn:C2;
      [|destruct Hin].
    apply andb_true_iff in C2. destruct C2 as [_ C2].
    destruct (getPieceAt gs two) eqn:E2; [discriminate C2|].
    destruct Hin as [<-|[]]. apply flag_empty; exact E2.
Qed.

Lemma pawnDiagonal_flag gs p d m :
  In m (pawnDiagonal gs p d) -> vm_isEnPassant m = false -> flagMatchesBoard gs p m.
Proof.
  unfold pawnDiagonal. cbv zeta.
  set (t := mkPosition (row (piece_position p) + direction (piece_color p))
                       (col (piece_position p) + d)).
  destruct (isValidPosition t); [|intros []].
  intros Hin NE. apply in_app_or in Hin. destruct Hin as [Hin|Hin].
  - destruct (getPieceAt gs t) as [q|] eqn:E; [|destruct Hin].
    destruct (negb (PieceColor_eqb (piece_color q) (piece_color p))) eqn:C;
      [|destruct Hin].
    destruct Hin as [<-|[]].
    unfold flagMatchesBoard. cbn [vm_to vm_isCapture]. rewrite E.
    split; [apply PieceColor_neqb; exact C|reflexivity].
  - destruct (canEnPassant gs p t); [|destruct Hin].
    destruct Hin as [<-|[]]. discriminate NE.
Qed.

Lemma pseudoLegalMoves_flag gs p m :
  In m (pseudoLegalMoves gs p) -> vm_isEnPassant m = false -> flagMatchesBoard gs p m.
Proof.
  unfold pseudoLegalMoves. intros Hin NE. destruct (piece_type p).
  - unfold getPawnMoves in Hin. apply in_app_or in Hin. destruct Hin as [Hin|Hin].
    + eapply pawnForward_flag; eauto.
    + apply in_flat_map in Hin. destruct Hin as [d [_ Hin]].
      eapply pawnDiagonal_flag; eauto.
  - eapply getLinearMoves_flag; eauto.
  - unfold getKnightMoves in Hin. apply in_flat_map in Hin.
    destruct Hin as [d [_ Hin]]. eapply stepMove_flag; eauto.
  - eapply getLinearMoves_flag; eauto.
  - unfold getQueenMoves in Hin. apply in_app_or in Hin.
    destruct Hin as [Hin|Hin]; eapply getLinearMoves_flag; eauto.
  - eapply getKingMoves_flag; eauto.
Qed.

(** X5.  The capture flag of a returned move agrees with the board:
    unless the move is an en-passant capture, its destination is either
    empty with [isCapture] false, or holds a piece of the other colour
    with [isCapture] true.  A piece is never sent onto a piece of its
    own colour. *)
Theorem getValidMoves_capture_flag gs p l gs' m :
  getValidMoves p gs = (Some l, gs') -> In m l -> vm_isEnPassant m = false ->
  flagMatchesBoard gs p m.
Proof.
  intros E Hin NE. apply pseudoLegalMoves_flag; [|exact NE].
  eapply getValidMoves_pseudoLegal; eauto.
Qed.

Lemma getValidMoves_capture_flag_witness :
  flagMatchesBoard initialGameState (pieceOn initialGameState (square fg 1))
                   (plainMove (square ff 3) false).
Proof.
  apply (@getValidMoves_capture_flag initialGameState
           (pieceOn initialGameState (square fg 1))
           [plainMove (square fh 3) false; plainMove (square ff 3) false]
           initialGameState).
  - vm_compute; reflexivity.
  - right; left; reflexivity.
  - reflexivity.
Defined.

(** ** Which generator marks a move as special *)

Lemma linearFrom_plain fuel gs p dr dc : forall cur m,
  In m (linearFrom fuel gs p dr dc cur) ->
  vm_isCastling m = false /\ vm_isEnPassant m = false.
Proof.
  induction fuel as [|k IH]; intros cur m Hin; [destruct Hin|].
  simpl in Hin. destruct (isValidPosition cur); [|destruct Hin].
  destruct (getPieceAt gs cur) as [t|].
  - destruct (negb (PieceColor_eqb (piece_color t) (piece_color p))); [|destruct Hin].
    destruct Hin as [<-|[]]. split; reflexivity.
  - destruct Hin as [<-|Hin]; [split; reflexivity|eapply IH; eauto].
Qed.

Lemma getLinearMoves_plain gs p ds m :
  In m (flat_map (getLinearMoves gs p) ds) ->
  vm_isCastling m = false /\ vm_isEnPassant m = false.
Proof.
  intros Hin. apply in_flat_map in Hin. destruct Hin as [d [_ Hin]].
  unfold getLinearMoves in Hin. eapply linearFrom_plain; eauto.
Qed.

Lemma stepMove_plain gs p sq m :
  In m (stepMove gs p sq) -> vm_isCastling m = false /\ vm_isEnPassant m = false.
Proof.
  unfold stepMove. destruct (isValidPosition sq); [|intros []].
  destruct (getPieceAt gs sq) as [t|].
  - destruct (negb (PieceColor_eqb (piece_color t) (piece_color p))); [|intros []].
    intros [<-|[]]. split; reflexivity.
  - intros [<-|[]]. split; reflexivity.
Qed.

Lemma kingStep_plain gs p sq m :
  In m (kingStep gs p sq) -> vm_isCastling m = false /\ vm_isEnPassant m = false.
Proof.
  unfold kingStep. destruct (isValidPosition sq); [|intros []].
  destruct (getPieceAt gs sq) as [t|].
  - destruct (negb (PieceColor_eqb (piece_color t) (piece_color p))); [|intros []].
    destruct (negb (isSquareUnderAttack gs sq (piece_color p))); [|intros []].
    intros [<-|[]]. split; reflexivity.
  - destruct (negb (isSquareUnderAttack gs sq (piece_color p))); [|intros []].
    intros [<-|[]]. split; reflexivity.
Qed.

Lemma getPawnMoves_not_castling gs p m :
  In m (getPawnMoves gs p) -> vm_isCastling m = false.
Proof.
  unfold getPawnMoves. intros Hin. apply in_app_or in Hin. destruct Hin as [Hin|Hin].
  - unfold pawnForward in Hin. cbv zeta in Hin.
    destruct (_ && _) in Hin; [|destruct Hin].
    destruct Hin as [<-|Hin]; [reflexivity|].
    destruct (_ && _) in Hin; [|destruct Hin].
    destruct Hin as [<-|[]]. reflexivity.
  - apply in_flat_map in Hin. destruct Hin as [d [_ Hin]].
    unfold pawnDiagonal in Hin. cbv zeta in Hin.
    destruct (isValidPosition _) in Hin; [|destruct Hin].
    apply in_app_or in Hin. destruct Hin as [Hin|Hin].
    + destruct (getPieceAt gs _) as [q|] in Hin; [|destruct Hin].
      destruct (negb _) in Hin; [|destruct Hin].
      destruct Hin as [<-|[]]. reflexivity.
    + destruct (canEnPassant gs p _) in Hin; [|destruct Hin].
      destruct Hin as [<-|[]]. reflexivity.
Qed.

(** A castling move comes out of [getKingMoves] only. *)
Lemma pseudoLegalMoves_castling gs p m :
  In m (pseudoLegalMoves gs p) -> vm_isCastling m = true ->
  piece_type p = king
  /\ piece_hasMoved p = false /\ isInCheck gs (piece_color p) = false
  /\ exists s, In m (castleMove gs p s).
Proof.
  unfold pseudoLegalMoves. intros Hin C. destruct (piece_type p) eqn:T.
  - apply getPawnMoves_not_castling in Hin. congruence.
  - apply getLinearMoves_plain in Hin. destruct Hin; congruence.
  - unfold getKnightMoves in Hin. apply in_flat_map in Hin.
    destruct Hin as [d [_ Hin]]. apply stepMove_plain in Hin. destruct Hin; congruence.
  - apply getLinearMoves_plain in Hin. destruct Hin; congruence.
  - unfold getQueenMoves in Hin. apply in_app_or in Hin.
    destruct Hin as [Hin|Hin]; apply getLinearMoves_plain in Hin;
      destruct Hin; congruence.
  - unfold getKingMoves in Hin. apply in_app_or in Hin. destruct Hin as [Hin|Hin].
    + apply in_flat_map in Hin. destruct Hin as [d [_ Hin]].
      apply kingStep_plain in Hin. destruct Hin; congruence.
    + destruct (negb (piece_hasMoved p) && negb (isInCheck gs (piece_color p))) eqn:G;
        [|destruct Hin].
      apply andb_true_iff in G. destruct G as [G1 G2].
      apply negb_true_iff in G1. apply negb_true_iff in G2.
      split; [reflexivity|]. split; [exact G1|]. split; [exact G2|].
      apply in_app_or in Hin. destruct Hin as [Hin|Hin];
        [exists kingside|exists queenside]; exact Hin.
Qed.

(** X6.  Castling is offered only under the conditions the generator
    tests: a move marked [isCastling] among the valid moves of a piece
    means the piece is a king that has not moved and is not in check;
    the destination is column 6 or 2 of the king's row; the corner
    square on that side (column 7 or 0) holds a piece that has not
    moved; and the columns the loop of [canCastle] visits (5 and 6, or
    1, 2 and 3) are empty and not attacked. *)
Theorem castling_only_when gs k l gs' m :
  getValidMoves k gs = (Some l, gs') -> In m l -> vm_isCastling m = true ->
  piece_type k = king
  /\ piece_hasMoved k = false
  /\ isInCheck gs (piece_color k) = false
  /\ exists s,
       vm_to m = mkPosition (row (piece_position k)) (castleTarget s)
       /\ (exists r,
              getPieceAt gs (mkPosition (row (piece_position k)) (castleRookCol s))
              = Some r
              /\ piece_hasMoved r = false)
       /\ forall c, In c (castleCols s) ->
            getPieceAt gs (mkPosition (row (piece_position k)) c) = None
            /\ isSquareUnderAttack gs (mkPosition (row (piece_position k)) c)
                                   (piece_color k) = false.
Proof.
  intros E Hin C.
  pose proof (@getValidMoves_pseudoLegal gs k l gs' m E Hin) as P.
  destruct (@pseudoLegalMoves_castling gs k m P C) as [T [M [K [s Hs]]]].
  split; [exact T|]. split; [exact M|]. split; [exact K|].
  exists s. apply castleMove_inv in Hs. destruct Hs as [-> [R CC]].
  split; [reflexivity|]. split; [exact R|].
  intros c Hc. eapply canCastle_col; eauto.
Qed.

Lemma castling_only_when_witness :
  let gs := positionAfter castlingGame in
  let k := pieceOn gs (square fe 1) in
  piece_type k = king
  /\ piece_hasMoved k = false
  /\ isInCheck gs (piece_color k) = false
  /\ exists s,
       vm_to (mkValidMove (square fg 1) false false true None)
       = mkPosition (row (piece_position k)) (castleTarget s)
       /\ (exists r,
              getPieceAt gs (mkPosition (row (piece_position k)) (castleRookCol s))
              = Some r
              /\ piece_hasMoved r = false)
       /\ forall c, In c (castleCols s) ->
            getPieceAt gs (mkPosition (row (piece_position k)) c) = None
            /\ isSquareUnderAttack gs (mkPosition (row (piece_position k)) c)
                                   (piece_color k) = false.
Proof.
  cbv zeta.
  apply (@castling_only_when (positionAfter castlingGame)
           (pieceOn (positionAfter castlingGame) (square fe 1))
           [plainMove (square fe 2) false; plainMove (square ff 1) false;
            mkValidMove (square fg 1) false false true None]
           (positionAfter castlingGame)).
  - vm_compute; reflexivity.
  - right; right; left; reflexivity.
  - reflexivity.
Defined.

(** ** A move leaves the square it starts from *)

Lemma pseudoLegalMoves_enPassant gs p m :
  In m (pseudoLegalMoves gs p) -> vm_isEnPassant m = true ->
  row (vm_to m) = row (piece_position p) + direction (piece_color p).
Proof.
  unfold pseudoLegalMoves. intros Hin C. destruct (piece_type p) eqn:T.
  - unfold getPawnMoves in Hin. apply in_app_or in Hin. destruct Hin as [Hin|Hin].
    + apply pawnForward_not_enPassant in Hin. congruence.
    + apply in_flat_map in Hin. destruct Hin as [d [_ Hin]].
      destruct (@pawnDiagonal_enPassant gs p d m Hin C) as [-> _]. reflexivity.
  - apply getLinearMoves_plain in Hin. destruct Hin; congruence.
  - unfold getKnightMoves in Hin. apply in_flat_map in Hin.
    destruct Hin as [d [_ Hin]]. apply stepMove_plain in Hin. destruct Hin; congruence.
  - apply getLinearMoves_plain in Hin. destruct Hin; congruence.
  - unfold getQueenMoves in Hin. apply in_app_or in Hin.
    destruct Hin as [Hin|Hin]; apply getLinearMoves_plain in Hin;
      destruct Hin; congruence.
  - unfold getKingMoves in Hin. apply in_app_or in Hin. destruct Hin as [Hin|Hin].
    + apply in_flat_map in Hin. destruct Hin as [d [_ Hin]].
      apply kingStep_plain in Hin. destruct Hin; congruence.
    + destruct (negb (piece_hasMoved p) && negb (isInCheck gs (piece_color p)));
        [|destruct Hin].
      apply in_app_or in Hin.
      destruct Hin as [Hin|Hin]; apply castleMove_inv in Hin;
        destruct Hin as [-> _]; discriminate C.
Qed.

(** ** En passant needs the last move *)

Lemma pseudoLegalMoves_enPassant_pawn gs p m :
  In m (pseudoLegalMoves gs p) -> vm_isEnPassant m = true ->
  piece_type p = pawn /\ exists d, In d [-1; 1] /\ In m (pawnDiagonal gs p d).
Proof.
  unfold pseudoLegalMoves. intros Hin C. destruct (piece_type p) eqn:T.
  - split; [reflexivity|].
    unfold getPawnMoves in Hin. apply in_app_or in Hin. destruct Hin as [Hin|Hin].
    + apply pawnForward_not_enPassant in Hin. congruence.
    + apply in_flat_map in Hin. exact Hin.
  - apply getLinearMoves_plain in Hin. destruct Hin; congruence.
  - unfold getKnightMoves in Hin. apply in_flat_map in Hin.
    destruct Hin as [d [_ Hin]]. apply stepMove_plain in Hin. destruct Hin; congruence.
  - apply getLinearMoves_plain in Hin. destruct Hin; congruence.
  - unfold getQueenMoves in Hin. apply in_app_or in Hin.
    destruct Hin as [Hin|Hin]; apply getLinearMoves_plain in Hin;
      destruct Hin; congruence.
  - unfold getKingMoves in Hin. apply in_app_or in Hin. destruct Hin as [Hin|Hin].
    + apply in_flat_map in Hin. destruct Hin as [d [_ Hin]].
      apply kingStep_plain in Hin. destruct Hin; congruence.
    + destruct (negb (piece_hasMoved p) && negb (isInCheck gs (piece_color p)));
        [|destruct Hin].
      apply in_app_or in Hin.
      destruct Hin as [Hin|Hin]; apply castleMove_inv in Hin;
        destruct Hin as [-> _]; discriminate C.
Qed.

(** C5 (as amended).  Whatever the state, an en-passant capture is
    among the moves [getValidMoves] returns for a piece only if the
    piece is a pawn and the last move of the history was a pawn's
    two-square advance that landed beside it on its rank; the capture
    goes to the square behind that pawn (one step forward for the
    capturer, on the advanced pawn's file), which is on the board.  Only
    the last move of the history is consulted, so an earlier two-square
    advance never allows the capture.  In the other direction these
    conditions, met by a pawn of the other colour, make the capture a
    candidate of [getPawnMoves]; like every candidate it is a valid move
    only if the king-safety filter of [getValidMoves] keeps it.  (The
    code does not test the colour of the advanced pawn; the statement
    does not speak of an advance by a pawn of the capturer's colour.) *)
Theorem enPassant_only_after_double_advance gs p :
  (forall l gs' m,
      getValidMoves p gs = (Some l, gs') -> In m l -> vm_isEnPassant m = true ->
      piece_type p = pawn
      /\ exists lm,
           lastMove gs = Some lm
           /\ piece_type (move_piece lm) = pawn
           /\ Z.abs (row (move_from lm) - row (move_to lm)) = 2
           /\ row (move_to lm) = row (piece_position p)
           /\ Z.abs (col (move_to lm) - col (piece_position p)) = 1
           /\ vm_to m = mkPosition (row (piece_position p) + direction (piece_color p))
                                   (col (move_to lm))
           /\ isValidPosition (vm_to m) = true)
  /\ (forall lm target,
         piece_type p = pawn ->
         lastMove gs = Some lm ->
         piece_type (move_piece lm) = pawn ->
         piece_color (move_piece lm) <> piece_color p ->
         Z.abs (row (move_from lm) - row (move_to lm)) = 2 ->
         row (move_to lm) = row (piece_position p) ->
         Z.abs (col (move_to lm) - col (piece_position p)) = 1 ->
         target = mkPosition (row (piece_position p) + direction (piece_color p))
                             (col (move_to lm)) ->
         isValidPosition target = true ->
         In (mkValidMove target true true false None) (getPawnMoves gs p)).
Proof.
  split.
  - intros l gs' m E Hin Hflag.
    pose proof (@getValidMoves_pseudoLegal gs p l gs' m E Hin) as Hp.
    destruct (@pseudoLegalMoves_enPassant_pawn gs p m Hp Hflag) as [T [d [Hd Hm]]].
    split; [exact T|].
    destruct (@pawnDiagonal_enPassant gs p d m Hm Hflag) as [Em [V C]].
    apply canEnPassant_true in C. destruct C as [lm [L [H1 [H2 [H3 H4]]]]].
    cbn [col] in H4. exists lm. rewrite Em. cbn [vm_to].
    split; [exact L|]. split; [exact H1|]. split; [exact H2|]. split; [exact H3|].
    split; [|split].
    + rewrite H4. destruct Hd as [<-|[<-|[]]]; lia.
    + rewrite H4. reflexivity.
    + exact V.
  - intros lm target T L H1 _ H2 H3 H4 Et V.
    set (d := col (move_to lm) - col (piece_position p)).
    assert (Hd : In d [-1; 1]) by (unfold d; simpl; lia).
    assert (Et' : target = mkPosition (row (piece_position p) + direction (piece_color p))
                                      (col (piece_position p) + d)).
    { rewrite Et. unfold d. f_equal. lia. }
    unfold getPawnMoves. apply in_or_app. right. apply in_flat_map.
    exists d. split; [exact Hd|].
    rewrite Et'. apply pawnDiagonal_enPassant_in.
    + rewrite <- Et'. exact V.
    + apply canEnPassant_true. exists lm. rewrite <- Et', Et. cbn [col]. auto.
Qed.

Lemma enPassant_only_after_double_advance_witness :
  let gs := positionAfter (firstn 4 enPassantGame) in
  let p := pieceOn gs (square fe 5) in
  let m := mkValidMove (square fd 6) true true false None in
  In m (legalMoves gs p)
  /\ piece_type p = pawn
  /\ exists lm,
       lastMove gs = Some lm
       /\ piece_type (move_piece lm) = pawn
       /\ Z.abs (row (move_from lm) - row (move_to lm)) = 2
       /\ row (move_to lm) = row (piece_position p)
       /\ Z.abs (col (move_to lm) - col (piece_position p)) = 1
       /\ vm_to m = mkPosition (row (piece_position p) + direction (piece_color p))
                               (col (move_to lm))
       /\ isValidPosition (vm_to m) = true.
Proof.
  cbv zeta.
  assert (Hin : In (mkValidMove (square fd 6) true true false None)
                   (legalMoves (positionAfter (firstn 4 enPassantGame))
                      (pieceOn (positionAfter (firstn 4 enPassantGame)) (square fe 5))))
    by (vm_compute; auto).
  split; [exact Hin|].
  apply (proj1 (@enPassant_only_after_double_advance
                  (positionAfter (firstn 4 enPassantGame))
                  (pieceOn (positionAfter (firstn 4 enPassantGame)) (square fe 5)))
               (legalMoves (positionAfter (firstn 4 enPassantGame))
                  (pieceOn (positionAfter (firstn 4 enPassantGame)) (square fe 5)))
               (positionAfter (firstn 4 enPassantGame))).
  - apply getValidMoves_pure.
    + vm_compute. split; [reflexivity|repeat constructor].
    + split; vm_compute; reflexivity.
  - exact Hin.
  - reflexivity.
Defined.

(** The filter judges an en-passant capture with the captured pawn
    still on the board ([wouldExposeKing] moves the capturer only).
    After [checkingPawnGame] Black is in check by the pawn that has just
    advanced to e4; the pawn on d4 has no valid move, although the
    capture onto e3, played by [makeMove], takes the checking pawn and
    leaves Black out of check. *)
Lemma enPassant_refused_against_checking_pawn :
  let gs := positionAfter checkingPawnGame in
  let p := pieceOn gs (square fd 4) in
  reachable gs
  /\ isInCheck gs black = true
  /\ In (mkValidMove (square fe 3) true true false None) (getPawnMoves gs p)
  /\ fst (getValidMoves p gs) = Some []
  /\ exists m g,
       makeMove p (square fe 3) None gs = (Some m, g)
       /\ move_capturedPiece m = Some (pieceOn gs (square fe 4))
       /\ isInCheck g black = false.
Proof.
  cbv zeta. split.
  { apply positionAfter_reachable. by_computation. }
  split; [vm_compute; reflexivity|].
  split; [vm_compute; auto|].
  split; [vm_compute; reflexivity|].
  eexists; eexists. split; [vm_compute; reflexivity|].
  split; vm_compute; reflexivity.
Qed.

Lemma direction_nonzero c : direction c <> 0.
Proof. destruct c; simpl; lia. Qed.

Lemma pseudoLegal_moves_away gs p m :
  onBoard gs p -> In m (pseudoLegalMoves gs p) -> vm_to m <> piece_position p.
Proof.
  intros [V B] P Eq.
  destruct (vm_isEnPassant m) eqn:EP.
  - pose proof (@pseudoLegalMoves_enPassant gs p m P EP) as R.
    rewrite Eq in R. pose proof (direction_nonzero (piece_color p)). lia.
  - pose proof (@pseudoLegalMoves_flag gs p m P EP) as F.
    unfold flagMatchesBoard in F. rewrite Eq in F.
    unfold getPieceAt in F. rewrite V, B in F. destruct F as [F _].
    apply F; reflexivity.
Qed.

(** X7.  No valid move is a null move: for a piece standing on the
    square its position names, no destination that [getValidMoves]
    returns is that square. *)
Theorem getValidMoves_moves_away gs p l gs' m :
  onBoard gs p -> getValidMoves p gs = (Some l, gs') -> In m l ->
  vm_to m <> piece_position p.
Proof.
  intros B E Hin. apply (@pseudoLegal_moves_away gs p m B).
  eapply getValidMoves_pseudoLegal; eauto.
Qed.

Lemma getValidMoves_moves_away_witness :
  vm_to (plainMove (square fe 4) false)
  <> piece_position (pieceOn initialGameState (square fe 2)).
Proof.
  apply (@getValidMoves_moves_away initialGameState
           (pieceOn initialGameState (square fe 2))
           [plainMove (square fe 3) false; plainMove (square fe 4) false]
           initialGameState).
  - split; reflexivity.
  - vm_compute; reflexivity.
  - right; left; reflexivity.
Defined.

(** ** The verdicts of [validateMove] *)

Lemma findFirst_Some {A} (f : A -> bool) l x :
  findFirst f l = Some x -> In x l /\ f x = true.
Proof.
  induction l as [|a l IH]; simpl; [discriminate|].
  destruct (f a) eqn:Fa.
  - intros H; inversion H; subst. auto.
  - intros H. destruct (IH H). auto.
Qed.

Lemma findFirst_none_inv {A} (f : A -> bool) l :
  findFirst f l = None -> forall x, In x l -> f x = false.
Proof.
  induction l as [|a l IH]; simpl; [intros _ x []|].
  destruct (f a) eqn:Fa; [discriminate|].
  intros H x [<-|Hx]; auto.
Qed.

Lemma validateMove_spec gs p to :
  wellFormed (board gs) -> onBoard gs p ->
  exists v,
    validateMove p to gs = (Some v, gs)
    /\ (mv_isValid v = true
        <-> isValidPosition to = true /\ In to (destinations (legalMoves gs p)))
    /\ mv_reason v <> Some reasonExposesKing.
Proof.
  intros W B. unfold validateMove.
  destruct (isValidPosition to) eqn:V; cbn [negb].
  - unfold bind. rewrite (@getValidMoves_pure gs p W B).
    destruct (findFirst (fun m => Position_eqb (vm_to m) to) (legalMoves gs p))
      as [m|] eqn:F.
    + apply findFirst_Some in F. destruct F as [Hin Hto].
      apply Position_eqb_eq in Hto.
      rewrite (@wouldExposeKing_pure gs p to W B V).
      assert (X : exposes gs p to = false).
      { unfold legalMoves in Hin. apply filter_In in Hin. destruct Hin as [_ Hin].
        apply negb_true_iff in Hin. rewrite <- Hto. exact Hin. }
      rewrite X. eexists. split; [reflexivity|]. split.
      * cbn [mv_isValid]. split; [intros _|reflexivity].
        split; [reflexivity|]. unfold destinations. rewrite <- Hto.
        apply in_map. exact Hin.
      * discriminate.
    + eexists. split; [reflexivity|]. split.
      * cbn [mv_isValid]. split; [discriminate|]. intros [_ Hin].
        unfold destinations in Hin. apply in_map_iff in Hin.
        destruct Hin as [m [Hm Hin]].
        pose proof (@findFirst_none_inv _ _ _ F m Hin) as N. cbv beta in N.
        rewrite Hm, Position_eqb_refl in N. discriminate N.
      * cbn [mv_reason]. intros H. inversion H.
  - eexists. split; [reflexivity|]. split.
    + cbn [mv_isValid]. split; [discriminate|intros [H _]; discriminate H].
    + cbn [mv_reason]. intros H. inversion H.
Qed.

(** X8.  On a well-formed board and for a piece standing on the square
    its position names, [validateMove] returns and leaves the game state
    as it was; it answers [isValid = true] exactly when the destination
    is on the board and among the destinations [getValidMoves] lists;
    and it never gives the reason "Move would expose king to check":
    the filter inside [getValidMoves] has already removed those
    moves. *)
Theorem validateMove_verdict gs p to :
  wellFormed (board gs) -> onBoard gs p ->
  exists v,
    validateMove p to gs = (Some v, gs)
    /\ (mv_isValid v = true
        <-> isValidPosition to = true /\ In to (destinations (legalMoves gs p)))
    /\ mv_reason v <> Some reasonExposesKing.
Proof. apply validateMove_spec. Qed.

Lemma validateMove_verdict_witness :
  exists v,
    validateMove (pieceOn initialGameState (square fe 2)) (square fe 4) initialGameState
    = (Some v, initialGameState)
    /\ (mv_isValid v = true
        <-> isValidPosition (square fe 4) = true
            /\ In (square fe 4)
                  (destinations
                     (legalMoves initialGameState
                        (pieceOn initialGameState (square fe 2)))))
    /\ mv_reason v <> Some reasonExposesKing.
Proof.
  apply validateMove_verdict.
  - exact wellFormed_initial.
  - split; reflexivity.
Defined.

(** ** The move ordering is a stable sort *)

Lemma insertByScore_perm m l : Permutation (m :: l) (insertByScore m l).
Proof.
  induction l as [|x t IH]; simpl; [apply Permutation_refl|].
  destruct (sortScore2 x <? sortScore2 m); [apply Permutation_refl|].
  eapply perm_trans; [apply perm_swap|]. apply perm_skip. exact IH.
Qed.

Lemma insertByScore_descending m l : descending l -> descending (insertByScore m l).
Proof.
  unfold descending. induction l as [|x t IH]; simpl; intros H.
  - constructor; constructor.
  - inversion H as [|? ? Ht Hx]; subst.
    destruct (sortScore2 x <? sortScore2 m) eqn:C.
    + apply Z.ltb_lt in C. constructor; [exact H|].
      constructor; [lia|]. rewrite Forall_forall in *. intros y Hy.
      specialize (Hx y Hy). lia.
    + apply Z.ltb_ge in C. constructor; [apply IH; exact Ht|].
      rewrite Forall_forall in *. intros y Hy.
      apply (Permutation_in _ (Permutation_sym (insertByScore_perm m t))) in Hy.
      destruct Hy as [<-|Hy]; [exact C|apply Hx; exact Hy].
Qed.

Lemma filter_none {A} (f : A -> bool) l :
  (forall x, In x l -> f x = false) -> filter f l = [].
Proof.
  induction l as [|a l IH]; simpl; intros H; [reflexivity|].
  rewrite (H a (or_introl eq_refl)). apply IH. intros x Hx. apply H. right; exact Hx.
Qed.

Lemma insertByScore_withScore s m l :
  descending l ->
  withScore s (insertByScore m l)
  = withScore s l ++ (if sortScore2 m =? s then [m] else []).
Proof.
  unfold descending, withScore. induction l as [|x t IH]; simpl; intros H.
  - reflexivity.
  - inversion H as [|? ? Ht Hx]; subst.
    destruct (sortScore2 x <? sortScore2 m) eqn:C.
    + apply Z.ltb_lt in C. cbn [filter].
      destruct (sortScore2 m =? s) eqn:M.
      * apply Z.eqb_eq in M.
        assert (N : filter (fun m0 => sortScore2 m0 =? s) (x :: t) = []).
        { apply filter_none. intros y [<-|Hy].
          - apply Z.eqb_neq. lia.
          - rewrite Forall_forall in Hx. specialize (Hx y Hy).
            apply Z.eqb_neq. lia. }
        cbn [filter] in N. rewrite N. reflexivity.
      * rewrite app_nil_r. reflexivity.
    + cbn [filter]. rewrite (IH Ht).
      destruct (sortScore2 x =? s); reflexivity.
Qed.

Lemma fold_insert_spec l : forall acc,
  descending acc ->
  Permutation (acc ++ l) (fold_left (fun a m => insertByScore m a) l acc)
  /\ descending (fold_left (fun a m => insertByScore m a) l acc)
  /\ forall s,
       withScore s (fold_left (fun a m => insertByScore m a) l acc)
       = withScore s acc ++ withScore s l.
Proof.
  induction l as [|m l IH]; intros acc D; simpl.
  - rewrite app_nil_r. split; [apply Permutation_refl|]. split; [exact D|].
    intros s. unfold withScore. simpl. rewrite app_nil_r. reflexivity.
  - destruct (IH (insertByScore m acc) (insertByScore_descending m D)) as [P [S F]].
    split; [|split; [exact S|]].
    + eapply perm_trans; [|exact P].
      eapply perm_trans; [apply Permutation_sym, Permutation_middle|].
      change (m :: acc ++ l) with ((m :: acc) ++ l).
      apply Permutation_app_tail. apply insertByScore_perm.
    + intros s. rewrite F, (insertByScore_withScore s m D), <- app_assoc.
      f_equal. unfold withScore. simpl. destruct (sortScore2 m =? s); reflexivity.
Qed.

(** X9.  [sortMoves] is a stable sort by descending score: its result
    is a permutation of the candidate list, no move is followed by a
    move of higher score, and moves of equal score keep the order in
    which they were generated. *)
Theorem sortMoves_stable_sort l :
  Permutation l (sortMoves l)
  /\ descending (sortMoves l)
  /\ forall s, withScore s (sortMoves l) = withScore s l.
Proof.
  unfold sortMoves.
  destruct (@fold_insert_spec l [] (SSorted_nil _)) as [P [S F]].
  split; [exact P|]. split; [exact S|exact F].
Qed.

(** ** What the search reports *)

Lemma absorb_headed mx move result n st :
  ls_bestMove st = hd_error (ls_principalVariation st) ->
  ls_bestMove (absorb mx move result n st)
  = hd_error (ls_principalVariation (absorb mx move result n st)).
Proof.
  intros H. unfold absorb. cbn [ls_bestMove ls_principalVariation].
  destruct (if mx then _ else _); [reflexivity|exact H].
Qed.

Lemma searchLoop_headed recurse gs mx sorted : forall st st',
  ls_bestMove st = hd_error (ls_principalVariation st) ->
  searchLoop recurse gs mx sorted st = Some st' ->
  ls_bestMove st' = hd_error (ls_principalVariation st').
Proof.
  induction sorted as [|m rest IH]; intros st st' H E; simpl in E.
  - inversion E; subst. exact H.
  - destruct (aiMakeMove gs m) as [g|]; [|discriminate E].
    destruct (recurse (S (ls_draw st)) g (ls_alpha st) (ls_beta st)) as [[r n]|];
      [|discriminate E].
    destruct (Num_leb _ _).
    + inversion E; subst. apply absorb_headed. exact H.
    + eapply IH; [|exact E]. apply absorb_headed. exact H.
Qed.

Lemma minimax_reports difficulty random evaluatePosition depth n gs a b mx c r n' :
  fst (minimax difficulty random evaluatePosition depth n gs a b mx c) = Some (r, n') ->
  ai_depth r = Z.of_nat (maxDepth difficulty) - Z.of_nat depth
  /\ (difficulty = hard \/ difficulty = expert ->
      ai_move r = hd_error (ai_principalVariation r)).
Proof.
  destruct depth as [|d]; cbn [minimax].
  - unfold staticResult. destruct (evaluatePosition n gs c) as [e k].
    cbn [fst]. intros H; inversion H; subst. split; [reflexivity|intros _; reflexivity].
  - destruct (negb (GameStatus_eqb (status gs) active)).
    + unfold staticResult. destruct (evaluatePosition n gs c) as [e k].
      cbn [fst]. intros H; inversion H; subst.
      split; [reflexivity|intros _; reflexivity].
    + destruct (getAllPossibleMovesDrawing gs (currentPlayer gs)) as [[[l k0]|] gs1];
        [|discriminate].
      destruct l as [|m0 l0].
      * cbn [fst]. intros H; inversion H; subst.
        split; [reflexivity|intros _; reflexivity].
      * destruct (searchLoop _ gs1 mx (sortMoves (m0 :: l0)) _) as [st|] eqn:L;
          [|discriminate].
        destruct (substitute difficulty random (sortMoves (m0 :: l0))
                             (ls_bestMove st) (ls_draw st)) as [bm k] eqn:S.
        cbn [fst]. intros H; inversion H; subst.
        split; [reflexivity|]. intros Hd. cbn [ai_move ai_principalVariation].
        assert (bm = ls_bestMove st).
        { unfold substitute in S. destruct Hd; subst difficulty; inversion S; reflexivity. }
        subst bm. eapply searchLoop_headed; [|exact L]. reflexivity.
Qed.

(** X10.  The search depth that [getBestMove] reports is always 0: the
    root of the search computes [maxDepth - depth] with [depth] equal
    to [maxDepth], and the random fallback reports 0 as well. *)
Theorem getBestMove_depth_zero difficulty random evaluatePosition gs c r gs' :
  getBestMove difficulty random evaluatePosition gs c = (Some r, gs') ->
  ai_depth r = 0.
Proof.
  unfold getBestMove.
  destruct (minimax difficulty random evaluatePosition (maxDepth difficulty) 1 gs
                    NegInf PosInf true c) as [[[r0 n]|] gs1] eqn:M; [|discriminate].
  destruct (ai_move r0) as [m|] eqn:Hm.
  - intros H; inversion H; subst.
    destruct (@minimax_reports difficulty random evaluatePosition
                (maxDepth difficulty) 1 gs NegInf PosInf true c r n) as [D _].
    { rewrite M. reflexivity. }
    rewrite D. lia.
  - destruct (getRandomMove random gs1 c _) as [[rm|] gs2]; [|discriminate].
    intros H; inversion H; subst. reflexivity.
Qed.

(** X11.  At the hard and expert levels, where no random substitution
    takes place, the move [getBestMove] returns is the first move of
    the principal variation it returns. *)
Theorem getBestMove_heads_variation difficulty random evaluatePosition gs c r gs' :
  difficulty = hard \/ difficulty = expert ->
  getBestMove difficulty random evaluatePosition gs c = (Some r, gs') ->
  ai_move r = hd_error (ai_principalVariation r).
Proof.
  intros Hd. unfold getBestMove.
  destruct (minimax difficulty random evaluatePosition (maxDepth difficulty) 1 gs
                    NegInf PosInf true c) as [[[r0 n]|] gs1] eqn:M; [|discriminate].
  destruct (ai_move r0) as [m|] eqn:Hm.
  - intros H; inversion H; subst.
    destruct (@minimax_reports difficulty random evaluatePosition
                (maxDepth difficulty) 1 gs NegInf PosInf true c r n) as [_ P].
    { rewrite M. reflexivity. }
    apply P. exact Hd.
  - destruct (getRandomMove random gs1 c _) as [[rm|] gs2]; [|discriminate].
    intros H; inversion H; subst. reflexivity.
Qed.

Lemma getBestMove_depth_zero_witness :
  exists r,
    fst (getBestMove easy alternatingDraws (fixedEvaluation materialFor)
                     endgameState white) = Some r
    /\ ai_depth r = 0.
Proof.
  assert (R : isSome (fst (getBestMove easy alternatingDraws (fixedEvaluation materialFor)
                                       endgameState white)) = true)
    by (vm_compute; reflexivity).
  destruct (getBestMove easy alternatingDraws (fixedEvaluation materialFor)
                        endgameState white) as [[r|] g] eqn:E; [|discriminate R].
  exists r. split; [reflexivity|].
  exact (@getBestMove_depth_zero easy alternatingDraws (fixedEvaluation materialFor)
           endgameState white r g E).
Defined.

Lemma getBestMove_heads_variation_witness :
  exists r,
    fst (getBestMove hard alternatingDraws (fixedEvaluation materialFor)
                     endgameState white) = Some r
    /\ ai_move r = hd_error (ai_principalVariation r).
Proof.
  assert (R : isSome (fst (getBestMove hard alternatingDraws (fixedEvaluation materialFor)
                                       endgameState white)) = true)
    by (vm_cast_no_check (@eq_refl bool true)).
  destruct (getBestMove hard alternatingDraws (fixedEvaluation materialFor)
                        endgameState white) as [[r|] g] eqn:E; [|discriminate R].
  exists r. split; [reflexivity|].
  exact (@getBestMove_heads_variation hard alternatingDraws
           (fixedEvaluation materialFor) endgameState white r g
           (or_introl eq_refl) E).
Defined.

(** ** The random fallback *)

Lemma random_index (r : Q) (len : nat) :
  (0 <= r)%Q -> (r < 1)%Q -> (0 < len)%nat ->
  (Z.to_nat (Qfloor (r * inject_Z (Z.of_nat len))) < len)%nat.
Proof.
  intros H0 H1 Hl.
  set (L := Z.of_nat len). assert (HL : 0 < L) by (unfold L; lia).
  assert (Hx0 : (0 <= r * inject_Z L)%Q).
  { apply Qmult_le_0_compat; [exact H0|].
    change 0%Q with (inject_Z 0). rewrite <- Zle_Qle. lia. }
  assert (Hx1 : (r * inject_Z L < inject_Z L)%Q).
  { setoid_replace (inject_Z L) with (1 * inject_Z L)%Q at 2 by ring.
    apply Qmult_lt_compat_r; [|exact H1].
    change 0%Q with (inject_Z 0). rewrite <- Zlt_Qlt. exact HL. }
  assert (F0 : 0 <= Qfloor (r * inject_Z L)).
  { change 0 with (Qfloor 0). apply Qfloor_resp_le. exact Hx0. }
  assert (F1 : Qfloor (r * inject_Z L) < L).
  { rewrite Zlt_Qlt. eapply Qle_lt_trans; [apply Qfloor_le|exact Hx1]. }
  unfold L in *. lia.
Qed.

Lemma getRandomMove_member random gs c n l gs1 :
  getAllPossibleMoves gs c = (Some l, gs1) -> l <> [] ->
  (0 <= random n)%Q -> (random n < 1)%Q ->
  exists m, getRandomMove random gs c n = (Some m, gs1) /\ In m l.
Proof.
  intros E Hne H0 H1. unfold getRandomMove. rewrite E.
  assert (Hl : (0 < List.length l)%nat) by (destruct l; [congruence|simpl; lia]).
  pose proof (random_index H0 H1 Hl) as Hi.
  destruct (nth_error l (Z.to_nat (Qfloor (random n * inject_Z (Z.of_nat (List.length l))))))
    as [m|] eqn:N.
  - exists m. split; [reflexivity|]. eapply nth_error_In; eauto.
  - apply nth_error_None in N. lia.
Qed.

(** X12.  [getRandomMove] picks one of the candidates of
    [getAllPossibleMoves] whenever there is one and the draw lies in
    [[0, 1)]: the index it computes is never out of range.  With no
    candidate it throws. *)
Theorem getRandomMove_picks_candidate random gs c n l gs1 :
  getAllPossibleMoves gs c = (Some l, gs1) ->
  (0 <= random n)%Q -> (random n < 1)%Q ->
  (l = [] -> getRandomMove random gs c n = (None, gs1))
  /\ (l <> [] -> exists m, getRandomMove random gs c n = (Some m, gs1) /\ In m l).
Proof.
  intros E H0 H1. split.
  - intros ->. unfold getRandomMove. rewrite E.
    destruct (Z.to_nat _); reflexivity.
  - intros Hne. eapply getRandomMove_member; eauto.
Qed.

(** X13.  When the status of the game is not [active] (after a check,
    for one), [getBestMove] does not search: the root of [minimax]
    returns the static evaluation without a move, and the answer is the
    fallback, a random candidate of [getAllPossibleMoves] with
    evaluation 0, depth 0 and itself as principal variation. *)
Theorem getBestMove_without_search difficulty random evaluatePosition gs c l gs1 :
  status gs <> active ->
  getAllPossibleMoves gs c = (Some l, gs1) -> l <> [] ->
  (forall n, (0 <= random n)%Q /\ (random n < 1)%Q) ->
  exists m,
    getBestMove difficulty random evaluatePosition gs c
    = (Some (mkAIMove (Some m) (Fin 0) 0 [m]), gs1)
    /\ In m l.
Proof.
  intros Hst E Hne Hr. unfold getBestMove.
  assert (D : exists d, maxDepth difficulty = S d).
  { unfold maxDepth. destruct difficulty; eexists; reflexivity. }
  destruct D as [d ->]. cbn [minimax].
  assert (A : negb (GameStatus_eqb (status gs) active) = true).
  { destruct (status gs); try reflexivity. congruence. }
  rewrite A. unfold staticResult.
  destruct (evaluatePosition 1%nat gs c) as [e k]. cbn [ai_move].
  destruct (Hr (k + idDraws gs c)%nat) as [H0 H1].
  destruct (@getRandomMove_member random gs c (k + idDraws gs c)%nat l gs1 E Hne H0 H1)
    as [m [G Hin]].
  rewrite G. exists m. split; [reflexivity|exact Hin].
Qed.

Lemma getRandomMove_picks_candidate_witness :
  exists l gs1,
    getAllPossibleMoves (positionAfter checkGame) black = (Some l, gs1)
    /\ (l = [] ->
        getRandomMove (fun _ => 1 # 2) (positionAfter checkGame) black 0 = (None, gs1))
    /\ (l <> [] ->
        exists m,
          getRandomMove (fun _ => 1 # 2) (positionAfter checkGame) black 0
          = (Some m, gs1) /\ In m l).
Proof.
  assert (R : isSome (fst (getAllPossibleMoves (positionAfter checkGame) black)) = true)
    by (vm_compute; reflexivity).
  destruct (getAllPossibleMoves (positionAfter checkGame) black) as [[l|] gs1] eqn:E;
    [|discriminate R].
  exists l, gs1. split; [reflexivity|].
  apply (@getRandomMove_picks_candidate (fun _ => 1 # 2) (positionAfter checkGame)
           black 0%nat l gs1 E).
  - discriminate.
  - reflexivity.
Defined.

Lemma getBestMove_without_search_witness :
  exists l gs1 m,
    getAllPossibleMoves (positionAfter checkGame) black = (Some l, gs1)
    /\ getBestMove medium (fun _ => 1 # 2) (fixedEvaluation materialFor)
                   (positionAfter checkGame) black
       = (Some (mkAIMove (Some m) (Fin 0) 0 [m]), gs1)
    /\ In m l.
Proof.
  assert (R : match getAllPossibleMoves (positionAfter checkGame) black with
              | (Some (_ :: _), _) => true
              | _ => false
              end = true)
    by (vm_compute; reflexivity).
  destruct (getAllPossibleMoves (positionAfter checkGame) black)
    as [[[|m0 l0]|] gs1] eqn:E; try discriminate R.
  destruct (@getBestMove_without_search medium (fun _ => 1 # 2)
              (fixedEvaluation materialFor) (positionAfter checkGame) black
              (m0 :: l0) gs1) as [m [G Hin]].
  - vm_compute; discriminate.
  - exact E.
  - discriminate.
  - intros n. split; [discriminate|reflexivity].
  - exists (m0 :: l0), gs1, m. split; [reflexivity|]. split; [exact G|exact Hin].
Defined.

(** ** The static evaluation *)

Lemma fold_left_bounds {A} (f : Z -> A -> Z) (lo : Z) l : forall acc,
  (forall a x, a - lo <= f a x <= a) ->
  acc - lo * Z.of_nat (List.length l) <= fold_left f l acc <= acc.
Proof.
  induction l as [|x l IH]; intros acc H; cbn [fold_left List.length].
  - lia.
  - specialize (IH (f acc x) H). specialize (H acc x). nia.
Qed.

(** X14.  [evaluateKingSafety] never rewards: the score starts at 0 and
    every visited square only subtracts, at most 5 for a check and 1.5
    for an exposed square next to the king, so over the 25 squares of
    the zone it stays between -162.5 and 0 (the model counts quarters). *)
Theorem evaluateKingSafety_range gs k color :
  -650 <= evaluateKingSafety gs k color <= 0.
Proof.
  unfold evaluateKingSafety.
  match goal with
  | |- _ <= fold_left ?f kingZone 0 <= _ =>
      pose proof (@fold_left_bounds _ f 26 kingZone 0) as H
  end.
  change (Z.of_nat (List.length kingZone)) with 25 in H.
  apply H. clear H. intros a d. cbv zeta.
  destruct (isValidPosition _); [|lia].
  destruct (boardGet _ _ _) as [q|];
    repeat match goal with
           | |- context [if ?c then _ else _] => destruct c
           end; lia.
Qed.

Lemma scanFactors_fold random gs c n :
  scanFactors random gs c n = fold_left (scanStep random gs c) allSquares (0, 0, 0, n).
Proof. reflexivity. Qed.

Lemma sign_opposite q c : sign q (opposite c) = - sign q c.
Proof. unfold sign. destruct q, c; reflexivity. Qed.

Lemma opposite_involutive c : opposite (opposite c) = c.
Proof. destruct c; reflexivity. Qed.

Lemma scanStep_negate random gs c sqs : forall m p mob k,
  fold_left (scanStep random gs (opposite c)) sqs (- m, - p, - mob, k)
  = let '(m', p', mob', k') := fold_left (scanStep random gs c) sqs (m, p, mob, k) in
    (- m', - p', - mob', k').
Proof.
  induction sqs as [|sq sqs IH]; intros m p mob k; cbn [fold_left].
  - reflexivity.
  - unfold scanStep at 2 4.
    destruct (boardGet (board gs) (row sq) (col sq)) as [q|]; [|apply IH].
    destruct (getPiecePositionValue random k q (row sq) (col sq)) as [pv k'].
    rewrite sign_opposite. rewrite <- IH. f_equal.
    rewrite !Z.opp_add_distr, !Z.mul_opp_r. reflexivity.
Qed.

Lemma controlStep_negate gs c sqs : forall a,
  fold_left (controlStep gs (opposite c)) sqs (- a)
  = - fold_left (controlStep gs c) sqs a.
Proof.
  induction sqs as [|sq sqs IH]; intros a; cbn [fold_left]; [reflexivity|].
  unfold controlStep at 2 4.
  destruct (boardGet (board gs) (row sq) (col sq)) as [q|]; [|apply IH].
  rewrite sign_opposite, <- IH. f_equal. lia.
Qed.

(** X15.  The static evaluation is zero-sum: from the same index of
    the random draws, the score of a position for one colour is the
    negative of its score for the other colour, and both consume the
    same number of draws. *)
Theorem evaluatePositionDrawn_zero_sum random n gs c :
  evaluatePositionDrawn random n gs (opposite c)
  = (- fst (evaluatePositionDrawn random n gs c),
     snd (evaluatePositionDrawn random n gs c)).
Proof.
  unfold evaluatePositionDrawn. rewrite !scanFactors_fold.
  change (0, 0, 0, n) with (- 0, - 0, - 0, n) at 1.
  rewrite scanStep_negate.
  destruct (fold_left (scanStep random gs c) allSquares (0, 0, 0, n))
    as [[[m p] mob] k].
  rewrite opposite_involutive.
  change (fold_left _ centerSquares 0)
    with (fold_left (controlStep gs (opposite c)) centerSquares (- 0)) at 1.
  rewrite controlStep_negate.
  cbn [fst snd]. f_equal.
  change (fold_left (controlStep gs c) centerSquares 0)
    with (fold_left
            (fun acc sq =>
               match boardGet (board gs) (row sq) (col sq) with
               | Some p => acc + sign (piece_color p) c
               | None => acc
               end) centerSquares 0).
  lia.
Qed.

Lemma materialStep_scan random gs sqs : forall m p mob k a,
  m = a ->
  fst (fst (fst (fold_left (scanStep random gs white) sqs (m, p, mob, k))))
  = fold_left (materialStep gs) sqs a.
Proof.
  induction sqs as [|sq sqs IH]; intros m p mob k a E; cbn [fold_left].
  - exact E.
  - unfold scanStep at 2. unfold materialStep at 2.
    destruct (boardGet (board gs) (row sq) (col sq)) as [q|]; [|apply IH; exact E].
    destruct (getPiecePositionValue random k q (row sq) (col sq)) as [pv k'].
    apply IH. subst a. unfold sign. destruct (piece_color q); simpl; lia.
Qed.

(** X16.  The material term of the search's evaluation is the
    engine's own [evaluatePosition]: for White it is the material
    balance the engine computes, for Black its negative. *)
Theorem material_factor_is_engine_evaluation random gs c n :
  fst (fst (fst (scanFactors random gs c n))) = materialFor gs c.
Proof.
  assert (W : fst (fst (fst (scanFactors random gs white n))) = materialBalance gs).
  { rewrite scanFactors_fold. apply materialStep_scan. reflexivity. }
  destruct c; [exact W|].
  unfold materialFor. rewrite <- W. rewrite !scanFactors_fold.
  change black with (opposite white).
  change (0, 0, 0, n) with (- 0, - 0, - 0, n) at 1.
  rewrite scanStep_negate.
  destruct (fold_left (scanStep random gs white) allSquares (0, 0, 0, n))
    as [[[m p] mob] k].
  reflexivity.
Qed.

(** ** The move list of the history panel *)

Lemma movePairsFrom_spec moves : forall fuel i,
  (List.length moves <= i + 2 * fuel)%nat -> Nat.even i = true ->
  forall p, In p (movePairsFrom fuel i moves) ->
  (whiteIndex p < List.length moves)%nat
  /\ p = mkMovePair (whiteIndex p / 2 + 1) (nth_error moves (whiteIndex p))
                    (nth_error moves (blackIndex p)).
Proof.
  induction fuel as [|k IH]; intros i Hf Hi p Hin; [destruct Hin|].
  cbn [movePairsFrom] in Hin.
  destruct (i <? List.length moves)%nat eqn:L; [|destruct Hin].
  apply Nat.ltb_lt in L. destruct Hin as [<-|Hin].
  - unfold whiteIndex, blackIndex. cbn [pair_moveNumber].
    assert (E : ((i / 2 + 1 - 1) * 2 = i)%nat).
    { apply Nat.even_spec in Hi. destruct Hi as [h ->].
      rewrite (Nat.mul_comm 2 h), Nat.div_mul by lia. lia. }
    rewrite E. split; [exact L|reflexivity].
  - apply (IH (i + 2)%nat); [lia| |exact Hin].
    rewrite Nat.even_add, Hi. reflexivity.
Qed.

Lemma movePairsFrom_length moves : forall fuel i,
  (List.length moves <= i + 2 * fuel)%nat ->
  List.length (movePairsFrom fuel i moves) = ((List.length moves - i + 1) / 2)%nat.
Proof.
  induction fuel as [|k IH]; intros i Hf; cbn [movePairsFrom].
  - replace (List.length moves - i + 1)%nat with 1%nat by lia. reflexivity.
  - destruct (i <? List.length moves)%nat eqn:L.
    + apply Nat.ltb_lt in L. cbn [List.length]. rewrite IH by lia.
      destruct (Nat.eq_dec (List.length moves - i) 1) as [One|More].
      * replace (List.length moves - (i + 2) + 1)%nat with 1%nat by lia.
        replace (List.length moves - i + 1)%nat with 2%nat by lia. reflexivity.
      * replace (List.length moves - i + 1)%nat
          with (List.length moves - (i + 2) + 1 + 1 * 2)%nat by lia.
        rewrite Nat.div_add by lia. lia.
    + apply Nat.ltb_ge in L.
      replace (List.length moves - i + 1)%nat with 1%nat by lia. reflexivity.
Qed.

(** X17.  The history panel shows every move under the index its click
    selects: the list of pairs has one entry per two moves (rounded up,
    the number the status panel shows as "Moves"), and in every pair the
    white move is the move at index [(moveNumber - 1) * 2] of the
    history, which always exists, and the black move is the move at the
    next index, missing only when the history ends there. *)
Theorem movePairs_indices moves :
  List.length (movePairs moves) = ((List.length moves + 1) / 2)%nat
  /\ forall p, In p (movePairs moves) ->
       pair_whiteMove p = nth_error moves (whiteIndex p)
       /\ pair_whiteMove p <> None
       /\ pair_blackMove p = nth_error moves (blackIndex p).
Proof.
  unfold movePairs. split.
  - rewrite movePairsFrom_length by lia. rewrite Nat.sub_0_r. reflexivity.
  - intros p Hin.
    destruct (@movePairsFrom_spec moves (List.length moves) 0%nat) with (p := p)
      as [B E]; [lia|reflexivity|exact Hin|].
    assert (W : pair_whiteMove p = nth_error moves (whiteIndex p))
      by (rewrite E at 1; reflexivity).
    assert (K : pair_blackMove p = nth_error moves (blackIndex p))
      by (rewrite E at 1; reflexivity).
    split; [exact W|]. split; [|exact K].
    rewrite W. apply nth_error_Some. exact B.
Qed.

(** ** The filter of the history page *)

(** X18.  The result filters of the history page match nothing: the
    page compares the result of a game ("win", "loss", "draw") with the
    name of the selected filter ("wins", "losses", "draws"), so with any
    filter other than "all" the filtered history is empty, whatever the
    games and the search text. *)
Theorem filteredHistory_result_filters_empty includesLower gameHistory searchQuery f :
  f <> filterAll ->
  filteredHistory includesLower gameHistory searchQuery f = [].
Proof.
  intros Hf. unfold filteredHistory.
  induction gameHistory as [|g l IH]; [reflexivity|].
  cbn [filter]. rewrite IH.
  assert (M : matchesFilter g f = false).
  { unfold matchesFilter. destruct f; [congruence| | |];
      destruct (game_result g); reflexivity. }
  rewrite M, andb_false_r. reflexivity.
Qed.

Lemma filteredHistory_result_filters_empty_witness :
  filteredHistory (fun a b => String.eqb a b)
                  [mkGameHistory "Stockfish" None resultWin] "Stockfish" filterWins = [].
Proof.
  apply filteredHistory_result_filters_empty. discriminate.
Defined.

(** ** The drop handler *)

(** X19.  Dropping a piece changes the game only through a legal move:
    on a well-formed board, for a piece standing on the square its
    position names, [handlePieceMove] hands the request to [makeMove]
    when it is the player's turn, the game is in play and the
    destination is among the piece's valid moves; in every other case
    it makes no move and leaves the game state as it was. *)
Theorem handlePieceMove_gate playerColor gs p to :
  wellFormed (board gs) -> onBoard gs p ->
  (currentPlayer gs = playerColor -> isGameActive gs = true ->
   In to (destinations (legalMoves gs p)) ->
   handlePieceMove playerColor p to gs
   = match makeMove p to None gs with
     | (Some m, gs') => (Some (Some m), gs')
     | (None, gs') => (None, gs')
     end)
  /\ (currentPlayer gs <> playerColor \/ isGameActive gs = false
      \/ ~ In to (destinations (legalMoves gs p)) ->
      handlePieceMove playerColor p to gs = (Some None, gs)).
Proof.
  intros W B.
  destruct (@validateMove_spec gs p to W B) as [v [E [V _]]].
  unfold handlePieceMove. cbv zeta. split.
  - intros Hc Ha Hin.
    assert (C : PieceColor_eqb (currentPlayer gs) playerColor = true)
      by (apply PieceColor_eqb_eq; exact Hc).
    rewrite C, Ha. cbn [negb orb]. unfold bind at 1. rewrite E.
    assert (Hv : mv_isValid v = true).
    { apply V. split; [|exact Hin].
      unfold destinations in Hin. apply in_map_iff in Hin.
      destruct Hin as [m [<- Hm]]. eapply legalMoves_valid; eauto. }
    rewrite Hv. unfold bind, ret.
    destruct (makeMove p to None gs) as [[m|] g]; reflexivity.
  - intros H.
    destruct (PieceColor_eqb (currentPlayer gs) playerColor) eqn:C; [|reflexivity].
    destruct (isGameActive gs) eqn:A; [|reflexivity].
    cbn [negb orb]. unfold bind at 1. rewrite E.
    destruct (mv_isValid v) eqn:Hv; [|reflexivity].
    exfalso. apply PieceColor_eqb_eq in C.
    destruct H as [H|[H|H]]; [congruence|discriminate H|].
    apply H. apply V. reflexivity.
Qed.

Lemma handlePieceMove_gate_witness :
  let gs := initialGameState in
  let p := pieceOn initialGameState (square fa 1) in
  (currentPlayer gs = white -> isGameActive gs = true ->
   In (square fa 5) (destinations (legalMoves gs p)) ->
   handlePieceMove white p (square fa 5) gs
   = match makeMove p (square fa 5) None gs with
     | (Some m, gs') => (Some (Some m), gs')
     | (None, gs') => (None, gs')
     end)
  /\ (currentPlayer gs <> white \/ isGameActive gs = false
      \/ ~ In (square fa 5) (destinations (legalMoves gs p)) ->
      handlePieceMove white p (square fa 5) gs = (Some None, gs)).
Proof.
  cbv zeta. apply handlePieceMove_gate.
  - exact wellFormed_initial.
  - split; reflexivity.
Defined.

(** ** What one write leaves *)

Lemma runs_det {A} (m : Engine A) gs (P Q : A -> GameState -> Prop) :
  runs m gs P -> runs m gs Q -> runs m gs (fun a g => P a g /\ Q a g).
Proof.
  intros [a [g [E HP]]] [a' [g' [E' HQ]]].
  rewrite E in E'. inversion E'; subst. exists a', g'. auto.
Qed.

Lemma runs_writeSquare_upd gs pos v :
  sound gs -> isValidPosition pos = true ->
  (forall q, v = Some q -> piece_position q = pos) ->
  runs (writeSquare pos v) gs
       (fun _ g =>
          sound g /\ g = withBoard gs (board g)
          /\ forall r c, boardGet (board g) r c = upd (boardGet (board gs)) pos v r c).
Proof.
  intros Hs Hv Hq.
  destruct (@writeSquare_spec gs pos v (proj1 Hs) Hv) as [b' [E [W G]]].
  destruct (@writeSquare_sound gs pos v Hs Hv Hq) as [g [E' [S _]]].
  rewrite E in E'. inversion E'; subst g.
  exists tt, (withBoard gs b'). split; [exact E|].
  split; [exact S|]. split; [reflexivity|]. exact G.
Qed.

Lemma getPieceAt_valid gs pos :
  isValidPosition pos = true -> getPieceAt gs pos = boardGet (board gs) (row pos) (col pos).
Proof. intros V. unfold getPieceAt. rewrite V. reflexivity. Qed.

Lemma rookFromCol_range from to : 0 <= rookFromCol from to < 8.
Proof. unfold rookFromCol. destruct (_ <? _); lia. Qed.

Lemma rookToCol_range from to : 0 <= rookToCol from to < 8.
Proof. unfold rookToCol. destruct (_ <? _); lia. Qed.

Lemma withBoard_chain gs g1 g2 :
  g1 = withBoard gs (board g1) -> g2 = withBoard g1 (board g2) ->
  g2 = withBoard gs (board g2).
Proof. intros E1 E2. rewrite E2 at 1. rewrite E1. reflexivity. Qed.

Lemma handleCastling_effect gs m :
  sound gs -> isValidPosition (move_from m) = true ->
  runs (handleCastling m) gs
       (fun m' g =>
          sound g /\ g = withBoard gs (board g)
          /\ sameMove m m' /\ move_capturedPiece m' = move_capturedPiece m
          /\ forall r c,
               boardGet (board g) r c
               = afterCastling (boardGet (board gs)) (piece_type (move_piece m))
                               (move_from m) (move_to m) r c).
Proof.
  intros Hs Hf. unfold handleCastling, afterCastling.
  fold (castlingShape (piece_type (move_piece m)) (move_from m) (move_to m)).
  destruct (castlingShape _ _ _).
  - cbv zeta.
    fold (rookFromCol (move_from m) (move_to m)).
    fold (rookToCol (move_from m) (move_to m)).
    set (rf := mkPosition (row (move_from m)) (rookFromCol (move_from m) (move_to m))).
    set (rt := mkPosition (row (move_from m)) (rookToCol (move_from m) (move_to m))).
    assert (Vf : isValidPosition rf = true)
      by (apply valid_in_row; [exact Hf|apply rookFromCol_range]).
    assert (Vt : isValidPosition rt = true)
      by (apply valid_in_row; [exact Hf|apply rookToCol_range]).
    eapply runs_bind with (Q := fun r g => g = gs /\ r = getPieceAt gs rf).
    { apply runs_reads. split; reflexivity. }
    intros r g [-> ->]. rewrite (@getPieceAt_valid gs rf Vf).
    change (boardGet (board gs) (row rf) (col rf))
      with (boardGet (board gs) (row (move_from m))
                     (rookFromCol (move_from m) (move_to m))).
    destruct (boardGet (board gs) (row (move_from m))
                       (rookFromCol (move_from m) (move_to m))) as [rk|].
    + eapply runs_bind
        with (Q := fun _ g =>
                sound g /\ g = withBoard gs (board g)
                /\ forall r c,
                     boardGet (board g) r c
                     = upd (upd (boardGet (board gs)) rf None) rt
                           (Some (movedTo rk rt (piece_type rk))) r c).
      { eapply runs_bind.
        - apply runs_writeSquare_upd; [exact Hs|exact Vf|discriminate].
        - intros _ g1 [S1 [E1 B1]]. cbv beta.
          eapply runs_weaken.
          + apply runs_writeSquare_upd; [exact S1|exact Vt|].
            intros q Hq. inversion Hq; subst. reflexivity.
          + intros _ g2 [S2 [E2 B2]].
            split; [exact S2|]. split; [exact (withBoard_chain E1 E2)|].
            intros r c. rewrite B2. unfold upd at 1 3. rewrite B1. reflexivity. }
      intros _ g2 [S2 [E2 B2]]. apply runs_ret.
      split; [exact S2|]. split; [exact E2|].
      split; [repeat split|]. split; [reflexivity|]. exact B2.
    + eapply runs_bind with (Q := fun _ g => g = gs);
        [apply runs_ret; reflexivity|].
      intros _ g ->. apply runs_ret.
      split; [exact Hs|]. split; [symmetry; apply withBoard_same|].
      split; [repeat split|]. split; reflexivity.
  - apply runs_ret. split; [exact Hs|]. split; [symmetry; apply withBoard_same|].
    split; [apply sameMove_refl|]. split; reflexivity.
Qed.

Lemma board_pushCaptured g cp : board (pushCaptured g cp) = board g.
Proof. unfold pushCaptured. destruct (piece_color cp); reflexivity. Qed.

Lemma pushCaptured_withBoard g b cp :
  pushCaptured (withBoard g b) cp = withBoard (pushCaptured g cp) b.
Proof. unfold pushCaptured. destruct (piece_color cp); reflexivity. Qed.

Lemma handleEnPassant_effect gs m :
  sound gs -> isValidPosition (move_from m) = true ->
  isValidPosition (move_to m) = true ->
  runs (handleEnPassant m) gs
       (fun m' g =>
          sound g
          /\ g = withTaken (withBoard gs (board g))
                           (enPassantVictim (boardGet (board gs))
                              (piece_type (move_piece m)) (move_capturedPiece m)
                              (move_from m) (move_to m))
          /\ sameMove m m'
          /\ move_capturedPiece m'
             = match enPassantVictim (boardGet (board gs))
                       (piece_type (move_piece m)) (move_capturedPiece m)
                       (move_from m) (move_to m) with
               | Some cp => Some cp
               | None => move_capturedPiece m
               end
          /\ forall r c,
               boardGet (board g) r c
               = afterEnPassant (boardGet (board gs)) (piece_type (move_piece m))
                                (move_capturedPiece m) (move_from m) (move_to m) r c).
Proof.
  intros Hs Hf Ht. unfold handleEnPassant, afterEnPassant, enPassantVictim.
  fold (enPassantShape (piece_type (move_piece m)) (move_capturedPiece m)
                       (move_from m) (move_to m)).
  destruct (enPassantShape _ _ _ _).
  - cbv zeta. set (sq := mkPosition (row (move_from m)) (col (move_to m))).
    assert (Vs : isValidPosition sq = true).
    { apply valid_in_row; [exact Hf|]. apply isValidPosition_true in Ht. lia. }
    eapply runs_bind with (Q := fun r g => g = gs /\ r = getPieceAt gs sq).
    { apply runs_reads. split; reflexivity. }
    intros r g [-> ->]. rewrite (@getPieceAt_valid gs sq Vs).
    change (boardGet (board gs) (row sq) (col sq))
      with (boardGet (board gs) (row (move_from m)) (col (move_to m))).
    destruct (boardGet (board gs) (row (move_from m)) (col (move_to m))) as [cp|].
    + eapply runs_bind.
      { apply runs_writeSquare_upd; [exact Hs|exact Vs|discriminate]. }
      intros _ g1 [S1 [E1 B1]]. cbv beta.
      eapply runs_bind with (Q := fun _ g => g = pushCaptured g1 cp).
      { apply runs_modify. reflexivity. }
      intros _ g2 ->. apply runs_ret.
      split; [apply sound_pushCaptured; exact S1|].
      split.
      { cbn [withTaken]. rewrite board_pushCaptured. rewrite <- E1. reflexivity. }
      split; [repeat split|]. split; [reflexivity|].
      intros r c. rewrite board_pushCaptured. apply B1.
    + apply runs_ret. split; [exact Hs|].
      split; [cbn [withTaken]; symmetry; apply withBoard_same|].
      split; [apply sameMove_refl|]. split; reflexivity.
  - apply runs_ret. split; [exact Hs|].
    split; [cbn [withTaken]; symmetry; apply withBoard_same|].
    split; [apply sameMove_refl|]. split; reflexivity.
Qed.

(** ** Attacks depend on the board only *)

Lemma getPieceAt_board g g' p : board g = board g' -> getPieceAt g p = getPieceAt g' p.
Proof. intros H. unfold getPieceAt. rewrite H. reflexivity. Qed.

Lemma linearFrom_board g g' p dr dc fuel : board g = board g' ->
  forall cur, linearFrom fuel g p dr dc cur = linearFrom fuel g' p dr dc cur.
Proof.
  intros H. induction fuel as [|k IH]; intros cur; cbn [linearFrom]; [reflexivity|].
  rewrite (@getPieceAt_board g g' cur H). rewrite IH. reflexivity.
Qed.

Lemma getLinearMoves_board g g' p ds : board g = board g' ->
  flat_map (getLinearMoves g p) ds = flat_map (getLinearMoves g' p) ds.
Proof.
  intros H. apply flat_map_ext. intros d. unfold getLinearMoves.
  apply linearFrom_board. exact H.
Qed.

Lemma getKnightMoves_board g g' p : board g = board g' ->
  getKnightMoves g p = getKnightMoves g' p.
Proof.
  intros H. unfold getKnightMoves. apply flat_map_ext. intros d.
  unfold stepMove. rewrite (@getPieceAt_board g g' (offsetBy (piece_position p) d) H).
  reflexivity.
Qed.

Lemma getRawMoves_board g g' p : board g = board g' -> getRawMoves g p = getRawMoves g' p.
Proof.
  intros H. unfold getRawMoves, getQueenMoves, getRookMoves, getBishopMoves.
  destruct (piece_type p).
  - reflexivity.
  - apply getLinearMoves_board; exact H.
  - apply getKnightMoves_board; exact H.
  - apply getLinearMoves_board; exact H.
  - rewrite (@getLinearMoves_board g g' p rookDirections H).
    rewrite (@getLinearMoves_board g g' p bishopDirections H). reflexivity.
  - reflexivity.
Qed.

Lemma getAllPieces_board g g' c : board g = board g' -> getAllPieces g c = getAllPieces g' c.
Proof. intros H. unfold getAllPieces. rewrite H. reflexivity. Qed.

Lemma isSquareUnderAttack_board g g' sq c : board g = board g' ->
  isSquareUnderAttack g sq c = isSquareUnderAttack g' sq c.
Proof.
  intros H. unfold isSquareUnderAttack. rewrite (@getAllPieces_board g g' (opposite c) H).
  induction (getAllPieces g' (opposite c)) as [|a l IH];
    cbn [existsb]; [reflexivity|].
  rewrite IH, (@getRawMoves_board g g' a H). reflexivity.
Qed.

Lemma isInCheck_board g g' c : board g = board g' -> isInCheck g c = isInCheck g' c.
Proof.
  intros H. unfold isInCheck, findKing. rewrite (@getAllPieces_board g g' c H).
  destruct (findFirst _ _) as [k|]; [|reflexivity].
  apply isSquareUnderAttack_board. exact H.
Qed.

(** ** The effect of [makeMove] *)

Lemma upd_ext F G pos v :
  (forall r c, F r c = G r c) -> forall r c, upd F pos v r c = upd G pos v r c.
Proof. intros H r c. unfold upd. rewrite H. reflexivity. Qed.

Lemma afterCastling_ext F G t from to :
  (forall r c, F r c = G r c) ->
  forall r c, afterCastling F t from to r c = afterCastling G t from to r c.
Proof.
  intros H r c. unfold afterCastling. destruct (castlingShape t from to); [|apply H].
  rewrite H. destruct (G (row from) (rookFromCol from to)) as [rk|]; [|apply H].
  cbv zeta. apply upd_ext. apply upd_ext. exact H.
Qed.

Lemma enPassantVictim_ext F G t cap from to :
  (forall r c, F r c = G r c) ->
  enPassantVictim F t cap from to = enPassantVictim G t cap from to.
Proof.
  intros H. unfold enPassantVictim. destruct (enPassantShape t cap from to);
    [apply H|reflexivity].
Qed.

Lemma afterEnPassant_ext F G t cap from to :
  (forall r c, F r c = G r c) ->
  forall r c, afterEnPassant F t cap from to r c = afterEnPassant G t cap from to r c.
Proof.
  intros H r c. unfold afterEnPassant.
  rewrite (@enPassantVictim_ext F G t cap from to H).
  destruct (enPassantVictim G t cap from to); [apply upd_ext; exact H|apply H].
Qed.

Lemma sameTurn_withBoard gs g : g = withBoard gs (board g) -> sameTurn gs g.
Proof. intros E. rewrite E. repeat split. Qed.

Lemma sameCaptured_withBoard gs g : g = withBoard gs (board g) -> sameCaptured gs g.
Proof. intros E. rewrite E. repeat split. Qed.

Lemma sameTurn_trans g1 g2 g3 : sameTurn g1 g2 -> sameTurn g2 g3 -> sameTurn g1 g3.
Proof. unfold sameTurn. intros [? [? ?]] [? [? ?]]. repeat split; congruence. Qed.

Lemma sameTurn_withTaken g t : sameTurn g (withTaken g t).
Proof.
  destruct t as [cp|]; [|repeat split].
  unfold withTaken, pushCaptured. destruct (piece_color cp); repeat split.
Qed.

Lemma board_withTaken g t : board (withTaken g t) = board g.
Proof. destruct t; [apply board_pushCaptured|reflexivity]. Qed.

Lemma sound_withTaken g t : sound g -> sound (withTaken g t).
Proof. destruct t; [apply sound_pushCaptured|auto]. Qed.

Lemma captured_withTaken gs g t :
  sameCaptured gs g -> sameCaptured (withTaken gs t) (withTaken g t).
Proof.
  intros [W B]. destruct t as [cp|]; [|split; assumption].
  unfold withTaken, pushCaptured, sameCaptured.
  destruct (piece_color cp); cbn [capturedWhite capturedBlack]; split; congruence.
Qed.

Lemma enPassantVictim_captured F t cp from to :
  enPassantVictim F t (Some cp) from to = None.
Proof.
  unfold enPassantVictim, enPassantShape. cbn [isSome negb].
  rewrite andb_false_r. reflexivity.
Qed.

Lemma handleSpecialMoves_effect gs m :
  sound gs -> isValidPosition (move_from m) = true ->
  isValidPosition (move_to m) = true ->
  runs (handleSpecialMoves m) gs
       (fun m' g =>
          let F3 := afterCastling (boardGet (board gs)) (piece_type (move_piece m))
                                  (move_from m) (move_to m) in
          let victim := enPassantVictim F3 (piece_type (move_piece m))
                                        (move_capturedPiece m) (move_from m) (move_to m) in
          sound g /\ sameTurn gs g /\ sameCaptured (withTaken gs victim) g
          /\ sameMove m m'
          /\ move_capturedPiece m'
             = match victim with Some cp => Some cp | None => move_capturedPiece m end
          /\ forall r c,
               boardGet (board g) r c
               = afterEnPassant F3 (piece_type (move_piece m)) (move_capturedPiece m)
                                (move_from m) (move_to m) r c).
Proof.
  intros Hs Hf Ht. unfold handleSpecialMoves.
  eapply runs_bind; [apply handleCastling_effect; assumption|].
  intros m1 g3 [S3 [E3 [[P1 [F1 T1]] [C1 B3]]]]. cbv beta.
  eapply runs_weaken.
  { apply handleEnPassant_effect; [exact S3| |]; congruence. }
  intros m2 g4 [S4 [E4 [[P2 [F2 T2]] [C2 B4]]]]. cbv beta zeta.
  rewrite P1, F1, T1, C1 in *.
  rewrite (@enPassantVictim_ext (boardGet (board g3))
             (afterCastling (boardGet (board gs)) (piece_type (move_piece m))
                            (move_from m) (move_to m))
             (piece_type (move_piece m)) (move_capturedPiece m)
             (move_from m) (move_to m) B3) in *.
  set (victim := enPassantVictim _ _ _ _ _) in *.
  split; [exact S4|]. split; [|split; [|split; [|split]]].
  - rewrite E4. eapply sameTurn_trans; [|apply sameTurn_withTaken].
    eapply sameTurn_trans; [apply sameTurn_withBoard; exact E3|]. repeat split.
  - rewrite E4. apply captured_withTaken.
    destruct (sameCaptured_withBoard E3) as [W B]. split; [exact W|exact B].
  - repeat split; congruence.
  - exact C2.
  - intros r c. rewrite B4. apply afterEnPassant_ext. exact B3.
Qed.

Lemma takenBy_split gs piece to promo :
  let victim :=
    enPassantVictim
      (afterCastling (afterWrites gs piece to promo)
                     (piece_type piece) (piece_position piece) to)
      (piece_type piece) (getPieceAt gs to) (piece_position piece) to in
  withTaken (withTaken gs victim) (getPieceAt gs to)
  = withTaken gs (takenBy gs piece to promo)
  /\ match victim with Some cp => Some cp | None => getPieceAt gs to end
     = takenBy gs piece to promo.
Proof.
  cbv zeta. unfold takenBy. destruct (getPieceAt gs to) as [cp|].
  - rewrite enPassantVictim_captured. split; reflexivity.
  - destruct (enPassantVictim _ _ _ _ _); split; reflexivity.
Qed.

(** On a sound state, for a piece object and a destination that name
    squares of the board, [makeMove] returns; the lemma says what it
    leaves in every field of the game state and of the move record. *)
Lemma makeMove_effect gs piece to promo :
  sound gs -> isValidPosition (piece_position piece) = true ->
  isValidPosition to = true ->
  runs (makeMove piece to promo) gs
       (fun m g =>
          sound g
          /\ (forall r c, boardGet (board g) r c = boardAfter gs piece to promo r c)
          /\ sameCaptured (withTaken gs (takenBy gs piece to promo)) g
          /\ moves g = moves gs ++ [m]
          /\ currentPlayer g = opposite (currentPlayer gs)
          /\ (move_piece m = piece /\ move_from m = piece_position piece
              /\ move_to m = to)
          /\ move_capturedPiece m = takenBy gs piece to promo
          /\ move_isCheck m = isInCheck g (currentPlayer g)
          /\ statusAfter (status gs) m (status g)).
Proof.
  intros Hs Hp Ht. unfold makeMove. fold (promotedType piece promo).
  eapply runs_bind with (Q := fun cp g => g = gs /\ cp = getPieceAt gs to).
  { apply runs_reads. split; reflexivity. }
  intros capturedPiece g0 [-> ->].
  eapply runs_bind.
  { apply runs_writeSquare_upd; [exact Hs|exact Hp|discriminate]. }
  intros _ g1 [S1 [E1 B1]]. cbv beta.
  eapply runs_bind
    with (Q := fun _ g =>
            sound g /\ g = withBoard gs (board g)
            /\ forall r c, boardGet (board g) r c = afterWrites gs piece to promo r c).
  { eapply runs_weaken.
    - apply runs_writeSquare_upd; [exact S1|exact Ht|].
      intros q Hq. inversion Hq; subst. reflexivity.
    - intros _ g2 [S2 [E2 B2]]. split; [exact S2|].
      split; [exact (withBoard_chain E1 E2)|].
      intros r c. rewrite B2. unfold afterWrites. apply upd_ext. exact B1. }
  intros _ g2 [S2 [E2 B2]].
  destruct (takenBy_split gs piece to promo) as [TS TC].
  set (victim := enPassantVictim
                   (afterCastling (afterWrites gs piece to promo)
                                  (piece_type piece) (piece_position piece) to)
                   (piece_type piece) (getPieceAt gs to) (piece_position piece) to) in *.
  eapply runs_bind
    with (Q := fun m1 g =>
            sound g /\ sameTurn gs g /\ sameCaptured (withTaken gs victim) g
            /\ (move_piece m1 = piece /\ move_from m1 = piece_position piece
                /\ move_to m1 = to)
            /\ move_capturedPiece m1 = takenBy gs piece to promo
            /\ forall r c, boardGet (board g) r c = boardAfter gs piece to promo r c).
  { eapply runs_weaken.
    - apply handleSpecialMoves_effect; [exact S2|exact Hp|exact Ht].
    - cbn [move_piece move_from move_to move_capturedPiece].
      intros m1 g4 [S4 [T4 [C4 [M4 [K4 B4]]]]].
      assert (X : enPassantVictim
                    (afterCastling (boardGet (board g2)) (piece_type piece)
                                   (piece_position piece) to)
                    (piece_type piece) (getPieceAt gs to) (piece_position piece) to
                  = victim).
      { apply enPassantVictim_ext. apply afterCastling_ext. exact B2. }
      rewrite X in *.
      split; [exact S4|]. split; [|split; [|split; [|split]]].
      + eapply sameTurn_trans; [apply sameTurn_withBoard; exact E2|exact T4].
      + destruct C4 as [W B]. destruct (sameCaptured_withBoard E2) as [W2 B2'].
        split.
        * rewrite W. destruct victim as [cp|]; cbn [withTaken]; [|exact W2].
          unfold pushCaptured. destruct (piece_color cp); cbn [capturedWhite];
            congruence.
        * rewrite B. destruct victim as [cp|]; cbn [withTaken]; [|exact B2'].
          unfold pushCaptured. destruct (piece_color cp); cbn [capturedBlack];
            congruence.
      + exact M4.
      + rewrite K4. exact TC.
      + intros r c. rewrite B4. unfold boardAfter. apply afterEnPassant_ext.
        apply afterCastling_ext. exact B2. }
  intros move1 g4 [S4 [T4 [C4 [M4 [K4 B4]]]]].
  eapply runs_bind
    with (Q := fun _ g =>
            sound g /\ sameTurn gs g
            /\ sameCaptured (withTaken gs (takenBy gs piece to promo)) g
            /\ forall r c, boardGet (board g) r c = boardAfter gs piece to promo r c).
  { assert (R : runs (modify (fun g => withTaken g (getPieceAt gs to))) g4
                     (fun _ g => g = withTaken g4 (getPieceAt gs to)))
      by (apply runs_modify; reflexivity).
    assert (Post : forall g, g = withTaken g4 (getPieceAt gs to) ->
                   sound g /\ sameTurn gs g
                   /\ sameCaptured (withTaken gs (takenBy gs piece to promo)) g
                   /\ forall r c,
                        boardGet (board g) r c = boardAfter gs piece to promo r c).
    { intros g ->. split; [apply sound_withTaken; exact S4|].
      split; [eapply sameTurn_trans; [exact T4|apply sameTurn_withTaken]|].
      split.
      - rewrite <- TS. apply captured_withTaken. exact C4.
      - intros r c. rewrite board_withTaken. apply B4. }
    destruct (getPieceAt gs to) as [cp|].
    - apply runs_modify. apply Post. reflexivity.
    - apply runs_ret. apply Post. reflexivity. }
  intros _ g5 [S5 [T5 [C5 B5]]].
  eapply runs_bind
    with (Q := fun o g => g = g5 /\ o = opposite (currentPlayer gs)).
  { apply runs_reads. split; [reflexivity|]. destruct T5 as [T5 _]. rewrite T5.
    reflexivity. }
  intros opponentColor g [-> ->].
  eapply runs_bind
    with (Q := fun b g => g = g5 /\ b = isInCheck g5 (opposite (currentPlayer gs))).
  { apply runs_reads. split; reflexivity. }
  intros isCheck g [-> ->].
  eapply runs_bind
    with (Q := fun m2 g =>
            sound g /\ board g = board g5
            /\ currentPlayer g = currentPlayer gs /\ moves g = moves gs
            /\ sameCaptured g5 g
            /\ (move_piece m2 = piece /\ move_from m2 = piece_position piece
                /\ move_to m2 = to)
            /\ move_capturedPiece m2 = takenBy gs piece to promo
            /\ move_isCheck m2 = isInCheck g5 (opposite (currentPlayer gs))
            /\ statusAfter (status gs) m2 (status g)).
  { destruct T5 as [T5a [T5b T5c]].
    destruct (isInCheck g5 (opposite (currentPlayer gs))) eqn:IC.
    - eapply runs_bind; [apply runs_isCheckmate; exact S5|].
      intros mate g ->.
      eapply runs_bind
        with (Q := fun _ g => g = withStatus g5 (if mate then checkmate else check)).
      { apply runs_modify. reflexivity. }
      intros _ g ->. apply runs_ret.
      split; [apply sound_withStatus; exact S5|].
      cbn [board withStatus currentPlayer moves status].
      unfold statusAfter, sameCaptured.
      cbn [setCheck move_piece move_from move_to move_capturedPiece
           move_isCheck move_isCheckmate capturedWhite capturedBlack].
      auto 15.
    - eapply runs_bind; [apply runs_isStalemate; exact S5|].
      intros stale g ->.
      eapply runs_bind
        with (Q := fun _ g => g = if stale then withStatus g5 stalemate else g5).
      { destruct stale; [apply runs_modify|apply runs_ret]; reflexivity. }
      intros _ g ->. apply runs_ret.
      split; [destruct stale; [apply sound_withStatus|]; exact S5|].
      unfold statusAfter, sameCaptured.
      cbn [setCheck move_piece move_from move_to move_capturedPiece
           move_isCheck move_isCheckmate].
      destruct stale; cbn [board withStatus currentPlayer moves status
                           capturedWhite capturedBlack]; auto 15. }
  intros move2 g6 [S6 [Bd6 [P6 [Mv6 [C6 [M6 [K6 [I6 St6]]]]]]]].
  eapply runs_bind with (Q := fun _ g => g = pushMove g6 move2).
  { apply runs_modify. reflexivity. }
  intros _ g ->.
  eapply runs_bind
    with (Q := fun _ g =>
            g = withCurrentPlayer (pushMove g6 move2) (opposite (currentPlayer gs))).
  { apply runs_modify. reflexivity. }
  intros _ g ->. apply runs_ret.
  cbn [board withCurrentPlayer pushMove currentPlayer moves status].
  split; [exact S6|]. split; [intros r c; rewrite Bd6; apply B5|].
  split.
  { destruct C5 as [W5 B5']. destruct C6 as [W6 B6]. split; cbn; congruence. }
  split; [rewrite Mv6; reflexivity|]. split; [reflexivity|].
  split; [exact M6|]. split; [exact K6|]. split; [|exact St6].
  rewrite I6. apply isInCheck_board. symmetry. exact Bd6.
Qed.

(** X20.  On a sound state, for a piece object and a destination that
    name squares of the board, [makeMove] returns; it appends exactly
    the returned record to the move history, hands the turn to the other
    colour (whatever the colour of the piece moved), records the piece
    object, its square and the destination it was given, and sets the
    record's [isCheck] flag to whether the side now to move is in
    check. *)
Theorem makeMove_bookkeeping gs piece to promo :
  sound gs -> isValidPosition (piece_position piece) = true ->
  isValidPosition to = true ->
  exists m gs',
    makeMove piece to promo gs = (Some m, gs')
    /\ moves gs' = moves gs ++ [m]
    /\ currentPlayer gs' = opposite (currentPlayer gs)
    /\ move_piece m = piece /\ move_from m = piece_position piece /\ move_to m = to
    /\ move_isCheck m = isInCheck gs' (currentPlayer gs').
Proof.
  intros Hs Hp Ht.
  destruct (@makeMove_effect gs piece to promo Hs Hp Ht)
    as [m [g [E [_ [_ [_ [Mv [Cp [[M1 [M2 M3]] [_ [Ck _]]]]]]]]]]].
  exists m, g. auto 10.
Qed.

Lemma makeMove_bookkeeping_witness :
  exists m gs',
    makeMove (pieceOn initialGameState (square fe 2)) (square fe 4) None initialGameState
    = (Some m, gs')
    /\ moves gs' = moves initialGameState ++ [m]
    /\ currentPlayer gs' = opposite (currentPlayer initialGameState)
    /\ move_piece m = pieceOn initialGameState (square fe 2)
    /\ move_from m = piece_position (pieceOn initialGameState (square fe 2))
    /\ move_to m = square fe 4
    /\ move_isCheck m = isInCheck gs' (currentPlayer gs').
Proof.
  apply makeMove_bookkeeping.
  - exact sound_initial.
  - reflexivity.
  - reflexivity.
Defined.

(** X21.  [makeMove] only ever writes [check], [checkmate] or
    [stalemate] into the status: after a move that gives check the
    status is [checkmate] or [check] as the record's flag says; after
    any other move it is [stalemate] or what it was before.  So the
    status is [active] after a move only if it was [active] before it,
    and once it has left [active] no move brings it back. *)
Theorem makeMove_never_reactivates gs piece to promo :
  sound gs -> isValidPosition (piece_position piece) = true ->
  isValidPosition to = true ->
  exists m gs',
    makeMove piece to promo gs = (Some m, gs')
    /\ (move_isCheck m = true ->
        status gs' = if move_isCheckmate m then checkmate else check)
    /\ (move_isCheck m = false ->
        status gs' = stalemate \/ status gs' = status gs)
    /\ (status gs' = active -> status gs = active).
Proof.
  intros Hs Hp Ht.
  destruct (@makeMove_effect gs piece to promo Hs Hp Ht)
    as [m [g [E [_ [_ [_ [_ [_ [_ [_ [_ St]]]]]]]]]]].
  exists m, g. split; [exact E|]. unfold statusAfter in St.
  destruct (move_isCheck m).
  - split; [intros _; exact St|]. split; [discriminate|].
    rewrite St. destruct (move_isCheckmate m); discriminate.
  - destruct St as [_ St]. split; [discriminate|]. split; [intros _; exact St|].
    destruct St as [St|St]; rewrite St; [discriminate|auto].
Qed.

Lemma makeMove_never_reactivates_witness :
  let gs := positionAfter checkGame in
  exists m gs',
    makeMove (pieceOn gs (square fg 7)) (square fg 6) None gs = (Some m, gs')
    /\ (move_isCheck m = true ->
        status gs' = if move_isCheckmate m then checkmate else check)
    /\ (move_isCheck m = false ->
        status gs' = stalemate \/ status gs' = status gs)
    /\ (status gs' = active -> status gs = active).
Proof.
  cbv zeta. apply makeMove_never_reactivates.
  - apply reachable_sound. apply positionAfter_reachable. vm_compute; reflexivity.
  - vm_compute; reflexivity.
  - reflexivity.
Defined.

(** ** Where a legal move puts the piece *)

Lemma upd_same F pos v : upd F pos v (row pos) (col pos) = v.
Proof. unfold upd. rewrite !Z.eqb_refl. reflexivity. Qed.

Lemma upd_other F pos v r c :
  row pos <> r \/ col pos <> c -> upd F pos v r c = F r c.
Proof.
  intros H. unfold upd.
  destruct (row pos =? r) eqn:R; [|reflexivity].
  destruct (col pos =? c) eqn:C; [|reflexivity].
  apply Z.eqb_eq in R, C. exfalso. destruct H; auto.
Qed.

Lemma kingStep_to gs k sq m : In m (kingStep gs k sq) -> vm_to m = sq.
Proof.
  unfold kingStep. destruct (isValidPosition sq); [|intros []].
  destruct (getPieceAt gs sq) as [t|].
  - destruct (negb (PieceColor_eqb (piece_color t) (piece_color k))); [|intros []].
    destruct (negb (isSquareUnderAttack gs sq (piece_color k))); [|intros []].
    intros [<-|[]]. reflexivity.
  - destruct (negb (isSquareUnderAttack gs sq (piece_color k))); [|intros []].
    intros [<-|[]]. reflexivity.
Qed.

Lemma kingOffsets_col d : In d kingOffsets -> Z.abs (snd d) <= 1.
Proof.
  unfold kingOffsets. cbn [In].
  intros [<-|[<-|[<-|[<-|[<-|[<-|[<-|[<-|[]]]]]]]]]; cbn [snd]; lia.
Qed.

(** A king that crosses two columns does so by a castling move. *)
Lemma king_two_columns gs k m :
  piece_type k = king -> In m (pseudoLegalMoves gs k) ->
  Z.abs (col (vm_to m) - col (piece_position k)) = 2 ->
  exists s, In m (castleMove gs k s).
Proof.
  intros T Hin D. unfold pseudoLegalMoves in Hin. rewrite T in Hin.
  unfold getKingMoves in Hin. apply in_app_or in Hin. destruct Hin as [Hin|Hin].
  - apply in_flat_map in Hin. destruct Hin as [d [Hd Hin]].
    apply kingStep_to in Hin. rewrite Hin in D. unfold offsetBy in D. cbn [col] in D.
    pose proof (@kingOffsets_col d Hd). lia.
  - destruct (negb (piece_hasMoved k) && negb (isInCheck gs (piece_color k)));
      [|destruct Hin].
    apply in_app_or in Hin.
    destruct Hin as [Hin|Hin]; [exists kingside|exists queenside]; exact Hin.
Qed.

(** A pawn always leaves its rank. *)
Lemma pawn_leaves_rank gs p m :
  piece_type p = pawn -> In m (pseudoLegalMoves gs p) ->
  row (vm_to m) <> row (piece_position p).
Proof.
  intros T Hin. unfold pseudoLegalMoves in Hin. rewrite T in Hin.
  pose proof (direction_nonzero (piece_color p)) as Dz.
  unfold getPawnMoves in Hin. apply in_app_or in Hin. destruct Hin as [Hin|Hin].
  - unfold pawnForward in Hin. cbv zeta in Hin.
    destruct (_ && _) in Hin; [|destruct Hin].
    destruct Hin as [<-|Hin]; [cbn [vm_to row]; lia|].
    destruct (_ && _) in Hin; [|destruct Hin].
    destruct Hin as [<-|[]]. cbn [vm_to plainMove row]. lia.
  - apply in_flat_map in Hin. destruct Hin as [d [_ Hin]].
    unfold pawnDiagonal in Hin. cbv zeta in Hin.
    destruct (isValidPosition _) in Hin; [|destruct Hin].
    apply in_app_or in Hin. destruct Hin as [Hin|Hin].
    + destruct (getPieceAt gs _) as [q|] in Hin; [|destruct Hin].
      destruct (negb _) in Hin; [|destruct Hin].
      destruct Hin as [<-|[]]. cbn [vm_to row]. lia.
    + destruct (canEnPassant gs p _) in Hin; [|destruct Hin].
      destruct Hin as [<-|[]]. cbn [vm_to row]. lia.
Qed.

Lemma castlingShape_true t from to :
  castlingShape t from to = true -> t = king /\ Z.abs (col to - col from) = 2.
Proof.
  unfold castlingShape. intros H. apply andb_true_iff in H. destruct H as [H1 H2].
  apply PieceType_eqb_eq in H1. apply Z.eqb_eq in H2. auto.
Qed.

Lemma enPassantShape_true t cap from to :
  enPassantShape t cap from to = true -> t = pawn /\ cap = None /\ col to <> col from.
Proof.
  unfold enPassantShape. intros H. apply andb_true_iff in H. destruct H as [H H3].
  apply andb_true_iff in H. destruct H as [H1 H2].
  apply PieceType_eqb_eq in H1. apply negb_true_iff in H3. apply Z.eqb_neq in H3.
  destruct cap; [discriminate H2|]. auto.
Qed.


Lemma legal_shapely gs p to :
  onBoard gs p -> In to (destinations (legalMoves gs p)) -> shapely gs p to.
Proof.
  intros B Hin. unfold destinations in Hin. apply in_map_iff in Hin.
  destruct Hin as [m [<- Hm]]. unfold legalMoves in Hm. apply filter_In in Hm.
  destruct Hm as [Hm _]. split; [|split].
  - exact (@pseudoLegal_moves_away gs p m B Hm).
  - intros C. apply castlingShape_true in C. destruct C as [T D].
    destruct (@king_two_columns gs p m T Hm D) as [s Hs].
    apply (@castleMove_inv gs p s m) in Hs. destruct Hs as [-> _]. cbn [vm_to col].
    destruct s; cbn [castleTarget]; auto.
  - intros C. apply enPassantShape_true in C. destruct C as [T _].
    apply (@pawn_leaves_rank gs p m T Hm).
Qed.

Lemma position_neq (a b : Position) : a <> b -> row a <> row b \/ col a <> col b.
Proof.
  intros H. destruct (Z.eq_dec (row a) (row b)) as [R|R]; [|left; exact R].
  right. intros C. apply H. destruct a, b; cbn in *; congruence.
Qed.

Lemma afterWrites_to gs p to promo :
  afterWrites gs p to promo (row to) (col to)
  = Some (movedTo p to (promotedType p promo)).
Proof. unfold afterWrites. apply upd_same. Qed.

Lemma afterWrites_from gs p to promo :
  to <> piece_position p ->
  afterWrites gs p to promo (row (piece_position p)) (col (piece_position p)) = None.
Proof.
  intros H. unfold afterWrites. rewrite upd_other by (apply position_neq; exact H).
  apply upd_same.
Qed.

Lemma boardAfter_to gs p to promo :
  shapely gs p to ->
  boardAfter gs p to promo (row to) (col to)
  = Some (movedTo p to (promotedType p promo)).
Proof.
  intros [N [SC SE]]. unfold boardAfter, afterEnPassant, enPassantVictim.
  destruct (enPassantShape _ _ _ _) eqn:EP.
  - destruct (@enPassantShape_true _ _ _ _ EP) as [T _].
    specialize (SE eq_refl).
    assert (NC : castlingShape (piece_type p) (piece_position p) to = false)
      by (unfold castlingShape; rewrite T; reflexivity).
    unfold afterCastling. rewrite NC.
    destruct (afterWrites gs p to promo (row (piece_position p)) (col to));
      [|apply afterWrites_to].
    rewrite upd_other by (cbn [row col]; left; congruence).
    apply afterWrites_to.
  - unfold afterCastling.
    destruct (castlingShape _ _ _) eqn:CS; [|apply afterWrites_to].
    specialize (SC eq_refl).
    destruct (afterWrites gs p to promo _ _); [|apply afterWrites_to].
    cbv zeta.
    assert (R1 : rookToCol (piece_position p) to <> col to)
      by (unfold rookToCol; destruct (_ <? _); lia).
    assert (R2 : rookFromCol (piece_position p) to <> col to)
      by (unfold rookFromCol; destruct (_ <? _); lia).
    rewrite upd_other by (cbn [row col]; right; exact R1).
    rewrite upd_other by (cbn [row col]; right; exact R2).
    apply afterWrites_to.
Qed.

Lemma boardAfter_from gs p to promo :
  shapely gs p to ->
  boardAfter gs p to promo (row (piece_position p)) (col (piece_position p)) = None.
Proof.
  intros [N [SC SE]]. unfold boardAfter, afterEnPassant, enPassantVictim.
  destruct (enPassantShape _ _ _ _) eqn:EP.
  - destruct (@enPassantShape_true _ _ _ _ EP) as [T [_ C]].
    assert (NC : castlingShape (piece_type p) (piece_position p) to = false)
      by (unfold castlingShape; rewrite T; reflexivity).
    unfold afterCastling. rewrite NC.
    destruct (afterWrites gs p to promo (row (piece_position p)) (col to));
      [|apply afterWrites_from; exact N].
    rewrite upd_other by (cbn [row col]; right; exact C).
    apply afterWrites_from; exact N.
  - unfold afterCastling.
    destruct (castlingShape _ _ _) eqn:CS; [|apply afterWrites_from; exact N].
    specialize (SC eq_refl). destruct (@castlingShape_true _ _ _ CS) as [_ D].
    destruct (afterWrites gs p to promo _ _) eqn:RK;
      [|apply afterWrites_from; exact N].
    cbv zeta.
    assert (R1 : rookToCol (piece_position p) to <> col (piece_position p))
      by (unfold rookToCol; destruct (_ <? _); lia).
    rewrite upd_other by (cbn [row col]; right; exact R1).
    unfold upd at 1. destruct (_ && _); [reflexivity|].
    apply afterWrites_from; exact N.
Qed.

(** X22.  A legal move puts the piece where it was sent.  On a sound
    state, for a piece standing on the square its position names and a
    destination among its valid moves, [makeMove] called without a
    promotion piece (as the game page calls it) leaves the origin square
    empty and, on the destination, the piece with its position updated,
    [hasMoved] set and its type unchanged: a pawn that reaches the last
    rank stays a pawn. *)
Theorem makeMove_relocates gs p to :
  sound gs -> onBoard gs p -> In to (destinations (legalMoves gs p)) ->
  exists m gs',
    makeMove p to None gs = (Some m, gs')
    /\ getPieceAt gs' to = Some (mkPiece (piece_id p) (piece_type p) (piece_color p) to true)
    /\ getPieceAt gs' (piece_position p) = None.
Proof.
  intros Hs B Hin.
  assert (Vt : isValidPosition to = true).
  { unfold destinations in Hin. apply in_map_iff in Hin.
    destruct Hin as [m [<- Hm]]. eapply legalMoves_valid; eauto. }
  pose proof (@legal_shapely gs p to B Hin) as Sh.
  destruct (@makeMove_effect gs p to None Hs (proj1 B) Vt)
    as [m [g [E [_ [Bd _]]]]].
  exists m, g. split; [exact E|]. split.
  - rewrite (@getPieceAt_valid g to Vt), Bd. apply boardAfter_to. exact Sh.
  - rewrite (@getPieceAt_valid g (piece_position p) (proj1 B)), Bd.
    apply boardAfter_from. exact Sh.
Qed.

Lemma makeMove_relocates_witness :
  let p := pieceOn initialGameState (square fe 2) in
  exists m gs',
    makeMove p (square fe 4) None initialGameState = (Some m, gs')
    /\ getPieceAt gs' (square fe 4)
       = Some (mkPiece (piece_id p) (piece_type p) (piece_color p) (square fe 4) true)
    /\ getPieceAt gs' (piece_position p) = None.
Proof.
  cbv zeta. apply makeMove_relocates.
  - exact sound_initial.
  - split; reflexivity.
  - vm_compute. auto.
Defined.

(** ** Pieces that have not moved *)

Lemma keeps_refl G : keeps G G.
Proof. intros r c q H. right; exact H. Qed.

Lemma keeps_upd_none G F pos : keeps G F -> keeps G (upd F pos None).
Proof.
  intros K r c q H. unfold upd in H.
  destruct (_ && _); [discriminate H|apply K; exact H].
Qed.

Lemma keeps_upd_moved G F pos x to t :
  keeps G F -> keeps G (upd F pos (Some (movedTo x to t))).
Proof.
  intros K r c q H. unfold upd in H. destruct (_ && _).
  - inversion H; subst. left; reflexivity.
  - apply K; exact H.
Qed.

Lemma keeps_boardAfter gs p to promo :
  keeps (boardGet (board gs)) (boardAfter gs p to promo).
Proof.
  unfold boardAfter, afterEnPassant.
  assert (K3 : keeps (boardGet (board gs))
                     (afterCastling (afterWrites gs p to promo) (piece_type p)
                                    (piece_position p) to)).
  { unfold afterCastling.
    assert (K2 : keeps (boardGet (board gs)) (afterWrites gs p to promo)).
    { unfold afterWrites. apply keeps_upd_moved. apply keeps_upd_none.
      apply keeps_refl. }
    destruct (castlingShape _ _ _); [|exact K2].
    destruct (afterWrites gs p to promo _ _); [|exact K2].
    cbv zeta. apply keeps_upd_moved. apply keeps_upd_none. exact K2. }
  destruct (enPassantVictim _ _ _ _ _); [apply keeps_upd_none|]; exact K3.
Qed.

Lemma legalStep_inv gs from to gs' :
  sound gs -> legalStep gs from to = Some gs' ->
  exists p m,
    getPieceAt gs from = Some p /\ onBoard gs p
    /\ piece_color p = currentPlayer gs
    /\ In to (destinations (legalMoves gs p))
    /\ makeMove p to None gs = (Some m, gs').
Proof.
  intros Hs H. unfold legalStep in H.
  destruct (getPieceAt gs from) as [p|] eqn:G; [|discriminate].
  destruct (PieceColor_eqb _ _) eqn:C; [|discriminate].
  apply PieceColor_eqb_eq in C.
  pose proof (@getPieceAt_onBoard gs from p Hs G) as Hon.
  rewrite (@getValidMoves_pure gs p (proj1 Hs) Hon) in H.
  destruct (existsb _ _) eqn:Ex; [|discriminate].
  apply existsb_exists in Ex. destruct Ex as [vm [Hm Hto]].
  apply Position_eqb_eq in Hto.
  destruct (makeMove p to None gs) as [[m|] g] eqn:E; [|discriminate].
  inversion H; subst g. exists p, m.
  split; [reflexivity|]. split; [exact Hon|]. split; [exact C|].
  split; [|exact E]. unfold destinations. rewrite <- Hto. apply in_map. exact Hm.
Qed.

Lemma unmovedAtHome_step gs from to gs' :
  sound gs -> unmovedAtHome gs -> legalStep gs from to = Some gs' -> unmovedAtHome gs'.
Proof.
  intros Hs U H.
  destruct (@legalStep_inv gs from to gs' Hs H) as [p [m [_ [B [_ [Hin E]]]]]].
  assert (Vt : isValidPosition to = true).
  { unfold destinations in Hin. apply in_map_iff in Hin.
    destruct Hin as [vm [<- Hm]]. eapply legalMoves_valid; eauto. }
  destruct (@makeMove_effect gs p to None Hs (proj1 B) Vt)
    as [m' [g [E' [_ [Bd _]]]]].
  rewrite E in E'. inversion E'; subst m' g.
  intros sq q Hq Hu. unfold getPieceAt in Hq.
  destruct (isValidPosition sq) eqn:V; [|discriminate Hq].
  rewrite Bd in Hq.
  destruct (@keeps_boardAfter gs p to None _ _ _ Hq) as [K|K]; [congruence|].
  apply U; [|exact Hu]. unfold getPieceAt. rewrite V. exact K.
Qed.

Lemma reachable_unmovedAtHome gs : reachable gs -> unmovedAtHome gs.
Proof.
  induction 1 as [|gs from to gs' R IH Hstep].
  - intros sq q H _. exact H.
  - eapply unmovedAtHome_step; eauto. apply reachable_sound. exact R.
Qed.

(** X23.  In every position reached by legal play, a piece whose
    [hasMoved] flag is still off is the very piece object the game
    started with on the square where it stands: [makeMove] sets the
    flag on every piece it writes to the board. *)
Theorem unmoved_pieces_at_home gs sq q :
  reachable gs -> getPieceAt gs sq = Some q -> piece_hasMoved q = false ->
  getPieceAt initialGameState sq = Some q.
Proof. intros R. apply (reachable_unmovedAtHome R). Qed.

Lemma unmoved_pieces_at_home_witness :
  getPieceAt initialGameState (square fh 1)
  = Some (mkPiece "white-rook-7" rook white (square fh 1) false).
Proof.
  apply (@unmoved_pieces_at_home (positionAfter castlingGame)).
  - apply positionAfter_reachable. vm_compute; reflexivity.
  - vm_compute; reflexivity.
  - reflexivity.
Defined.

(** ** Pieces are conserved *)

Lemma allSquares_NoDup : NoDup allSquares.
Proof.
  unfold allSquares, indices8. cbn [flat_map map app].
  repeat (constructor;
          [cbn [In]; intros H;
           repeat (destruct H as [H|H]; [discriminate H|]); exact H|]).
  constructor.
Qed.

Lemma occupied_upd_same F pos v : occupied (upd F pos v) pos = one v.
Proof. unfold occupied. rewrite upd_same. reflexivity. Qed.

Lemma occupied_upd_other F pos v sq :
  sq <> pos -> occupied (upd F pos v) sq = occupied F sq.
Proof.
  intros N. unfold occupied. rewrite upd_other; [reflexivity|].
  destruct (@position_neq sq pos N) as [R|C]; [left|right]; congruence.
Qed.

Lemma list_sum_cons a l : list_sum (a :: l) = (a + list_sum l)%nat.
Proof. reflexivity. Qed.

Lemma sum_upd_notin F pos v l :
  ~ In pos l ->
  list_sum (map (occupied (upd F pos v)) l) = list_sum (map (occupied F) l).
Proof.
  induction l as [|sq l IH]; intros N; cbn [map]; [reflexivity|].
  rewrite !list_sum_cons.
  rewrite occupied_upd_other by (intros ->; apply N; left; reflexivity).
  rewrite IH by (intros H; apply N; right; exact H). reflexivity.
Qed.

Lemma sum_upd_in F pos v l :
  NoDup l -> In pos l ->
  (list_sum (map (occupied (upd F pos v)) l) + occupied F pos
   = list_sum (map (occupied F) l) + one v)%nat.
Proof.
  induction l as [|sq l IH]; intros D Hin; [destruct Hin|].
  inversion D as [|? ? Nin D']; subst. cbn [map]. rewrite !list_sum_cons.
  destruct Hin as [->|Hin].
  - rewrite occupied_upd_same, sum_upd_notin by exact Nin. lia.
  - rewrite occupied_upd_other by (intros ->; apply Nin; exact Hin).
    specialize (IH D' Hin). lia.
Qed.

Lemma countOn_upd F pos v :
  isValidPosition pos = true ->
  (countOn (upd F pos v) + occupied F pos = countOn F + one v)%nat.
Proof.
  intros V. unfold countOn. apply sum_upd_in; [apply allSquares_NoDup|].
  apply isValidPosition_true in V. destruct pos as [r c]. cbn [row col] in V.
  apply allSquares_complete; lia.
Qed.

Lemma countOn_ext F G : (forall r c, F r c = G r c) -> countOn F = countOn G.
Proof.
  intros H. unfold countOn. f_equal. apply map_ext. intros sq.
  unfold occupied. rewrite H. reflexivity.
Qed.

Lemma occupied_one F sq : occupied F sq = one (F (row sq) (col sq)).
Proof. reflexivity. Qed.

(** The count after a move whose shape matches what the generator
    checked. *)
Lemma count_boardAfter gs p to :
  onBoard gs p -> isValidPosition to = true -> shapely gs p to ->
  (castlingShape (piece_type p) (piece_position p) to = true ->
   getPieceAt gs to = None
   /\ col (piece_position p) = 4
   /\ boardGet (board gs) (row (piece_position p))
               (rookToCol (piece_position p) to) = None) ->
  (countOn (boardAfter gs p to None) + one (takenBy gs p to None)
   = pieceCount gs)%nat.
Proof.
  intros [Vp Bp] Vt [N [SC SE]] CS. unfold pieceCount.
  set (F1 := upd (boardGet (board gs)) (piece_position p) None).
  assert (C1 : (countOn F1 + 1 = countOn (boardGet (board gs)))%nat).
  { pose proof (@countOn_upd (boardGet (board gs)) (piece_position p) None Vp) as H.
    rewrite occupied_one, Bp in H. cbn [one isSome] in H.
    fold F1 in H. lia. }
  assert (T0 : F1 (row to) (col to) = getPieceAt gs to).
  { unfold F1. rewrite upd_other by (apply position_neq; congruence).
    rewrite (@getPieceAt_valid gs to Vt). reflexivity. }
  assert (C2 : (countOn (afterWrites gs p to None) + one (getPieceAt gs to)
                = countOn F1 + 1)%nat).
  { pose proof (@countOn_upd F1 to (Some (movedTo p to (promotedType p None))) Vt)
      as H.
    rewrite occupied_one, T0 in H. exact H. }
  unfold boardAfter, takenBy, afterEnPassant, enPassantVictim.
  destruct (enPassantShape (piece_type p) (getPieceAt gs to) (piece_position p) to)
    eqn:EP.
  - destruct (@enPassantShape_true _ _ _ _ EP) as [T [Cap Cn]].
    rewrite Cap in *. cbn [one isSome] in C2.
    assert (NC : castlingShape (piece_type p) (piece_position p) to = false)
      by (unfold castlingShape; rewrite T; reflexivity).
    unfold afterCastling. rewrite NC. rewrite EP.
    assert (Vs : isValidPosition (mkPosition (row (piece_position p)) (col to)) = true).
    { apply valid_in_row; [exact Vp|]. apply isValidPosition_true in Vt. lia. }
    pose proof (@countOn_upd (afterWrites gs p to None)
                  (mkPosition (row (piece_position p)) (col to)) None Vs) as H.
    rewrite occupied_one in H. cbn [row col] in H.
    destruct (afterWrites gs p to None (row (piece_position p)) (col to));
      cbn [one isSome] in *; lia.
  - assert (V0 : match getPieceAt gs to with
                 | Some cp => Some cp
                 | None =>
                     if enPassantShape (piece_type p) None (piece_position p) to
                     then afterCastling (afterWrites gs p to None) (piece_type p)
                                        (piece_position p) to
                                        (row (piece_position p)) (col to)
                     else None
                 end = getPieceAt gs to).
    { destruct (getPieceAt gs to) eqn:G; [reflexivity|].
      rewrite EP. reflexivity. }
    rewrite V0. unfold afterCastling.
    destruct (castlingShape (piece_type p) (piece_position p) to) eqn:CSh; [|lia].
    destruct (CS eq_refl) as [Cap [C4 RT]]. specialize (SC eq_refl).
    rewrite Cap in *. cbn [one isSome] in *.
    destruct (afterWrites gs p to None (row (piece_position p))
                          (rookFromCol (piece_position p) to)) as [rk|] eqn:RK;
      [|lia].
    cbv zeta.
    set (rf := mkPosition (row (piece_position p)) (rookFromCol (piece_position p) to)).
    set (rt := mkPosition (row (piece_position p)) (rookToCol (piece_position p) to)).
    assert (Vf : isValidPosition rf = true)
      by (apply valid_in_row; [exact Vp|apply rookFromCol_range]).
    assert (Vr : isValidPosition rt = true)
      by (apply valid_in_row; [exact Vp|apply rookToCol_range]).
    pose proof (@countOn_upd (afterWrites gs p to None) rf None Vf) as H1.
    rewrite occupied_one in H1. cbn [row col rf] in H1. rewrite RK in H1.
    pose proof (@countOn_upd (upd (afterWrites gs p to None) rf None) rt
                  (Some (movedTo rk rt (piece_type rk))) Vr) as H2.
    rewrite occupied_one in H2.
    assert (E : upd (afterWrites gs p to None) rf None (row rt) (col rt) = None).
    { assert (D1 : rookToCol (piece_position p) to <> rookFromCol (piece_position p) to)
        by (unfold rookToCol, rookFromCol; destruct (_ <? _); lia).
      assert (D2 : rookToCol (piece_position p) to <> col to)
        by (unfold rookToCol; destruct (_ <? _); lia).
      assert (D3 : rookToCol (piece_position p) to <> col (piece_position p))
        by (unfold rookToCol; destruct (_ <? _); lia).
      rewrite upd_other by (cbn [row col rf rt]; right; congruence).
      unfold afterWrites.
      rewrite upd_other by (cbn [row col rt]; right; congruence).
      rewrite upd_other by (cbn [row col rt]; right; congruence).
      exact RT. }
    rewrite E in H2. cbn [one isSome] in *. lia.
Qed.

Lemma initial_king_col sq q :
  getPieceAt initialGameState sq = Some q -> piece_type q = king -> col sq = 4.
Proof.
  unfold getPieceAt. destruct (isValidPosition sq) eqn:V; [|discriminate].
  apply isValidPosition_true in V. destruct sq as [r c]. cbn [row col] in *.
  destruct V as [Hr Hc].
  each_of_eight Hr; each_of_eight Hc; vm_compute;
    intros H T; try reflexivity; try discriminate H;
    inversion H; subst q; discriminate T.
Qed.

Lemma capturedCount_withTaken gs t :
  capturedCount (withTaken gs t) = (capturedCount gs + one t)%nat.
Proof.
  destruct t as [cp|]; cbn [withTaken one isSome]; [|lia].
  unfold capturedCount, pushCaptured.
  destruct (piece_color cp); cbn [capturedWhite capturedBlack];
    rewrite length_app; cbn [List.length]; lia.
Qed.

Lemma legal_castle_facts gs p to :
  onBoard gs p -> unmovedAtHome gs ->
  In to (destinations (legalMoves gs p)) ->
  castlingShape (piece_type p) (piece_position p) to = true ->
  getPieceAt gs to = None
  /\ col (piece_position p) = 4
  /\ boardGet (board gs) (row (piece_position p))
              (rookToCol (piece_position p) to) = None.
Proof.
  intros B U Hin CS. destruct (@castlingShape_true _ _ _ CS) as [T D].
  unfold destinations in Hin. apply in_map_iff in Hin.
  destruct Hin as [m [Hto Hm]]. unfold legalMoves in Hm. apply filter_In in Hm.
  destruct Hm as [Hm _]. subst to.
  destruct (@king_two_columns gs p m T Hm D) as [s Hs].
  destruct (@castleMove_inv gs p s m Hs) as [Em [_ CC]].
  assert (Fl : vm_isCastling m = true) by (rewrite Em; reflexivity).
  destruct (@pseudoLegalMoves_castling gs p m Hm Fl) as [_ [Unmoved _]].
  assert (Home : getPieceAt initialGameState (piece_position p) = Some p).
  { apply U; [|exact Unmoved].
    rewrite (@getPieceAt_valid gs (piece_position p) (proj1 B)). exact (proj2 B). }
  pose proof (@initial_king_col (piece_position p) p Home T) as C4.
  assert (Eto : vm_to m = mkPosition (row (piece_position p)) (castleTarget s))
    by (rewrite Em; reflexivity).
  split; [|split; [exact C4|]].
  - rewrite Eto.
    exact (proj1 (@canCastle_col gs p s (castleTarget s) CC (castleTarget_in s))).
  - assert (R : In (rookToCol (piece_position p) (vm_to m)) (castleCols s)).
    { rewrite Eto. unfold rookToCol. cbn [col]. rewrite C4.
      destruct s; cbn; auto. }
    pose proof (proj1 (@canCastle_col gs p s _ CC R)) as G.
    rewrite getPieceAt_valid in G; [exact G|].
    apply valid_in_row; [exact (proj1 B)|apply rookToCol_range].
Qed.

Lemma conserved_step gs from to gs' :
  sound gs -> unmovedAtHome gs -> legalStep gs from to = Some gs' ->
  (pieceCount gs' + capturedCount gs' = pieceCount gs + capturedCount gs)%nat.
Proof.
  intros Hs U H.
  destruct (@legalStep_inv gs from to gs' Hs H) as [p [m [_ [B [_ [Hin E]]]]]].
  assert (Vt : isValidPosition to = true).
  { unfold destinations in Hin. apply in_map_iff in Hin.
    destruct Hin as [vm [<- Hm]]. eapply legalMoves_valid; eauto. }
  destruct (@makeMove_effect gs p to None Hs (proj1 B) Vt)
    as [m' [g [E' [_ [Bd [[CW CB] _]]]]]].
  rewrite E in E'. inversion E'; subst m' g.
  pose proof (@count_boardAfter gs p to B Vt (@legal_shapely gs p to B Hin)
                (@legal_castle_facts gs p to B U Hin)) as C.
  assert (P : pieceCount gs' = countOn (boardAfter gs p to None))
    by (unfold pieceCount; apply countOn_ext; exact Bd).
  assert (K : capturedCount gs' = capturedCount (withTaken gs (takenBy gs p to None)))
    by (unfold capturedCount; rewrite CW, CB; reflexivity).
  rewrite capturedCount_withTaken in K. lia.
Qed.

Lemma reachable_conserved gs :
  reachable gs -> (pieceCount gs + capturedCount gs = 32)%nat.
Proof.
  induction 1 as [|gs from to gs' R IH Hstep].
  - vm_compute; reflexivity.
  - rewrite (@conserved_step gs from to gs' (reachable_sound R)
               (reachable_unmovedAtHome R) Hstep).
    exact IH.
Qed.

(** X24.  Pieces are conserved by legal play: in every position
    reached from the initial one, the pieces on the 64 squares and the
    pieces in the two lists of captured pieces add up to 32.  A capture,
    ordinary or en passant, takes one piece off the board and records
    exactly that one; castling moves the rook onto an empty square. *)
Theorem pieces_conserved gs :
  reachable gs -> (pieceCount gs + capturedCount gs = 32)%nat.
Proof. apply reachable_conserved. Qed.

Lemma pieces_conserved_witness :
  (pieceCount (positionAfter enPassantGame)
   + capturedCount (positionAfter enPassantGame) = 32)%nat.
Proof.
  apply pieces_conserved. apply positionAfter_reachable. vm_compute; reflexivity.
Defined.

(** ** Captures are recorded *)

(** X25.  An ordinary capture is recorded: when the destination holds
    a piece, [makeMove] stores that piece in the record's
    [capturedPiece] and appends it to the captured pieces of its
    colour, leaving the other list alone. *)
Theorem makeMove_records_capture gs piece to promo cp :
  sound gs -> isValidPosition (piece_position piece) = true ->
  isValidPosition to = true -> getPieceAt gs to = Some cp ->
  exists m gs',
    makeMove piece to promo gs = (Some m, gs')
    /\ move_capturedPiece m = Some cp
    /\ capturedWhite gs' = capturedWhite (pushCaptured gs cp)
    /\ capturedBlack gs' = capturedBlack (pushCaptured gs cp).
Proof.
  intros Hs Hp Ht G.
  destruct (@makeMove_effect gs piece to promo Hs Hp Ht)
    as [m [g [E [_ [_ [[CW CB] [_ [_ [_ [K _]]]]]]]]]].
  assert (T : takenBy gs piece to promo = Some cp)
    by (unfold takenBy; rewrite G; reflexivity).
  rewrite T in *. exists m, g. auto.
Qed.

Lemma makeMove_records_capture_witness :
  let gs := positionAfter [(square fe 2, square fe 4); (square fd 7, square fd 5)] in
  exists m gs',
    makeMove (pieceOn gs (square fe 4)) (square fd 5) None gs = (Some m, gs')
    /\ move_capturedPiece m = Some (pieceOn gs (square fd 5))
    /\ capturedWhite gs' = capturedWhite (pushCaptured gs (pieceOn gs (square fd 5)))
    /\ capturedBlack gs' = capturedBlack (pushCaptured gs (pieceOn gs (square fd 5))).
Proof.
  cbv zeta. apply makeMove_records_capture.
  - apply reachable_sound. apply positionAfter_reachable. vm_compute; reflexivity.
  - vm_compute; reflexivity.
  - reflexivity.
  - vm_compute; reflexivity.
Defined.

(** ** The last move of the history *)

Lemma lastMove_snoc gs m l : moves gs = l ++ [m] -> lastMove gs = Some m.
Proof. intros E. unfold lastMove. rewrite E, rev_app_distr. reflexivity. Qed.

Lemma lastMoveStands_step gs from to gs' :
  sound gs -> legalStep gs from to = Some gs' -> lastMoveStands gs'.
Proof.
  intros Hs H.
  destruct (@legalStep_inv gs from to gs' Hs H) as [p [m [_ [B [_ [Hin E]]]]]].
  assert (Vt : isValidPosition to = true).
  { unfold destinations in Hin. apply in_map_iff in Hin.
    destruct Hin as [vm [<- Hm]]. eapply legalMoves_valid; eauto. }
  destruct (@makeMove_effect gs p to None Hs (proj1 B) Vt)
    as [m' [g [E' [_ [Bd [_ [Mv [_ [[M1 [_ M3]] _]]]]]]]]].
  rewrite E in E'. inversion E'; subst m' g.
  intros lm L. rewrite (@lastMove_snoc gs' m (moves gs) Mv) in L.
  inversion L; subst lm. rewrite M1, M3.
  rewrite (@getPieceAt_valid gs' to Vt), Bd.
  apply boardAfter_to. apply legal_shapely; assumption.
Qed.

Lemma reachable_lastMoveStands gs : reachable gs -> lastMoveStands gs.
Proof.
  destruct 1 as [|gs from to gs' R Hstep].
  - intros lm L. discriminate L.
  - eapply lastMoveStands_step; eauto. apply reachable_sound. exact R.
Qed.

(** X26.  The history and the board agree on the last move: in every
    position reached by legal play with a non-empty history, the piece
    recorded in the last move stands on that move's destination, with
    its position updated and [hasMoved] set. *)
Theorem last_move_stands gs lm :
  reachable gs -> lastMove gs = Some lm ->
  getPieceAt gs (move_to lm)
  = Some (mkPiece (piece_id (move_piece lm)) (piece_type (move_piece lm))
            (piece_color (move_piece lm)) (move_to lm) true).
Proof. intros R. apply (reachable_lastMoveStands R). Qed.

Lemma last_move_stands_witness :
  getPieceAt (positionAfter checkGame) (square fh 5)
  = Some (mkPiece "white-queen-3" queen white (square fh 5) true).
Proof.
  apply (@last_move_stands (positionAfter checkGame)
           (mkMove (mkPiece "white-queen-3" queen white (square fd 1) false)
                   (square fd 1) (square fh 5) None "Qh5" true false false false)).
  - apply positionAfter_reachable. vm_compute; reflexivity.
  - vm_compute; reflexivity.
Defined.

(** ** Castling moves the rook *)

Lemma initial_corner r k c rk :
  getPieceAt initialGameState (mkPosition r 4) = Some k -> piece_type k = king ->
  c = 0 \/ c = 7 ->
  getPieceAt initialGameState (mkPosition r c) = Some rk ->
  piece_type rk = rook /\ piece_color rk = piece_color k.
Proof.
  unfold getPieceAt. destruct (isValidPosition (mkPosition r 4)) eqn:V; [|discriminate].
  apply isValidPosition_true in V. cbn [row col] in V. destruct V as [Hr _].
  intros Hk T Hc.
  each_of_eight Hr; destruct Hc; subst c; vm_compute in Hk |- *;
    try discriminate Hk; inversion Hk; subst k; try discriminate T;
    intros H; inversion H; subst rk; split; reflexivity.
Qed.

Lemma rook_cols_kingside from to :
  col from = 4 -> col to = 6 -> rookFromCol from to = 7 /\ rookToCol from to = 5.
Proof. intros F T. unfold rookFromCol, rookToCol. rewrite F, T. split; reflexivity. Qed.

Lemma rook_cols_queenside from to :
  col from = 4 -> col to = 2 -> rookFromCol from to = 0 /\ rookToCol from to = 3.
Proof. intros F T. unfold rookFromCol, rookToCol. rewrite F, T. split; reflexivity. Qed.

(** X27.  In a position reached by legal play, a king's legal move
    across two columns is castling with its own rook: the corner of the
    king's row on that side holds a rook of the king's colour that has
    not moved, and [makeMove] empties the corner and puts that rook,
    with [hasMoved] set, on the square the king has crossed (column 5
    when the king goes to column 6, column 3 when it goes to column
    2). *)
Theorem castling_moves_the_rook gs k to :
  reachable gs -> onBoard gs k -> piece_type k = king ->
  In to (destinations (legalMoves gs k)) ->
  Z.abs (col to - col (piece_position k)) = 2 ->
  exists s rk m gs',
    to = mkPosition (row (piece_position k)) (castleTarget s)
    /\ getPieceAt gs (mkPosition (row (piece_position k)) (castleRookCol s)) = Some rk
    /\ piece_type rk = rook /\ piece_color rk = piece_color k
    /\ piece_hasMoved rk = false
    /\ makeMove k to None gs = (Some m, gs')
    /\ getPieceAt gs' (mkPosition (row (piece_position k)) (castleRookCol s)) = None
    /\ getPieceAt gs' (mkPosition (row (piece_position k)) (castleRookTarget s))
       = Some (mkPiece (piece_id rk) rook (piece_color rk)
                (mkPosition (row (piece_position k)) (castleRookTarget s)) true).
Proof.
  intros R B T Hin D.
  pose proof (reachable_sound R) as Hs.
  pose proof (reachable_unmovedAtHome R) as U.
  assert (CS : castlingShape (piece_type k) (piece_position k) to = true).
  { unfold castlingShape. rewrite T. cbn [PieceType_eqb andb].
    apply Z.eqb_eq. exact D. }
  destruct (@legal_castle_facts gs k to B U Hin CS) as [Cap [C4 _]].
  pose proof (@legal_shapely gs k to B Hin) as Sh.
  assert (Hin' := Hin). unfold destinations in Hin'. apply in_map_iff in Hin'.
  destruct Hin' as [vm [Hto Hm]]. unfold legalMoves in Hm. apply filter_In in Hm.
  destruct Hm as [Hm _].
  assert (D' : Z.abs (col (vm_to vm) - col (piece_position k)) = 2)
    by (rewrite Hto; exact D).
  destruct (@king_two_columns gs k vm T Hm D') as [s Hs'].
  destruct (@castleMove_inv gs k s vm Hs') as [Em [[rk [Hrk Unm]] _]].
  assert (Eto : to = mkPosition (row (piece_position k)) (castleTarget s))
    by (rewrite <- Hto, Em; reflexivity).
  assert (Vt : isValidPosition to = true).
  { rewrite <- Hto. eapply pseudoLegalMoves_valid; eauto. }
  assert (Cols : rookFromCol (piece_position k) to = castleRookCol s
                 /\ rookToCol (piece_position k) to = castleRookTarget s).
  { destruct s.
    - apply rook_cols_kingside; [exact C4|rewrite Eto; reflexivity].
    - apply rook_cols_queenside; [exact C4|rewrite Eto; reflexivity]. }
  destruct Cols as [Cf Ct].
  set (rf := mkPosition (row (piece_position k)) (castleRookCol s)) in *.
  set (rt := mkPosition (row (piece_position k)) (castleRookTarget s)).
  assert (Vf : isValidPosition rf = true)
    by (apply valid_in_row; [exact (proj1 B)|destruct s; cbn; lia]).
  assert (Vr : isValidPosition rt = true)
    by (apply valid_in_row; [exact (proj1 B)|destruct s; cbn; lia]).
  assert (Home : getPieceAt initialGameState rf = Some rk)
    by (apply U; assumption).
  assert (KHome : getPieceAt initialGameState (piece_position k) = Some k).
  { destruct (@pseudoLegalMoves_castling gs k vm Hm) as [_ [Unk _]];
      [rewrite Em; reflexivity|].
    apply U; [|exact Unk].
    rewrite (@getPieceAt_valid gs (piece_position k) (proj1 B)). exact (proj2 B). }
  assert (K4 : piece_position k = mkPosition (row (piece_position k)) 4)
    by (destruct (piece_position k); cbn in *; congruence).
  rewrite K4 in KHome.
  destruct (@initial_corner (row (piece_position k)) k (castleRookCol s) rk KHome T)
    as [Tr Cr]; [destruct s; cbn; auto|exact Home|].
  destruct (@makeMove_effect gs k to None Hs (proj1 B) Vt)
    as [m [g [E [_ [Bd _]]]]].
  exists s, rk, m, g.
  split; [exact Eto|]. split; [exact Hrk|]. split; [exact Tr|]. split; [exact Cr|].
  split; [exact Unm|]. split; [exact E|].
  assert (NE : enPassantShape (piece_type k) (getPieceAt gs to) (piece_position k) to
               = false)
    by (unfold enPassantShape; rewrite T; reflexivity).
  assert (RK : afterWrites gs k to None (row (piece_position k))
                           (rookFromCol (piece_position k) to) = Some rk).
  { rewrite Cf. unfold afterWrites.
    rewrite upd_other
      by (right; rewrite Eto; cbn [col]; destruct s; cbn; lia).
    rewrite upd_other
      by (right; rewrite C4; destruct s; cbn; lia).
    rewrite (@getPieceAt_valid gs rf Vf) in Hrk. exact Hrk. }
  assert (BA : forall r c,
             boardAfter gs k to None r c
             = upd (upd (afterWrites gs k to None) rf None) rt
                   (Some (movedTo rk rt (piece_type rk))) r c).
  { intros r c. unfold boardAfter, afterEnPassant, enPassantVictim.
    rewrite NE. unfold afterCastling. rewrite CS, RK. cbv zeta.
    rewrite Cf, Ct. reflexivity. }
  fold rf. fold rt. split.
  - rewrite (@getPieceAt_valid g rf Vf), Bd, BA.
    rewrite upd_other by (right; unfold rf, rt; cbn [col]; destruct s; cbn; lia).
    apply upd_same.
  - rewrite (@getPieceAt_valid g rt Vr), Bd, BA. rewrite upd_same.
    unfold movedTo. rewrite Tr. reflexivity.
Qed.

Lemma castling_moves_the_rook_witness :
  let gs := positionAfter castlingGame in
  let k := pieceOn gs (square fe 1) in
  exists s rk m gs',
    square fg 1 = mkPosition (row (piece_position k)) (castleTarget s)
    /\ getPieceAt gs (mkPosition (row (piece_position k)) (castleRookCol s)) = Some rk
    /\ piece_type rk = rook /\ piece_color rk = piece_color k
    /\ piece_hasMoved rk = false
    /\ makeMove k (square fg 1) None gs = (Some m, gs')
    /\ getPieceAt gs' (mkPosition (row (piece_position k)) (castleRookCol s)) = None
    /\ getPieceAt gs' (mkPosition (row (piece_position k)) (castleRookTarget s))
       = Some (mkPiece (piece_id rk) rook (piece_color rk)
                (mkPosition (row (piece_position k)) (castleRookTarget s)) true).
Proof.
  cbv zeta. apply castling_moves_the_rook.
  - apply positionAfter_reachable. vm_compute; reflexivity.
  - split; vm_compute; reflexivity.
  - vm_compute; reflexivity.
  - vm_compute. auto.
  - vm_compute; reflexivity.
Defined.

(** ** En passant takes the pawn that has just passed *)

Lemma pawn_diagonal_empty gs p m :
  In m (getPawnMoves gs p) -> getPieceAt gs (vm_to m) = None ->
  col (vm_to m) <> col (piece_position p) ->
  canEnPassant gs p (vm_to m) = true.
Proof.
  unfold getPawnMoves. intros Hin Emp Cn. apply in_app_or in Hin.
  destruct Hin as [Hin|Hin].
  - exfalso. unfold pawnForward in Hin. cbv zeta in Hin.
    destruct (_ && _) in Hin; [|destruct Hin].
    destruct Hin as [<-|Hin]; [apply Cn; reflexivity|].
    destruct (_ && _) in Hin; [|destruct Hin].
    destruct Hin as [<-|[]]. apply Cn; reflexivity.
  - apply in_flat_map in Hin. destruct Hin as [d [_ Hin]].
    unfold pawnDiagonal in Hin. cbv zeta in Hin.
    destruct (isValidPosition _) in Hin; [|destruct Hin].
    apply in_app_or in Hin. destruct Hin as [Hin|Hin].
    + exfalso.
      destruct (getPieceAt gs
                  (mkPosition (row (piece_position p) + direction (piece_color p))
                              (col (piece_position p) + d))) as [q|] eqn:G;
        [|destruct Hin].
      destruct (negb _) in Hin; [|destruct Hin].
      destruct Hin as [<-|[]]. cbn [vm_to] in Emp. congruence.
    + destruct (canEnPassant gs p _) eqn:C in Hin; [|destruct Hin].
      destruct Hin as [<-|[]]. cbn [vm_to]. exact C.
Qed.

(** X28.  In a position reached by legal play, a pawn's legal move
    onto an empty square of another column is an en-passant capture of
    the pawn that has just advanced two squares: that pawn stands beside
    the capturing pawn, on the column of the destination; [makeMove]
    takes it off the board, stores it in the record's [capturedPiece]
    and appends it to the captured pieces of its colour. *)
Theorem enPassant_takes_the_pawn gs p to :
  reachable gs -> onBoard gs p -> piece_type p = pawn ->
  In to (destinations (legalMoves gs p)) ->
  getPieceAt gs to = None -> col to <> col (piece_position p) ->
  exists lm cp m gs',
    lastMove gs = Some lm
    /\ piece_type (move_piece lm) = pawn
    /\ Z.abs (row (move_from lm) - row (move_to lm)) = 2
    /\ move_to lm = mkPosition (row (piece_position p)) (col to)
    /\ getPieceAt gs (move_to lm) = Some cp
    /\ makeMove p to None gs = (Some m, gs')
    /\ getPieceAt gs' (move_to lm) = None
    /\ move_capturedPiece m = Some cp
    /\ capturedWhite gs' = capturedWhite (pushCaptured gs cp)
    /\ capturedBlack gs' = capturedBlack (pushCaptured gs cp).
Proof.
  intros R B T Hin Emp Cn.
  pose proof (reachable_sound R) as Hs.
  pose proof (@legal_shapely gs p to B Hin) as [N [_ SE]].
  assert (Hin' := Hin). unfold destinations in Hin'. apply in_map_iff in Hin'.
  destruct Hin' as [vm [Hto Hm]]. unfold legalMoves in Hm. apply filter_In in Hm.
  destruct Hm as [Hm _].
  assert (Vt : isValidPosition to = true).
  { rewrite <- Hto. eapply pseudoLegalMoves_valid; eauto. }
  unfold pseudoLegalMoves in Hm. rewrite T in Hm.
  assert (CE : canEnPassant gs p to = true).
  { rewrite <- Hto. apply pawn_diagonal_empty; [exact Hm| |]; rewrite Hto; assumption. }
  apply canEnPassant_true in CE. destruct CE as [lm [L [Tl [Dl [Rl Cl]]]]].
  assert (Elm : move_to lm = mkPosition (row (piece_position p)) (col to))
    by (destruct (move_to lm); cbn in *; congruence).
  pose proof (@reachable_lastMoveStands gs R lm L) as St.
  set (cp := movedTo (move_piece lm) (move_to lm) (piece_type (move_piece lm))) in *.
  assert (EP : enPassantShape (piece_type p) (getPieceAt gs to) (piece_position p) to
               = true).
  { unfold enPassantShape. rewrite T, Emp. cbn [PieceType_eqb isSome negb andb].
    apply negb_true_iff. apply Z.eqb_neq. exact Cn. }
  specialize (SE EP).
  assert (NC : castlingShape (piece_type p) (piece_position p) to = false)
    by (unfold castlingShape; rewrite T; reflexivity).
  assert (Vs : isValidPosition (mkPosition (row (piece_position p)) (col to)) = true).
  { apply valid_in_row; [exact (proj1 B)|]. apply isValidPosition_true in Vt. lia. }
  assert (V : afterCastling (afterWrites gs p to None) (piece_type p)
                            (piece_position p) to
                            (row (piece_position p)) (col to) = Some cp).
  { unfold afterCastling. rewrite NC. unfold afterWrites.
    rewrite upd_other by (left; exact SE).
    rewrite upd_other by (right; congruence).
    rewrite Elm, (@getPieceAt_valid gs _ Vs) in St. exact St. }
  destruct (@makeMove_effect gs p to None Hs (proj1 B) Vt)
    as [m [g [E [_ [Bd [[CW CB] [_ [_ [_ [K _]]]]]]]]]].
  assert (Tk : takenBy gs p to None = Some cp).
  { unfold takenBy, enPassantVictim. rewrite Emp. rewrite Emp in EP. rewrite EP.
    exact V. }
  rewrite Tk in *.
  exists lm, cp, m, g.
  split; [exact L|]. split; [exact Tl|]. split; [exact Dl|]. split; [exact Elm|].
  split; [exact St|]. split; [exact E|].
  split; [|split; [exact K|split; [exact CW|exact CB]]].
  rewrite Elm, (@getPieceAt_valid g _ Vs), Bd.
  unfold boardAfter, afterEnPassant, enPassantVictim. rewrite EP. cbn [row col].
  rewrite V.
  exact (@upd_same _ (mkPosition (row (piece_position p)) (col to)) None).
Qed.

Lemma enPassant_takes_the_pawn_witness :
  let gs := positionAfter (firstn 4 enPassantGame) in
  let p := pieceOn gs (square fe 5) in
  exists lm cp m gs',
    lastMove gs = Some lm
    /\ piece_type (move_piece lm) = pawn
    /\ Z.abs (row (move_from lm) - row (move_to lm)) = 2
    /\ move_to lm = mkPosition (row (piece_position p)) (col (square fd 6))
    /\ getPieceAt gs (move_to lm) = Some cp
    /\ makeMove p (square fd 6) None gs = (Some m, gs')
    /\ getPieceAt gs' (move_to lm) = None
    /\ move_capturedPiece m = Some cp
    /\ capturedWhite gs' = capturedWhite (pushCaptured gs cp)
    /\ capturedBlack gs' = capturedBlack (pushCaptured gs cp).
Proof.
  cbv zeta. apply enPassant_takes_the_pawn.
  - apply positionAfter_reachable. vm_compute; reflexivity.
  - split; vm_compute; reflexivity.
  - vm_compute; reflexivity.
  - vm_compute. auto.
  - vm_compute; reflexivity.
  - vm_compute; discriminate.
Defined.

(** ** Attacks depend on the colours of the other pieces only *)

Lemma sameColours_cases g1 g2 sq :
  sameColours g1 g2 ->
  (getPieceAt g1 sq = None /\ getPieceAt g2 sq = None)
  \/ exists t1 t2,
       getPieceAt g1 sq = Some t1 /\ getPieceAt g2 sq = Some t2
       /\ piece_color t1 = piece_color t2.
Proof.
  intros H. specialize (H sq).
  destruct (getPieceAt g1 sq) as [t1|], (getPieceAt g2 sq) as [t2|];
    cbn in H; try discriminate H.
  - right. exists t1, t2. inversion H. auto.
  - left. auto.
Qed.

Lemma linearFrom_colours g1 g2 p dr dc fuel :
  sameColours g1 g2 ->
  forall cur, linearFrom fuel g1 p dr dc cur = linearFrom fuel g2 p dr dc cur.
Proof.
  intros H. induction fuel as [|k IH]; intros cur; cbn [linearFrom]; [reflexivity|].
  destruct (isValidPosition cur); [|reflexivity].
  destruct (@sameColours_cases g1 g2 cur H) as [[E1 E2]|[t1 [t2 [E1 [E2 C]]]]];
    rewrite E1, E2.
  - rewrite IH. reflexivity.
  - rewrite C. reflexivity.
Qed.

Lemma getLinearMoves_colours g1 g2 p ds :
  sameColours g1 g2 ->
  flat_map (getLinearMoves g1 p) ds = flat_map (getLinearMoves g2 p) ds.
Proof.
  intros H. apply flat_map_ext. intros d. unfold getLinearMoves.
  apply linearFrom_colours. exact H.
Qed.

Lemma getKnightMoves_colours g1 g2 p :
  sameColours g1 g2 -> getKnightMoves g1 p = getKnightMoves g2 p.
Proof.
  intros H. unfold getKnightMoves. apply flat_map_ext. intros d. unfold stepMove.
  destruct (isValidPosition _); [|reflexivity].
  destruct (@sameColours_cases g1 g2 (offsetBy (piece_position p) d) H)
    as [[E1 E2]|[t1 [t2 [E1 [E2 C]]]]]; rewrite E1, E2; [|rewrite C]; reflexivity.
Qed.

Lemma getRawMoves_colours g1 g2 p :
  sameColours g1 g2 -> getRawMoves g1 p = getRawMoves g2 p.
Proof.
  intros H. unfold getRawMoves, getQueenMoves, getRookMoves, getBishopMoves.
  destruct (piece_type p).
  - reflexivity.
  - apply getLinearMoves_colours; exact H.
  - apply getKnightMoves_colours; exact H.
  - apply getLinearMoves_colours; exact H.
  - rewrite (@getLinearMoves_colours g1 g2 p rookDirections H).
    rewrite (@getLinearMoves_colours g1 g2 p bishopDirections H). reflexivity.
  - reflexivity.
Qed.

Lemma isSquareUnderAttack_colours g1 g2 sq c :
  sameColours g1 g2 ->
  getAllPieces g1 (opposite c) = getAllPieces g2 (opposite c) ->
  isSquareUnderAttack g1 sq c = isSquareUnderAttack g2 sq c.
Proof.
  intros H A. unfold isSquareUnderAttack. rewrite A. clear A.
  induction (getAllPieces g2 (opposite c)) as [|a l IH]; cbn [existsb]; [reflexivity|].
  rewrite IH, (@getRawMoves_colours g1 g2 a H). reflexivity.
Qed.

Lemma getAllPieces_In gs c q :
  In q (getAllPieces gs c) <->
  exists sq, In sq allSquares
             /\ boardGet (board gs) (row sq) (col sq) = Some q /\ piece_color q = c.
Proof.
  unfold getAllPieces. rewrite in_flat_map. split.
  - intros [sq [Hsq H]]. exists sq. split; [exact Hsq|].
    destruct (boardGet (board gs) (row sq) (col sq)) as [t|]; [|destruct H].
    destruct (PieceColor_eqb (piece_color t) c) eqn:C; [|destruct H].
    destruct H as [<-|[]]. apply PieceColor_eqb_eq in C. auto.
  - intros [sq [Hsq [G C]]]. exists sq. split; [exact Hsq|].
    rewrite G. apply PieceColor_eqb_eq in C. rewrite C. left. reflexivity.
Qed.

Lemma filter_at_most_one {A} (f : A -> bool) (l : list A) a b :
  (List.length (filter f l) <= 1)%nat ->
  In a l -> In b l -> f a = true -> f b = true -> a = b.
Proof.
  induction l as [|x t IH]; intros L Ha Hb Fa Fb; [destruct Ha|].
  cbn [filter] in L. destruct (f x) eqn:Fx.
  - cbn [List.length] in L.
    assert (N : forall y, In y t -> f y = true -> False).
    { intros y Hy Fy.
      assert (Hin : In y (filter f t)) by (apply filter_In; auto).
      destruct (filter f t); [destruct Hin|cbn [List.length] in L; lia]. }
    destruct Ha as [<-|Ha]; [|destruct (N a Ha Fa)].
    destruct Hb as [<-|Hb]; [reflexivity|destruct (N b Hb Fb)].
  - destruct Ha as [<-|Ha]; [congruence|].
    destruct Hb as [<-|Hb]; [congruence|].
    apply IH; assumption.
Qed.

Lemma opposite_neqb c : PieceColor_eqb c (opposite c) = false.
Proof. destruct c; reflexivity. Qed.

(** Two boards that differ on one square only, where both hold a piece
    of the defender's colour, are attacked alike. *)
Lemma attack_agree g1 g2 to q1 q2 c :
  (forall r k, row to <> r \/ col to <> k ->
               boardGet (board g1) r k = boardGet (board g2) r k) ->
  boardGet (board g1) (row to) (col to) = Some q1 ->
  boardGet (board g2) (row to) (col to) = Some q2 ->
  piece_color q1 = c -> piece_color q2 = c ->
  forall sq, isSquareUnderAttack g1 sq c = isSquareUnderAttack g2 sq c.
Proof.
  intros Hoff H1 H2 C1 C2 sq. apply isSquareUnderAttack_colours.
  - intros x. unfold getPieceAt. destruct (isValidPosition x); [|reflexivity].
    destruct (Z.eq_dec (row to) (row x)) as [R|R].
    + destruct (Z.eq_dec (col to) (col x)) as [K|K].
      * rewrite <- R, <- K, H1, H2. cbn [option_map]. rewrite C1, C2. reflexivity.
      * rewrite Hoff by (right; exact K). reflexivity.
    + rewrite Hoff by (left; exact R). reflexivity.
  - unfold getAllPieces. apply flat_map_ext. intros x.
    destruct (Z.eq_dec (row to) (row x)) as [R|R].
    + destruct (Z.eq_dec (col to) (col x)) as [K|K].
      * rewrite <- R, <- K, H1, H2, C1, C2, opposite_neqb. reflexivity.
      * rewrite Hoff by (right; exact K). reflexivity.
    + rewrite Hoff by (left; exact R). reflexivity.
Qed.

(** ** What the legality filter tests *)

(** [wouldExposeKing] asks whether the king is attacked on the board on
    which the piece, unchanged, has been put on its destination. *)
Lemma exposes_spec gs p to :
  wellFormed (board gs) -> isValidPosition (piece_position p) = true ->
  isValidPosition to = true ->
  exists b2,
    (forall r c,
        boardGet b2 r c
        = upd (upd (boardGet (board gs)) (piece_position p) None) to (Some p) r c)
    /\ exposes gs p to
       = match findKing gs (piece_color p) with
         | Some kg =>
             isSquareUnderAttack
               (withBoard gs b2)
               (if PieceType_eqb (piece_type p) king then to else piece_position kg)
               (piece_color p)
         | None => false
         end.
Proof.
  intros Hwf Hpv Hto.
  destruct (@writeSquare_spec gs (piece_position p) None Hwf Hpv) as [b1 [E1 [W1 G1]]].
  destruct (@writeSquare_spec (withBoard gs b1) to (Some p) W1 Hto) as [b2 [E2 [W2 G2]]].
  destruct (@writeSquare_spec (withBoard gs b2) (piece_position p) (Some p) W2 Hpv)
    as [b3 [E3 [W3 G3]]].
  destruct (@writeSquare_spec (withBoard gs b3) to (getPieceAt gs to) W3 Hto)
    as [b4 [E4 [W4 G4]]].
  exists b2. split.
  - intros r c. rewrite G2. unfold upd. cbn [board withBoard]. rewrite G1. reflexivity.
  - unfold exposes, wouldExposeKing, bind, reads.
    destruct (findKing gs (piece_color p)) as [kg|]; [|reflexivity].
    rewrite E1, E2, withBoard_twice, E3, withBoard_twice, E4. reflexivity.
Qed.

Lemma boardAfter_plain gs p to promo r c :
  castlingShape (piece_type p) (piece_position p) to = false ->
  enPassantShape (piece_type p) (getPieceAt gs to) (piece_position p) to = false ->
  boardAfter gs p to promo r c = afterWrites gs p to promo r c.
Proof.
  intros C E. unfold boardAfter, afterEnPassant, enPassantVictim, afterCastling.
  rewrite E, C. reflexivity.
Qed.

(** The king of the mover after a plain move is the king the filter
    looked at. *)
Lemma plain_move_safe gs g p to :
  sound gs -> sound g -> onBoard gs p -> isValidPosition to = true ->
  (kingCount gs (piece_color p) <= 1)%nat ->
  exposes gs p to = false ->
  (forall r c, boardGet (board g) r c = afterWrites gs p to None r c) ->
  isInCheck g (piece_color p) = false.
Proof.
  intros Hs Hg [Vp Bp] Vto K1 Ex Hb.
  destruct (@exposes_spec gs p to (proj1 Hs) Vp Vto) as [b2 [G2 Esp]].
  rewrite Ex in Esp.
  assert (Agree : forall sq,
             isSquareUnderAttack g sq (piece_color p)
             = isSquareUnderAttack (withBoard gs b2) sq (piece_color p)).
  { apply (@attack_agree g (withBoard gs b2) to
                         (movedTo p to (promotedType p None)) p (piece_color p)).
    - intros r k N. rewrite Hb. cbn [board withBoard]. rewrite G2.
      unfold afterWrites. rewrite !(@upd_other _ to _ r k N). reflexivity.
    - rewrite Hb. apply afterWrites_to.
    - cbn [board withBoard]. rewrite G2. apply upd_same.
    - reflexivity.
    - reflexivity. }
  unfold isInCheck. destruct (findKing g (piece_color p)) as [k'|] eqn:Fk; [|reflexivity].
  apply findFirst_Some in Fk. destruct Fk as [Ink Tk].
  apply getAllPieces_In in Ink. destruct Ink as [sq [Hsq [Gk Ck]]].
  pose proof (@allSquares_range sq Hsq) as [Rr Rc].
  pose proof (proj2 Hg _ _ _ Rr Rc Gk) as Pk.
  assert (InP : In p (getAllPieces gs (piece_color p))).
  { apply getAllPieces_In. exists (piece_position p). split; [|split].
    - apply isValidPosition_true in Vp. destruct (piece_position p) as [r c].
      apply allSquares_complete; cbn [row col] in Vp; lia.
    - exact Bp.
    - reflexivity. }
  rewrite Agree. rewrite Hb in Gk.
  destruct (Z.eq_dec (row to) (row sq)) as [R|R];
    [destruct (Z.eq_dec (col to) (col sq)) as [C|C]|].
  - (* the king is the piece that moved *)
    rewrite <- R, <- C, afterWrites_to in Gk. inversion Gk as [Ek]. clear Gk.
    rewrite <- Ek in Tk. cbn [movedTo piece_type promotedType] in Tk.
    cbn [movedTo piece_position].
    destruct (findKing gs (piece_color p)) as [kg|] eqn:Fg.
    + rewrite Tk in Esp. symmetry. exact Esp.
    + pose proof (@findFirst_none_inv _ _ _ Fg p InP) as N. cbv beta in N.
      rewrite Tk in N. discriminate N.
  - (* another square of the row *)
    unfold afterWrites in Gk. rewrite upd_other in Gk by (right; exact C).
    assert (Gs : boardGet (board gs) (row sq) (col sq) = Some k').
    { unfold upd in Gk. destruct (_ && _) in Gk; [discriminate Gk|exact Gk]. }
    assert (Far : piece_position k' <> piece_position p).
    { intros Eq. unfold upd in Gk. rewrite <- Eq, Pk in Gk. cbn [row col] in Gk.
      rewrite !Z.eqb_refl in Gk. discriminate Gk. }
    assert (InK : In k' (getAllPieces gs (piece_color p))).
    { apply getAllPieces_In. exists sq. auto. }
    destruct (findKing gs (piece_color p)) as [kg|] eqn:Fg.
    + apply findFirst_Some in Fg. destruct Fg as [Ing Tg].
      pose proof (@filter_at_most_one _ _ _ kg k' K1 Ing InK Tg Tk) as Ekg.
      destruct (PieceType_eqb (piece_type p) king) eqn:Tp.
      * pose proof (@filter_at_most_one _ _ _ p k' K1 InP InK Tp Tk) as Epk.
        exfalso. apply Far. rewrite Epk. reflexivity.
      * rewrite Ekg in Esp. symmetry. exact Esp.
    + pose proof (@findFirst_none_inv _ _ _ Fg k' InK) as N. cbv beta in N.
      rewrite Tk in N. discriminate N.
  - unfold afterWrites in Gk. rewrite upd_other in Gk by (left; exact R).
    assert (Gs : boardGet (board gs) (row sq) (col sq) = Some k').
    { unfold upd in Gk. destruct (_ && _) in Gk; [discriminate Gk|exact Gk]. }
    assert (Far : piece_position k' <> piece_position p).
    { intros Eq. unfold upd in Gk. rewrite <- Eq, Pk in Gk. cbn [row col] in Gk.
      rewrite !Z.eqb_refl in Gk. discriminate Gk. }
    assert (InK : In k' (getAllPieces gs (piece_color p))).
    { apply getAllPieces_In. exists sq. auto. }
    destruct (findKing gs (piece_color p)) as [kg|] eqn:Fg.
    + apply findFirst_Some in Fg. destruct Fg as [Ing Tg].
      pose proof (@filter_at_most_one _ _ _ kg k' K1 Ing InK Tg Tk) as Ekg.
      destruct (PieceType_eqb (piece_type p) king) eqn:Tp.
      * pose proof (@filter_at_most_one _ _ _ p k' K1 InP InK Tp Tk) as Epk.
        exfalso. apply Far. rewrite Epk. reflexivity.
      * rewrite Ekg in Esp. symmetry. exact Esp.
    + pose proof (@findFirst_none_inv _ _ _ Fg k' InK) as N. cbv beta in N.
      rewrite Tk in N. discriminate N.
Qed.

(** X29.  With at most one king of the mover's colour on the board, a
    legal move that [handleSpecialMoves] treats neither as castling nor
    as en passant, played without a promotion choice, never leaves the
    mover's own king in check. *)
Theorem legal_plain_move_keeps_king_safe gs p m :
  sound gs -> onBoard gs p -> In m (legalMoves gs p) ->
  (kingCount gs (piece_color p) <= 1)%nat ->
  castlingShape (piece_type p) (piece_position p) (vm_to m) = false ->
  enPassantShape (piece_type p) (getPieceAt gs (vm_to m)) (piece_position p) (vm_to m)
  = false ->
  exists mv g,
    makeMove p (vm_to m) None gs = (Some mv, g)
    /\ isInCheck g (piece_color p) = false.
Proof.
  intros Hs Hon Hin K1 C E.
  pose proof (@legalMoves_valid gs p m Hin) as Vto.
  unfold legalMoves in Hin. apply filter_In in Hin. destruct Hin as [_ Ex].
  apply negb_true_iff in Ex.
  destruct (@makeMove_effect gs p (vm_to m) None Hs (proj1 Hon) Vto)
    as [mv [g [Em [Hg [Hb _]]]]].
  exists mv, g. split; [exact Em|].
  apply (@plain_move_safe gs g p (vm_to m) Hs Hg Hon Vto K1 Ex).
  intros r c. rewrite Hb. apply boardAfter_plain; assumption.
Qed.

Lemma legal_plain_move_keeps_king_safe_witness :
  let gs := positionAfter checkGame in
  let p := pieceOn gs (square fg 7) in
  let m := plainMove (square fg 6) false in
  exists mv g,
    makeMove p (vm_to m) None gs = (Some mv, g)
    /\ isInCheck g (piece_color p) = false.
Proof.
  cbv zeta. apply legal_plain_move_keeps_king_safe.
  - apply reachable_sound. apply positionAfter_reachable. vm_compute; reflexivity.
  - split; vm_compute; reflexivity.
  - vm_compute. auto.
  - vm_compute. lia.
  - vm_compute; reflexivity.
  - vm_compute; reflexivity.
Defined.
